(** * udkm1Dsim.heat: excitation scheduling and temperature maps

    A shallow embedding of the [Heat] class of [udkm1Dsim/heat.py].

    Numbers. The program computes with binary64 floats; the embedding
    uses the real numbers [R] of the Standard Library, so every
    arithmetic step is exact.  Quantities are taken in SI base units,
    i.e. the embedding starts after the [.to(unit).magnitude]
    conversions of the source.

    Objects. NumPy arrays are mutable objects that several names may
    share.  One-dimensional arrays and (layer x sub-system) temperature
    fields live in a store and are named by locations; the [Heat]
    object holds locations for the three arrays of its [_excitation]
    dictionary.

    Control. Python exceptions are values of [exn]; code that touches
    the object or the store runs in the monad [M] (state, then
    exception: what was written before an exception stays written). *)

From Stdlib Require Import Reals Lra Lia List ZArith Bool Arith Sorted Permutation.
From Stdlib Require String.
Import ListNotations.
Open Scope R_scope.

(** ** Exceptions and results *)

Inductive exn : Type :=
| ValueError_excitation_kind     (* '_excitation_ must be either a float/int or dict ...' *)
| ValueError_excitation_length   (* 'Elements of excitation dict must have the same number ...' *)
| ValueError_delays_not_unique   (* 'The excitations have to be unique in delays!' *)
| ValueError_overlap             (* 'Overlapping pulse must have duration > 0!' *)
| ValueError_init_temp           (* 'The initial temperature vector must have 1 or NxK elements' *)
| ValueError_numpy               (* raised by numpy: reduction of an empty array, shape mismatch *)
| SolverError                    (* brentq or calc_heat_diffusion raised *)
| IndexError
| KeyError
| TypeError
| ZeroDivisionError
| NonFinite                      (* not a Python exception: a float operation gave inf or nan
                                    (NumPy warns and goes on), which no real number stands for *)
| FuelExhausted.                 (* not a Python exception: the bound of a modelled while loop
                                    ran out; [traverse_excitation_fuel] shows it is never met *)

Inductive result (A : Type) : Type :=
| Ok (a : A)
| Raise (e : exn).
Arguments Ok {A} a.
Arguments Raise {A} e.

Definition rbind {A B} (r : result A) (k : A -> result B) : result B :=
  match r with
  | Ok a => k a
  | Raise e => Raise e
  end.

Declare Scope result_scope.
Delimit Scope result_scope with result.
Notation "'let*' x ':=' r 'in' k" := (rbind r (fun x => k))
  (at level 10, x pattern, r at level 100, k at level 200) : result_scope.
Open Scope result_scope.

(** ** Comparisons on floats, as booleans *)

Definition Rltb (x y : R) : bool := if Rlt_dec x y then true else false.
Definition Rleb (x y : R) : bool := if Rle_dec x y then true else false.
Definition Reqb (x y : R) : bool := if Req_dec_T x y then true else false.
Definition Rgtb (x y : R) : bool := Rltb y x.
Definition Rgeb (x y : R) : bool := Rleb y x.

(** ** Lists as Python sequences *)

(** [l[i]] for [0 <= i]; out of range raises [IndexError]. *)
Definition item {A} (l : list A) (i : nat) : result A :=
  match nth_error l i with
  | Some a => Ok a
  | None => Raise IndexError
  end.

(** [l[-1]]. *)
Definition item_last {A} (l : list A) : result A :=
  match l with
  | [] => Raise IndexError
  | _ => item l (length l - 1)
  end.

(** [l[i:j]] for [0 <= i] and [0 <= j]. *)
Definition slice {A} (i j : nat) (l : list A) : list A :=
  firstn (j - i) (skipn i l).

(** [l[i:j]] with Python's rule for negative bounds: a negative bound
    counts from the end, and every bound is clipped to [0 .. len(l)]. *)
Definition py_bound (n : nat) (z : Z) : nat :=
  if (z <? 0)%Z then Z.to_nat (Z.of_nat n + z) else Nat.min n (Z.to_nat z).

Definition py_slice {A} (i j : Z) (l : list A) : list A :=
  slice (py_bound (length l) i) (py_bound (length l) j) l.

(** ** NumPy reductions and constructors *)

Definition np_sum (l : list R) : R := fold_right Rplus 0 l.

(** [np.min]; an empty array raises [ValueError]. *)
Definition np_min (l : list R) : result R :=
  match l with
  | [] => Raise ValueError_numpy
  | x :: t => Ok (fold_left Rmin t x)
  end.

Definition np_zeros (n : nat) : list R := repeat 0 n.

(** [np.arange(start, stop, step)], which is what [np.r_[start:stop:step]]
    builds: the points [start + j*step] for [j < n].  NumPy takes for
    [n] the ceiling of the quotient [(stop - start)/step] as computed
    in binary64, and the rounded quotient can lie just above an
    integer that the exact quotient equals: [np.r_[-0.15:0.15:0.0001]]
    has 3001 points, not 3000.  The number of points is therefore not
    determined by the real numbers the model computes with; it is the
    parameter [arange_count], read as the count NumPy arrives at for
    these arguments. *)
Definition np_arange (arange_count : R -> R -> R -> nat) (start stop step : R) : list R :=
  map (fun j => start + INR j * step) (seq 0 (arange_count start stop step)).

(** The count when the quotient is computed exactly. *)
Definition ceil_count (start stop step : R) : nat :=
  Z.to_nat (Zceil ((stop - start) / step)).

Fixpoint insert_sorted (x : R) (l : list R) : list R :=
  match l with
  | [] => [x]
  | y :: t => if Rleb x y then x :: l else y :: insert_sorted x t
  end.

(** [np.sort]. *)
Definition np_sort (l : list R) : list R := fold_right insert_sorted [] l.

Fixpoint drop_repeats (l : list R) : list R :=
  match l with
  | [] => []
  | x :: t =>
      match t with
      | [] => [x]
      | y :: _ => if Reqb x y then drop_repeats t else x :: drop_repeats t
      end
  end.

(** [np.unique]: the sorted distinct values. *)
Definition np_unique (l : list R) : list R := drop_repeats (np_sort l).

(** ** The merged excitation intervals

    An entry of [n_excitation] and of the list [check_excitation]
    returns is the Python list [[intervall, delay_pump, pulse_width,
    fluence]]; the fields are named after the variables
    [calc_temp_map] unpacks them into. *)

Record Interval : Type := mkInterval {
  sub_delays : list R;      (* [0]: the time grid of the interval *)
  iv_delay_pump : list R;   (* [1] *)
  iv_pulse_width : list R;  (* [2] *)
  iv_fluence : list R       (* [3] *)
}.

Definition window : R := 1.5.  (* window factor for finite pulse duration *)
Definition intp : R := 1000.   (* interpolation factor for finite pulse duration *)

(** The inner [while k < len(delay_pump)] loop of [check_excitation]:
    starting at pulse [k] with the rows collected so far in [temp], it
    returns the last pulse of the group and the rows of the group.
    [n] is [len(delay_pump) - k], the number of pulses still ahead. *)
Fixpoint scan_overlap (delay_pump pulse_width fluence : list R)
    (n k : nat) (temp : list (R * R * R)) : result (nat * list (R * R * R)) :=
  match n with
  | O => Ok (k, temp)
  | S n' =>
      let* dk := item delay_pump k in
      let* wk := item pulse_width k in
      let* fk := item fluence k in
      let temp := temp ++ [(dk, wk, fk)] in
      if (k + 1 <? length delay_pump)%nat then
        let* dk1 := item delay_pump (k + 1) in
        let* wk1 := item pulse_width (k + 1) in
        if Rgeb (dk + window * wk) (dk1 - window * wk1) then
          (* there is an overlap in time: k += 1 *)
          if Reqb wk1 0 then Raise ValueError_overlap
          else scan_overlap delay_pump pulse_width fluence n' (k + 1) temp
        else Ok (k, temp)
      else Ok (k, temp)
  end.

(** The new time vector of the group of pulses [i .. k]. *)
Definition group_intervall (arange_count : R -> R -> R -> nat)
    (delay_pump pulse_width : list R) (i k : nat) : result (list R) :=
  let* m := np_min (slice i (k + 1) pulse_width) in
  let delta_delay := m / intp in
  if Reqb delta_delay 0 then
    let* di := item delay_pump i in
    Ok [di]
  else
    let* di := item delay_pump i in
    let* wi := item pulse_width i in
    let* dk := item delay_pump k in
    let* wk := item pulse_width k in
    Ok (np_arange arange_count (di - window * wi) (dk + window * wk) delta_delay).

(** The outer [while i < len(delay_pump)] loop, with [n_excitation]
    the groups appended so far. *)
Fixpoint traverse_excitation (arange_count : R -> R -> R -> nat) (fuel : nat)
    (delay_pump pulse_width fluence : list R)
    (i : nat) (n_excitation : list Interval) : result (list Interval) :=
  if (i <? length delay_pump)%nat then
    match fuel with
    | O => Raise FuelExhausted
    | S fuel' =>
        let* group :=
          scan_overlap delay_pump pulse_width fluence (length delay_pump - i) i [] in
        let '(k, temp) := group in
        let* intervall := group_intervall arange_count delay_pump pulse_width i k in
        let n_excitation :=
          n_excitation ++ [mkInterval intervall
                             (map (fun t => fst (fst t)) temp)
                             (map (fun t => snd (fst t)) temp)
                             (map (fun t => snd t) temp)] in
        traverse_excitation arange_count fuel' delay_pump pulse_width fluence (k + 1)
                            n_excitation
    end
  else Ok n_excitation.

(** [delays[mask]] for the masks of the second half of [check_excitation]. *)
Definition delays_before (delays : list R) (t : R) : list R :=
  filter (fun d => Rltb d t) delays.
Definition delays_after (delays : list R) (t : R) : list R :=
  filter (fun d => Rgtb d t) delays.
Definition delays_between (delays : list R) (t0 t1 : R) : list R :=
  filter (fun d => Rgtb d t0 && Rltb d t1) delays.

Definition quiet (ds : list R) : Interval := mkInterval ds [] [] [].

(** The [for i, excitation in enumerate(n_excitation)] loop: [rest] is
    [n_excitation[i:]] and [res] the result list so far. *)
Fixpoint add_quiet_intervals (delays : list R) (rest : list Interval)
    (res : list Interval) : result (list Interval) :=
  match rest with
  | [] => Ok res
  | excitation :: rest' =>
      let res := res ++ [excitation] in
      match rest' with
      | next :: _ =>
          (* there is an upcoming pump event *)
          let* t_end := item_last (sub_delays excitation) in
          let* t_next := item (sub_delays next) 0 in
          let between := delays_between delays t_end t_next in
          if (0 <? length between)%nat
          then add_quiet_intervals delays rest' (res ++ [quiet between])
          else add_quiet_intervals delays rest' res
      | [] =>
          (* this is the last pump event *)
          let* t_end := item_last (sub_delays excitation) in
          let after := delays_after delays t_end in
          if (0 <? length after)%nat
          then add_quiet_intervals delays rest' (res ++ [quiet after])
          else add_quiet_intervals delays rest' res
      end
  end.

Inductive warning : Type :=
| Warn_enable_heat_diffusion   (* 'If you are introducing more than 1 subsystem ...' *)
| Warn_pulse_duration_ignored  (* '... All pulse durations are set to 0!' *)
| Warn_no_delay_before.        (* 'Please add more delay steps before the first excitation!' *)

(** ** The sample structure (external collaborator)

    Only the queries [Heat] makes are modelled, each as the value it
    returns. *)

Inductive depth : Type :=
| Finite (zeta : R)
| Infinite.            (* [np.isinf(opt_pen_depth)] *)

Record Sample : Type := mkSample {
  number_of_layers : nat;                    (* get_number_of_layers() *)
  num_sub_systems : nat;                     (* num_sub_systems *)
  d_start : list R;                          (* get_distances_of_layers()[0] *)
  d_mid : list R;                            (* get_distances_of_layers()[2] *)
  interfaces : list R;                       (* get_distances_of_interfaces() *)
  opt_pen_depth : nat -> depth;              (* get_layer_handle(i).opt_pen_depth *)
  int_heat_capacity : list (list (R -> R));  (* get_layer_property_vector('_int_heat_capacity') *)
  thickness : list R;                        (* ... ('_thickness') *)
  mass : list R;                             (* ... ('_mass') *)
  area : list R                              (* ... ('_area') *)
}.

(** ** The object and the store *)

Definition loc : Type := nat.

(** A temperature field: one row per layer, one column per sub-system. *)
Definition Field : Type := list (list R).

(** [self._excitation]: the dictionary holds references to three arrays. *)
Record Excitation : Type := mkExcitation {
  ex_fluence : loc;       (* ['fluence'] *)
  ex_delay_pump : loc;    (* ['delay_pump'] *)
  ex_pulse_width : loc    (* ['pulse_width'] *)
}.

Record Heat : Type := mkHeat {
  sample : Sample;        (* self.S *)
  heat_diffusion : bool;
  _excitation : Excitation
}.

Record World : Type := mkWorld {
  self : Heat;
  arrays : list (list R);   (* the one-dimensional array (and list) objects *)
  fields : list Field;      (* the (N, K) array objects *)
  warnings : list warning   (* what [warnings.warn] was called with, latest last *)
}.

Definition M (A : Type) : Type := World -> World * result A.

Definition ret {A} (a : A) : M A := fun w => (w, Ok a).
Definition raise {A} (e : exn) : M A := fun w => (w, Raise e).
Definition bind {A B} (m : M A) (k : A -> M B) : M B :=
  fun w =>
    match m w with
    | (w', Ok a) => k a w'
    | (w', Raise e) => (w', Raise e)
    end.
Definition lift {A} (r : result A) : M A := fun w => (w, r).

Declare Scope heat_scope.
Delimit Scope heat_scope with heat.
Notation "x <- m ;; k" := (bind m (fun x => k))
  (at level 61, m at next level, right associativity) : heat_scope.
Notation "m ;; k" := (bind m (fun _ => k))
  (at level 61, right associativity) : heat_scope.
Open Scope heat_scope.

(** [try: body / except <caught>: handler]. *)
Definition try_except {A} (body : M A) (caught : exn -> bool) (handler : M A) : M A :=
  fun w =>
    match body w with
    | (w', Raise e) => if caught e then handler w' else (w', Raise e)
    | r => r
    end.

Definition get_self : M Heat := fun w => (w, Ok (self w)).

Definition warn (x : warning) : M unit :=
  fun w => (mkWorld (self w) (arrays w) (fields w) (warnings w ++ [x]), Ok tt).

(** A new one-dimensional array object. *)
Definition new_array (v : list R) : M loc :=
  fun w => (mkWorld (self w) (arrays w ++ [v]) (fields w) (warnings w),
            Ok (length (arrays w))).

Definition read_array (l : loc) : M (list R) :=
  fun w => (w, item (arrays w) l).

(** A new (N, K) array object. *)
Definition new_field (f : Field) : M loc :=
  fun w => (mkWorld (self w) (arrays w) (fields w ++ [f]) (warnings w),
            Ok (length (fields w))).

Definition read_field (l : loc) : M Field :=
  fun w => (w, item (fields w) l).

Fixpoint set_nth {A} (l : list A) (i : nat) (a : A) : list A :=
  match l, i with
  | [], _ => []
  | _ :: t, O => a :: t
  | x :: t, S i' => x :: set_nth t i' a
  end.

(** In-place update of the array object at [l]: every name that holds
    [l] sees the new contents. *)
Definition write_field (l : loc) (f : Field) : M unit :=
  fun w => (mkWorld (self w) (arrays w) (set_nth (fields w) l f) (warnings w), Ok tt).

(** [self._excitation[key] = <array at l>]. *)
Definition set_key (upd : Excitation -> Excitation) : M unit :=
  fun w => (mkWorld (mkHeat (sample (self w)) (heat_diffusion (self w))
                            (upd (_excitation (self w))))
                    (arrays w) (fields w) (warnings w), Ok tt).

Definition set_fluence (l : loc) : M unit :=
  set_key (fun e => mkExcitation l (ex_delay_pump e) (ex_pulse_width e)).
Definition set_delay_pump (l : loc) : M unit :=
  set_key (fun e => mkExcitation (ex_fluence e) l (ex_pulse_width e)).
Definition set_pulse_width (l : loc) : M unit :=
  set_key (fun e => mkExcitation (ex_fluence e) (ex_delay_pump e) l).

(** ** [excitation.setter] *)

(** What the setter may be handed: a single fluence quantity, a
    dictionary (a key that is missing is [None]), or anything else.
    The values of a dictionary are one-dimensional arrays of
    quantities, as for a series of pulses.  A dictionary of single
    quantities, whose bare magnitudes the setter would store and then
    pass to [len], is not among the arguments of the model. *)
Inductive excitation_arg : Type :=
| Quantity (fluence : R)
| Dict (fluence delay_pump pulse_width : option (list R))
| Other.

(** [excitation[key]] on the argument dictionary. *)
Definition lookup_key (v : option (list R)) : M (list R) :=
  match v with
  | Some a => ret a
  | None => raise KeyError
  end.

Definition is_KeyError (e : exn) : bool :=
  match e with KeyError => true | _ => false end.

Definition set_excitation (excitation : excitation_arg) : M unit :=
  match excitation with
  | Quantity f =>
      (* just a fluence is given *)
      l <- new_array [f] ;; set_fluence l ;;
      l <- new_array [0] ;; set_delay_pump l ;;
      l <- new_array [0] ;; set_pulse_width l
  | Dict fl dp pw =>
      try_except
        (v <- lookup_key fl ;; l <- new_array v ;; set_fluence l ;;
         v <- lookup_key dp ;; l <- new_array v ;; set_delay_pump l ;;
         v <- lookup_key pw ;; l <- new_array v ;; set_pulse_width l)
        is_KeyError
        (ret tt)   (* print('The excitation dictionary must include ...') *)
  | Other => raise ValueError_excitation_kind
  end ;;
  h <- get_self ;;
  fluence <- read_array (ex_fluence (_excitation h)) ;;
  delay_pump <- read_array (ex_delay_pump (_excitation h)) ;;
  pulse_width <- read_array (ex_pulse_width (_excitation h)) ;;
  if negb ((length fluence =? length delay_pump)%nat
           && (length delay_pump =? length pulse_width)%nat)
  then raise ValueError_excitation_length
  else
    (* check the elements of the delay_pump vector *)
    if negb (length delay_pump =? length (np_unique delay_pump))%nat
    then raise ValueError_delays_not_unique
    else l <- new_array (np_sort delay_pump) ;; set_delay_pump l.

(** ** [check_excitation] *)

Definition check_excitation (arange_count : R -> R -> R -> nat) (delays : list R)
    : M (list Interval * loc * loc * loc) :=
  h <- get_self ;;
  let fluence := ex_fluence (_excitation h) in
  let delay_pump := ex_delay_pump (_excitation h) in
  let pulse_width := ex_pulse_width (_excitation h) in
  (* throw warnings if heat diffusion should be enabled *)
  (if (1 <? num_sub_systems (sample h))%nat && negb (heat_diffusion h)
   then warn Warn_enable_heat_diffusion else ret tt) ;;
  widths <- read_array pulse_width ;;
  pulse_width <-
    (if Rgtb (np_sum widths) 0 && negb (heat_diffusion h)
     then
       v <- read_array fluence ;;
       l <- new_array (np_zeros (length v)) ;;   (* pulse_width = np.zeros_like(fluence) *)
       warn Warn_pulse_duration_ignored ;;
       ret l
     else ret pulse_width) ;;
  dp <- read_array delay_pump ;;
  pw <- read_array pulse_width ;;
  fl <- read_array fluence ;;
  n_excitation <- lift (traverse_excitation arange_count (length dp) dp pw fl 0 []) ;;
  (* check for delay < delay_pump[0] *)
  first <- lift (item n_excitation 0) ;;
  t0 <- lift (np_min (sub_delays first)) ;;
  res <-
    (if (0 <? length (delays_before delays t0))%nat
     then ret [quiet (delays_before delays t0)]
     else warn Warn_no_delay_before ;; ret []) ;;
  res <- lift (add_quiet_intervals delays n_excitation res) ;;
  ret (res, fluence, delay_pump, pulse_width).

(** ** Fields as NumPy arrays *)

Definition np_full (N K : nat) (t : R) : Field := repeat (repeat t K) N.

Definition np_size (f : Field) : nat := fold_right (fun row n => (length row + n)%nat) 0%nat f.

(** [np.shape(f) == (N, K)]. *)
Definition has_shape (N K : nat) (f : Field) : bool :=
  (length f =? N)%nat && forallb (fun row => (length row =? K)%nat) f.

Definition zeros_like (f : Field) : Field := map (map (fun _ => 0)) f.

(** [a - b], elementwise. *)
Definition field_sub (a b : Field) : Field :=
  map (fun rows => map (fun xy => fst xy - snd xy) (combine (fst rows) (snd rows)))
      (combine a b).

(** First differences of one row. *)
Fixpoint diff1 (row : list R) : list R :=
  match row with
  | x :: (y :: _) as t => (y - x) :: diff1 t
  | _ => []
  end.

(** [np.diff(f, n, 1)]: the n-th difference along the sub-system axis;
    for [n = 0] numpy returns [f] itself. *)
Definition np_diff_axis1 (n : nat) (f : Field) : Field := map (Nat.iter n diff1) f.

(** [np.diff(frames, axis=0)]: differences of consecutive frames. *)
Fixpoint np_diff_axis0 (frames : list Field) : list Field :=
  match frames with
  | a :: (b :: _) as t => field_sub b a :: np_diff_axis0 t
  | _ => []
  end.

(** [a[k:k+len(v)] = v]. NumPy clips the slice to the array; a value of
    another length than the slice is broadcast when it has one element
    and refused otherwise. *)
Definition set_slice (a : list R) (k : nat) (v : list R) : result (list R) :=
  let lo := Nat.min k (length a) in
  let hi := Nat.min (k + length v) (length a) in
  if (hi - lo =? length v)%nat then Ok (firstn lo a ++ v ++ skipn hi a)
  else if (length v =? 1)%nat then Ok (firstn lo a ++ repeat (hd 0 v) (hi - lo) ++ skipn hi a)
  else Raise ValueError_numpy.

(** A size-1 array where a Python float is required. *)
Definition as_scalar (v : list R) : result R :=
  match v with
  | [x] => Ok x
  | _ => Raise TypeError
  end.

Section Collaborators.

(** The number of points of [np.arange], see [np_arange]. *)
Variable arange_count : R -> R -> R -> nat.

(** [helpers.finderb(key, vector)[0]]: the index found for the key (for
    a single key the array [finderb] returns has one entry). *)
Variable finderb : R -> list R -> nat.

(** [scipy.optimize.brentq(f, a, b)]. *)
Variable brentq : (R -> R) -> R -> R -> result R.

(** [self.calc_heat_diffusion(init_temp, sub_delays, delay_pump,
    pulse_width, fluence)]: the diffusion integrator, one field per
    point of [sub_delays]. *)
Variable calc_heat_diffusion :
  Field -> list R -> list R -> list R -> list R -> result (list Field).

(** ** [get_absorption_profile] *)

(** The distances of the mesh that lie in layer [i], between
    [interfaces[i]] and [interfaces[i+1]]. *)
Definition layer_points (n_interfaces i : nat) (distances : list R) (x0 x1 : R) : list R :=
  if (n_interfaces - 2 <=? i)%nat
  then filter (fun d => Rgeb d x0 && Rleb d x1) distances   (* last layer *)
  else filter (fun d => Rgeb d x0 && Rltb d x1) distances.

(** The body of [for i in range(len(interfaces)-1)], for the layers
    [layers] still to come.  [I0_is_int] holds as long as [I0] is the
    Python int 1 it starts as, that is until the first absorbing layer
    has multiplied it by a NumPy float.  A penetration depth of 0 makes
    [I0/opt_pen_depth] a division by zero: Python raises
    [ZeroDivisionError] for the int, NumPy goes on with inf for its
    float. *)
Fixpoint absorption_layers (S : Sample) (distances : list R) (layers : list nat)
    (dalpha_dz : list R) (I0 : R) (k : nat) (I0_is_int : bool) : result (list R) :=
  match layers with
  | [] => Ok dalpha_dz
  | i :: layers' =>
      let* x0 := item (interfaces S) i in
      let index := finderb x0 (d_start S) in
      let* x1 := item (interfaces S) (i + 1) in
      let z := layer_points (length (interfaces S)) i distances x0 x1 in
      let m := length z in
      match opt_pen_depth S index with
      | Finite zeta =>
          (* the layer is absorbing *)
          if Reqb zeta 0 then
            Raise (if I0_is_int then ZeroDivisionError else NonFinite)
          else
            let* dalpha_dz :=
              set_slice dalpha_dz k (map (fun d => I0 / zeta * exp (- (d - x0) / zeta)) z) in
            absorption_layers S distances layers' dalpha_dz
                              (I0 * exp (- (x1 - x0) / zeta)) (k + m) false
      | Infinite =>
          absorption_layers S distances layers' dalpha_dz I0 (k + m) I0_is_int
      end
  end.

(** [distances = None] stands for the default argument [[]]. *)
Definition get_absorption_profile (S : Sample) (distances : option (list R))
    : result (list R) :=
  let distances :=
    match distances with
    | None => d_mid S
    | Some d => d
    end in
  absorption_layers S distances (seq 0 (length (interfaces S) - 1))
                    (np_zeros (length distances)) 1 0 true.

(** ** [check_initial_temperature] *)

Inductive init_temp_arg : Type :=
| Temp_scalar (t : R)     (* a single temperature *)
| Temp_array (l : loc).   (* an array object *)

Definition check_initial_temperature (init_temp : init_temp_arg) : M loc :=
  h <- get_self ;;
  let N := number_of_layers (sample h) in
  let K := num_sub_systems (sample h) in
  match init_temp with
  | Temp_scalar t => new_field (np_full N K t)
  | Temp_array l =>
      f <- read_field l ;;
      if (np_size f =? 1)%nat
      then new_field (np_full N K (hd 0 (concat f)))   (* init_temp*np.ones([N, K]) *)
      else if negb (has_shape N K f) then raise ValueError_init_temp
      else ret l
  end.

(** ** [get_temperature_after_delta_excitation] *)

(** [E0 = np.array(fluence)*areas[1]]. *)
Definition deposited_energy (S : Sample) (fluence : list R) : result (list R) :=
  let* a := item (area S) 1 in
  Ok (map (fun F => F * a) fluence).

(** [del_E = dalpha_dz[i]*E0*thicknesses[i]]. *)
Definition absorbed_energy (S : Sample) (dalpha_dz E0 : list R) (i : nat)
    : result (list R) :=
  let* a := item dalpha_dz i in
  let* d := item (thickness S) i in
  Ok (map (fun e => a * e * d) E0).

(** [final_temp[i] = t]: the whole row of layer [i]. *)
Definition set_row (f : Field) (i : nat) (t : R) : Field :=
  match nth_error f i with
  | Some row => set_nth f i (map (fun _ => t) row)
  | None => f
  end.

(** The body of [for i, int_heat_capacity in enumerate(int_heat_capacities)]
    for the layers from [i] on.  [brentq] wants floats: the row
    [init_temp[i]] and the value of [fun] must have a single element. *)
Fixpoint heat_layers (S : Sample) (dalpha_dz E0 : list R)
    (init_temp final_temp : loc) (i : nat) (caps : list (list (R -> R))) : M unit :=
  match caps with
  | [] => ret tt
  | int_heat_capacity :: caps' =>
      a <- lift (item dalpha_dz i) ;;
      (if Rgtb a 0 then
         (* if there is absorption in the current layer *)
         del_E <- lift (absorbed_energy S dalpha_dz E0 i) ;;
         T1 <- read_field init_temp ;;
         row <- lift (item T1 i) ;;
         t1 <- lift (as_scalar row) ;;
         m <- lift (item (mass S) i) ;;
         c <- lift (item int_heat_capacity 0) ;;
         dE <- lift (as_scalar del_E) ;;
         t2 <- lift (brentq (fun T => m * (c T - c t1) - dE) t1 1e5) ;;
         T2 <- read_field final_temp ;;
         (if (i <? length T2)%nat then write_field final_temp (set_row T2 i t2)
          else raise IndexError)
       else ret tt) ;;
      heat_layers S dalpha_dz E0 init_temp final_temp (i + 1) caps'
  end.

Definition get_temperature_after_delta_excitation (fluence : list R)
    (init_temp : init_temp_arg) : M (loc * loc) :=
  h <- get_self ;;
  let S := sample h in
  (* absorption profile from Lambert-Beer's law *)
  dalpha_dz <- lift (get_absorption_profile S None) ;;
  E0 <- lift (deposited_energy S fluence) ;;
  init_temp <- check_initial_temperature init_temp ;;
  let final_temp := init_temp in   (* the same array object under a second name *)
  heat_layers S dalpha_dz E0 init_temp final_temp 0 (int_heat_capacity S) ;;
  T2 <- read_field final_temp ;;
  T1 <- read_field init_temp ;;
  delta_T <- new_field (field_sub T2 T1) ;;
  ret (final_temp, delta_T).

(** ** [calc_temp_map] *)

(** [np.sum(np.sum(np.abs(np.diff(temp_map[-1, :, :], 0, 1))))]. *)
Definition temp_gradient (T : Field) : R :=
  np_sum (map np_sum (map (map Rabs) (np_diff_axis1 0 T))).

(** The test of the first branch: heat diffusion enabled and more than
    2 time steps AND either no excitation with temperature gradient or
    excitation with finite pulse duration. *)
Definition diffusive (h : Heat) (excitation : Interval) (gradient : R) : bool :=
  heat_diffusion h && (2 <? length (sub_delays excitation))%nat
  && ((Reqb (np_sum (iv_fluence excitation)) 0 && negb (Reqb gradient 0))
      || (Rgtb (np_sum (iv_fluence excitation)) 0
          && Rgtb (np_sum (iv_pulse_width excitation)) 0)).

(** The test of the [elif]: excitation with no heat diffusion, or with
    heat diffusion and pulse_width equal to 0. *)
Definition delta (h : Heat) (excitation : Interval) : bool :=
  Rgtb (np_sum (iv_fluence excitation)) 0
  && (negb (heat_diffusion h)
      || (heat_diffusion h && Reqb (np_sum (iv_pulse_width excitation)) 0)).

(** [if i > 0]: put the last time of the intervall before in front of
    the time grid [times]; the result is [(start, sub_delays)]. *)
Definition extend_left (checked_excitation : list Interval) (i : nat)
    (times : list R) : result (nat * list R) :=
  if (0 <? i)%nat then
    let* before := item checked_excitation (i - 1) in
    let* t := item_last (sub_delays before) in
    Ok (1%nat, t :: times)
  else Ok (0%nat, times).

(** [if i < len(checked_excitation)-1 and ...]: when the next intervall
    is a delta excitation, add its first time at the end; the result is
    [(stop, sub_delays)]. *)
Definition extend_right (checked_excitation : list Interval) (i : nat)
    (times : list R) : result (nat * list R) :=
  if (i <? length checked_excitation - 1)%nat then
    let* next := item checked_excitation (i + 1) in
    if Rgtb (np_sum (iv_fluence next)) 0 && Reqb (np_sum (iv_pulse_width next)) 0 then
      let* t := item (sub_delays next) 0 in
      Ok (1%nat, times ++ [t])
    else Ok (0%nat, times)
  else Ok (0%nat, times).

(** The [if / elif / else] of the loop body: the frames [temp] of the
    intervall and [special_init_temp] ([None] for the empty list). *)
Definition interval_temp (checked_excitation : list Interval) (temp_map : list loc)
    (i : nat) (excitation : Interval) (init_temp : loc)
    : M (list Field * option loc) :=
  h <- get_self ;;
  last <- lift (item_last temp_map) ;;
  T <- read_field last ;;
  if diffusive h excitation (temp_gradient T) then
    l <- lift (extend_left checked_excitation i (sub_delays excitation)) ;;
    r <- lift (extend_right checked_excitation i (snd l)) ;;
    let start := fst l in
    let stop := fst r in
    (* calc heat diffusion *)
    T0 <- read_field init_temp ;;
    temp <- lift (calc_heat_diffusion T0 (snd r) (iv_delay_pump excitation)
                    (iv_pulse_width excitation) (iv_fluence excitation)) ;;
    special_init_temp <-
      (if (stop =? 1)%nat
       then T <- lift (item_last temp) ;; l <- new_field T ;; ret (Some l)
       else ret None) ;;
    (* cut the before added time steps: temp[start:-1-stop, :, :] *)
    ret (py_slice (Z.of_nat start) (-1 - Z.of_nat stop) temp, special_init_temp)
  else if delta h excitation then
    r <- get_temperature_after_delta_excitation (iv_fluence excitation)
           (Temp_array init_temp) ;;
    T <- read_field (fst r) ;;
    let temp := [T] in                  (* np.reshape(temp, [1, N, K]) *)
    let temp := map zeros_like temp in  (* temp = np.zeros_like(temp) *)
    ret (temp, None)
  else
    (* just repeat the initial temperature *)
    T0 <- read_field init_temp ;;
    ret (repeat T0 (length (sub_delays excitation)), None).

(** [print(a[:, 1, 0])] on an array of shape (_, N, K). *)
Definition print_column (N K : nat) : result unit :=
  if (2 <=? N)%nat && (1 <=? K)%nat then Ok tt else Raise IndexError.

(** One pass of [for i, excitation in enumerate(checked_excitation)],
    from the loop state [(init_temp, num_ex)] to the next one, together
    with the frames [temp] computed for the intervall.  The line that
    appended [temp] to [temp_map] is commented out in the source. *)
Definition interval_step (checked_excitation : list Interval) (temp_map : list loc)
    (i : nat) (excitation : Interval) (st : loc * nat)
    : M (list Field * (loc * nat)) :=
  r <- interval_temp checked_excitation temp_map i excitation (fst st) ;;
  h <- get_self ;;
  lift (print_column (number_of_layers (sample h)) (num_sub_systems (sample h))) ;;
  lift (print_column (number_of_layers (sample h)) (num_sub_systems (sample h))) ;;
  (* set the initial temperature for the next iteration *)
  last <- lift (item_last temp_map) ;;
  let init_temp :=
    match snd r with
    | Some l => l
    | None => last     (* temp_map[-1, :, :], a view *)
    end in
  (* increase excitation counter *)
  let num_ex :=
    if Rgtb (np_sum (iv_fluence excitation)) 0
    then (snd st + length (iv_fluence excitation))%nat
    else snd st in
  ret (fst r, (init_temp, num_ex)).

Fixpoint traverse_intervals (checked_excitation : list Interval) (temp_map : list loc)
    (i : nat) (rest : list Interval) (st : loc * nat) : M (loc * nat) :=
  match rest with
  | [] => ret st
  | excitation :: rest' =>
      r <- interval_step checked_excitation temp_map i excitation st ;;
      traverse_intervals checked_excitation temp_map (i + 1) rest' (snd r)
  end.

Fixpoint read_fields (ls : list loc) : M (list Field) :=
  match ls with
  | [] => ret []
  | l :: ls' => T <- read_field l ;; Ts <- read_fields ls' ;; ret (T :: Ts)
  end.

(** The result is [(temp_map, delta_temp_map, checked_excitation)];
    [temp_map] is the list of the frames along the first axis
    ([np.squeeze] only drops axes of length one).  The argument
    [excitation] is not read: the loop variable of the same name
    shadows it. *)
Definition calc_temp_map (delays : list R) (excitation : excitation_arg)
    (init_temp : init_temp_arg) : M (list Field * list Field * list Interval) :=
  h <- get_self ;;
  let N := number_of_layers (sample h) in
  let K := num_sub_systems (sample h) in
  (* there is an initial time step for the init_temp - we will remove it later on *)
  l0 <- new_field (np_full N K 0) ;;
  let temp_map := [l0] in
  init_temp <- check_initial_temperature init_temp ;;
  r <- check_excitation arange_count delays ;;
  let checked_excitation := fst (fst (fst r)) in
  T <- read_field init_temp ;;
  write_field l0 T ;;          (* temp_map[0, :, :] = init_temp *)
  traverse_intervals checked_excitation temp_map 0 checked_excitation (init_temp, 1%nat) ;;
  frames <- read_fields temp_map ;;
  (* calculate the difference temperature map *)
  let delta_temp_map := np_diff_axis0 frames in
  (* delete the initial temperature that was added at the beginning *)
  let temp_map := skipn 1 frames in
  ret (temp_map, delta_temp_map, checked_excitation).

End Collaborators.

(** ** Reading the object *)

(** The three sequences stored under [self._excitation]:
    [(fluence, delay_pump, pulse_width)]. *)
Definition stored_excitation (w : World) : result (list R * list R * list R) :=
  let* fl := item (arrays w) (ex_fluence (_excitation (self w))) in
  let* dp := item (arrays w) (ex_delay_pump (_excitation (self w))) in
  let* pw := item (arrays w) (ex_pulse_width (_excitation (self w))) in
  Ok (fl, dp, pw).

(** The object [Heat.__init__] builds: three empty lists under
    [_excitation]. *)
Definition new_heat (S : Sample) (diffusion : bool) : World :=
  mkWorld (mkHeat S diffusion (mkExcitation 0%nat 1%nat 2%nat)) [[]; []; []] [] [].


(** ** The boundary conditions of the heat diffusion *)

Section BoundaryModel.

Import String.
Local Open Scope string_scope.

(** The [value] of a boundary condition: a number (the default is 0)
    or an array with one entry per sub-system. *)
Inductive boundary_value : Type :=
| Scalar (v : R)
| Vector (v : list R).

(** [np.size(value)]. *)
Definition value_size (value : boundary_value) : nat :=
  match value with
  | Scalar _ => 1%nat
  | Vector v => List.length v
  end.

(** [self.boundary_conditions]. *)
Record BoundaryConditions : Type := mkBoundaryConditions {
  left_type : nat;                (* ['left_type'] *)
  left_value : boundary_value;    (* ['left_value'] *)
  right_type : nat;               (* ['right_type'] *)
  right_value : boundary_value    (* ['right_value'] *)
}.

(** The three [ValueError]s of [set_boundary_condition]. *)
Inductive boundary_error : Type :=
| ValueError_boundary_type   (* 'boundary_type must be either _isolator_, _temperature_ or _flux_!' *)
| ValueError_boundary_size   (* 'Non-isolating boundary conditions must have the same dimensionality ...' *)
| ValueError_boundary_side.  (* 'boundary_side must be either _left_ or _right_!' *)

(** [self.boundary_types] and [self.boundary_conditions] as
    [Heat.__init__] sets them. *)
Definition boundary_types : list string := ["isolator"; "temperature"; "flux"].

Definition new_boundary_conditions : BoundaryConditions :=
  mkBoundaryConditions 0 (Vector []) 0 (Vector []).

(** The [if / elif / else] on [boundary_type]; [None] is the branch
    that raises. *)
Definition btype_of (boundary_type : string) : option nat :=
  if boundary_type =? "temperature" then Some 1%nat
  else if boundary_type =? "flux" then Some 2%nat
  else if boundary_type =? "isolator" then Some 0%nat
  else None.

(** [set_boundary_condition(boundary_side, boundary_type, value)] on
    the object with sample [S] and boundary conditions [bc]: the
    conditions after the call, and the error raised, if any. *)
Definition set_boundary_condition (S : Sample) (boundary_side boundary_type : string)
    (value : boundary_value) (bc : BoundaryConditions)
    : BoundaryConditions * option boundary_error :=
  match btype_of boundary_type with
  | None => (bc, Some ValueError_boundary_type)
  | Some btype =>
      let K := num_sub_systems S in
      if (0 <? btype)%nat && negb (value_size value =? K)%nat
      then (bc, Some ValueError_boundary_size)
      else if boundary_side =? "left"
      then (mkBoundaryConditions btype value (right_type bc) (right_value bc), None)
      else if boundary_side =? "right"
      then (mkBoundaryConditions (left_type bc) (left_value bc) btype value, None)
      else (bc, Some ValueError_boundary_side)
  end.

(** [self.boundary_types[t]], the look-up [__str__] makes for the type
    of each side. *)
Definition boundary_type_name (t : nat) : result string :=
  item boundary_types t.

(** The conditions after a series of calls, each given as
    [(boundary_side, boundary_type, value)], where the caller goes on
    after a call that raised. *)
Fixpoint after_calls (S : Sample) (calls : list (string * string * boundary_value))
    (bc : BoundaryConditions) : BoundaryConditions :=
  match calls with
  | [] => bc
  | (boundary_side, boundary_type, value) :: calls' =>
      after_calls S calls' (fst (set_boundary_condition S boundary_side boundary_type value bc))
  end.

(** What the heat diffusion needs of the conditions: each side has one
    of the three types, and a side that is not an isolator has a value
    with one entry per sub-system. *)
Definition boundary_ok (S : Sample) (bc : BoundaryConditions) : Prop :=
  (exists name, boundary_type_name (left_type bc) = Ok name)
  /\ (exists name, boundary_type_name (right_type bc) = Ok name)
  /\ ((0 < left_type bc)%nat -> value_size (left_value bc) = num_sub_systems S)
  /\ ((0 < right_type bc)%nat -> value_size (right_value bc) = num_sub_systems S).

End BoundaryModel.
(** ** Example collaborators and samples *)

(** [finderb] on a sorted vector: the index of the last entry that is
    not above the key, 0 when the key is below all of them. *)
Definition finderb_sorted (key : R) (vector : list R) : nat :=
  (length (filter (fun v => Rleb v key) vector) - 1)%nat.

(** A root finder that is exact on the functions of slope one, which
    is what [fun] is for a constant heat capacity and unit mass. *)
Definition brentq_slope_one (f : R -> R) (a b : R) : result R := Ok (a - f a).

(** An integrator for a sample in equilibrium: the field stays what it
    was, one frame per time. *)
Definition diffusion_steady (T0 : Field) (times delay_pump pulse_width fluence : list R)
    : result (list Field) :=
  Ok (map (fun _ => T0) times).

(** Two layers of thickness 1 and one sub-system: the first layer
    absorbs with penetration depth 1, the second is transparent; the
    heat capacity is constant ([C(T) = T]), the masses are 1 and the
    areas 1 and 2. *)
Definition two_layers : Sample :=
  mkSample 2%nat 1%nat [0; 1] [0.5; 1.5] [0; 1; 2]
           (fun i => match i with O => Finite 1 | _ => Infinite end)
           [[fun T => T]; [fun T => T]] [1; 1] [1; 1] [1; 2].

(** One layer of thickness 1 and penetration depth 1. *)
Definition one_layer : Sample :=
  mkSample 1%nat 1%nat [0] [0.5] [0; 1] (fun _ => Finite 1) [[fun T => T]] [1] [1] [1].

(** A finite pulse stored while heat diffusion is disabled. *)
Definition finite_pulse_no_diffusion : World :=
  mkWorld (mkHeat two_layers false (mkExcitation 0%nat 1%nat 2%nat)) [[10]; [0]; [2]] [] [].

(** Two pulses of width 1 at the delays 0 and 1, heat diffusion enabled. *)
Definition two_pulses_diffusion : World :=
  mkWorld (mkHeat two_layers true (mkExcitation 0%nat 1%nat 2%nat))
          [[10; 10]; [0; 1]; [1; 1]] [] [].

(** A pulse of width 0 at delay 0 followed by a pulse of width 1 at
    delay 1, heat diffusion enabled. *)
Definition zero_width_first : World :=
  mkWorld (mkHeat two_layers true (mkExcitation 0%nat 1%nat 2%nat))
          [[10; 10]; [0; 1]; [0; 1]] [] [].

(** Two absorbing layers of thickness 1 and penetration depth 1. *)
Definition two_absorbing : Sample :=
  mkSample 2%nat 1%nat [0; 1] [0.5; 1.5] [0; 1; 2] (fun _ => Finite 1)
           [[fun T => T]; [fun T => T]] [1; 1] [1; 1] [1; 1].

(** One pulse of fluence 10 and width 0 at delay 0. *)
Definition single_pulse (diffusion : bool) : World :=
  mkWorld (mkHeat two_layers diffusion (mkExcitation 0%nat 1%nat 2%nat))
          [[10]; [0]; [0]] [] [].

(** The state of [calc_temp_map] after the seed frame (location 0) and
    the initial temperature (location 1) are set to 300 K, for the
    single pulse. *)
Definition before_pulse (diffusion : bool) : World :=
  mkWorld (mkHeat two_layers diffusion (mkExcitation 0%nat 1%nat 2%nat))
          [[10]; [0]; [0]] [[[300]; [300]]; [[300]; [300]]] [].

(** The temperature [brentq_slope_one] finds for the first layer of
    [two_layers] at 300 K after a fluence of 10. *)
Definition heated : R :=
  300 - (1 * (300 - 300) - 1 / 1 * exp (- (0.5 - 0) / 1) * (10 * 2) * 1).

(** The state after the solver ran on [before_pulse] with the seed
    frame as initial temperature: the seed frame holds the final
    temperatures, and a third field the returned change. *)
Definition after_pulse (diffusion : bool) : World :=
  mkWorld (mkHeat two_layers diffusion (mkExcitation 0%nat 1%nat 2%nat))
          [[10]; [0]; [0]]
          [[[heated]; [300]]; [[300]; [300]]; [[heated - heated]; [300 - 300]]] [].

(** The state after the quiet interval before the pulse went through
    the integrator: its last frame became a field of its own. *)
Definition after_diffusion : World :=
  mkWorld (mkHeat two_layers true (mkExcitation 0%nat 1%nat 2%nat))
          [[10]; [0]; [0]] [[[300]; [300]]; [[300]; [300]]; [[300]; [300]]] [].

(** ** The vocabulary of the theorems *)

(** The frame of a computation.
    [extends w w'] : going from [w] to [w'] the object is the same, no
    field object changed, and every array object that existed kept its
    contents (new ones may have been created). *)

Definition extends (w w' : World) : Prop :=
  self w' = self w /\ fields w' = fields w /\ exists new, arrays w' = arrays w ++ new.

Definition frame {A} (m : M A) : Prop := forall w, extends w (fst (m w)).


Section LayerValues.

Variable finderb : R -> list R -> nat.
Variable stack : Sample.

(** The position of interface [i]. *)
Definition interface (i : nat) : R := nth i (interfaces stack) 0.

(** The penetration depth of the layer that starts at interface [i]. *)
Definition layer_depth (i : nat) : depth :=
  opt_pen_depth stack (finderb (interface i) (d_start stack)).

(** The intensity that is left when the light enters layer [i]. *)
Fixpoint intensity (i : nat) : R :=
  match i with
  | O => 1
  | S j =>
      match layer_depth j with
      | Finite zeta => intensity j * exp (- (interface (j + 1) - interface j) / zeta)
      | Infinite => intensity j
      end
  end.

(** [z] lies in layer [i]: between the interfaces [i] and [i+1], the
    upper one included for the last layer only. *)
Definition in_layer (i : nat) (z : R) : Prop :=
  (i + 1 < length (interfaces stack))%nat
  /\ interface i <= z
  /\ (z < interface (i + 1)
      \/ ((i + 2)%nat = length (interfaces stack) /\ z <= interface (i + 1))).

(** The value Lambert-Beer's law gives at [z] in layer [i]. *)
Definition dalpha_dz_at (i : nat) (z : R) : R :=
  match layer_depth i with
  | Finite zeta => intensity i / zeta * exp (- (z - interface i) / zeta)
  | Infinite => 0
  end.

(** Every point of the mesh that lies in a layer carries that layer's
    value, at its own position in the profile. *)
Definition profile_by_layer (mesh profile : list R) : Prop :=
  forall j z i,
    nth_error mesh j = Some z -> in_layer i z ->
    nth_error profile j = Some (dalpha_dz_at i z).

End LayerValues.

(** The mask of layer [i], pointwise. *)
Definition layer_mask (n i : nat) (x0 x1 d : R) : bool :=
  if (n - 2 <=? i)%nat then Rgeb d x0 && Rleb d x1 else Rgeb d x0 && Rltb d x1.

(** The mesh [get_absorption_profile] works on: the midpoints of the
    layers when no distances are given. *)
Definition mesh_of (S : Sample) (distances : option (list R)) : list R :=
  match distances with
  | None => d_mid S
  | Some d => d
  end.


(** The stored excitation is normalized: three sequences of one
    length, the delays strictly increasing. *)
Definition normalized (w : World) : Prop :=
  exists fl dp pw,
    stored_excitation w = Ok (fl, dp, pw)
    /\ StronglySorted Rlt dp
    /\ length fl = length dp /\ length dp = length pw.

(** The state after the three assignments of a full dictionary. *)
Definition assigned (fl dp pw : list R) (w : World) : World :=
  mkWorld (mkHeat (sample (self w)) (heat_diffusion (self w))
                  (mkExcitation (length (arrays w)) (length (arrays w) + 1)%nat
                                (length (arrays w) + 1 + 1)%nat))
          (((arrays w ++ [fl]) ++ [dp]) ++ [pw]) (fields w) (warnings w).


(** The two halves of [excitation.setter]: the assignments, which
    depend on what is handed in, and the validation that follows. *)
Definition assign_excitation (excitation : excitation_arg) : M unit :=
  match excitation with
  | Quantity f =>
      l <- new_array [f] ;; set_fluence l ;;
      l <- new_array [0] ;; set_delay_pump l ;;
      l <- new_array [0] ;; set_pulse_width l
  | Dict fl dp pw =>
      try_except
        (v <- lookup_key fl ;; l <- new_array v ;; set_fluence l ;;
         v <- lookup_key dp ;; l <- new_array v ;; set_delay_pump l ;;
         v <- lookup_key pw ;; l <- new_array v ;; set_pulse_width l)
        is_KeyError
        (ret tt)
  | Other => raise ValueError_excitation_kind
  end.

Definition validate_excitation : M unit :=
  h <- get_self ;;
  fluence <- read_array (ex_fluence (_excitation h)) ;;
  delay_pump <- read_array (ex_delay_pump (_excitation h)) ;;
  pulse_width <- read_array (ex_pulse_width (_excitation h)) ;;
  if negb ((length fluence =? length delay_pump)%nat
           && (length delay_pump =? length pulse_width)%nat)
  then raise ValueError_excitation_length
  else
    if negb (length delay_pump =? length (np_unique delay_pump))%nat
    then raise ValueError_delays_not_unique
    else l <- new_array (np_sort delay_pump) ;; set_delay_pump l.

(** The state after a successful validation: the sorted delays are a
    new array. *)
Definition revalidated (dp : list R) (w : World) : World :=
  mkWorld (mkHeat (sample (self w)) (heat_diffusion (self w))
                  (mkExcitation (ex_fluence (_excitation (self w))) (length (arrays w))
                                (ex_pulse_width (_excitation (self w)))))
          (arrays w ++ [np_sort dp]) (fields w) (warnings w).

(** The widths [check_excitation] works with. *)
Definition effective_widths (diffusion : bool) (fl pw : list R) : list R :=
  if Rgtb (np_sum pw) 0 && negb diffusion then np_zeros (length fl) else pw.

(** The second half of [check_excitation]: the quiet intervals put
    before, between and after the groups. *)
Definition interleave (delays : list R) (n_excitation : list Interval)
    : result (list Interval) :=
  let* first := item n_excitation 0 in
  let* t0 := np_min (sub_delays first) in
  add_quiet_intervals delays n_excitation
    (if (0 <? length (delays_before delays t0))%nat
     then [quiet (delays_before delays t0)] else []).

(** The intervals of a result that carry pump events. *)
Definition pump_intervals (res : list Interval) : list Interval :=
  filter (fun g => (0 <? length (iv_delay_pump g))%nat) res.

(** A computation that leaves the object itself (its sample, its
    heat-diffusion flag and the references under [_excitation]) as it
    was. *)
Definition keeps_self {A} (m : M A) : Prop := forall w, self (fst (m w)) = self w.

(** Two layers of thickness 1 that do not absorb. *)
Definition transparent : Sample :=
  mkSample 2%nat 1%nat [0; 1] [0.5; 1.5] [0; 1; 2] (fun _ => Infinite)
           [[fun T => T]; [fun T => T]] [1; 1] [1; 1] [1; 2].

(** What the validation at the end of the setter makes of the stored
    sequences [fl], [dp], [pw] it finds: [r] is what the call ends
    with and [stored] what the object holds afterwards.  Either the
    lengths agree and no delay is given twice, the call returns and
    the delays are stored in increasing order; or the lengths differ,
    or a delay is given twice, and the call raises the [ValueError]
    for it and leaves the three sequences as they were found.  No
    other end, a [KeyError] in particular, is possible. *)
Definition validation_outcome (fl dp pw : list R) (r : result unit)
    (stored : result (list R * list R * list R)) : Prop :=
  (length fl = length dp /\ length dp = length pw /\ NoDup dp
   /\ r = Ok tt
   /\ exists dp', stored = Ok (fl, dp', pw)
                  /\ Permutation dp dp' /\ StronglySorted Rlt dp')
  \/ (~ (length fl = length dp /\ length dp = length pw)
      /\ r = Raise ValueError_excitation_length
      /\ stored = Ok (fl, dp, pw))
  \/ (length fl = length dp /\ length dp = length pw /\ ~ NoDup dp
      /\ r = Raise ValueError_delays_not_unique
      /\ stored = Ok (fl, dp, pw)).



(** Two pulses of the widths 2 and 3 at the delays 0 and 1, heat
    diffusion disabled. *)
Definition two_pulses_no_diffusion : World :=
  mkWorld (mkHeat two_layers false (mkExcitation 0%nat 1%nat 2%nat))
          [[10; 20]; [0; 1]; [2; 3]] [] [].

(** A pulse of width 1 at delay 0 followed by a pulse of width 0 at
    delay 1, heat diffusion enabled. *)
Definition zero_width_second : World :=
  mkWorld (mkHeat two_layers true (mkExcitation 0%nat 1%nat 2%nat))
          [[10; 10]; [0; 1]; [1; 0]] [] [].

(** An object that holds two pulses: the fluences 10 and 20, the
    delays 1 and 2, the widths 3 and 4. *)
Definition stored_two_pulses : World :=
  mkWorld (mkHeat two_layers true (mkExcitation 3%nat 6%nat 5%nat))
          [[]; []; []; [10; 20]; [2; 1]; [3; 4]; [1; 2]] [] [].

(** One layer from 0 to 1 with the penetration depth 0. *)
Definition zero_depth : Sample :=
  mkSample 1%nat 1%nat [0] [0.5] [0; 1] (fun _ => Finite 0) [[fun T => T]] [1] [1] [1].

(** ** Deciding comparisons at given numbers *)

Lemma Rltb_true x y : x < y -> Rltb x y = true.
Proof. intros H. unfold Rltb. destruct (Rlt_dec x y); [reflexivity | contradiction]. Qed.
Lemma Rltb_false x y : ~ x < y -> Rltb x y = false.
Proof. intros H. unfold Rltb. destruct (Rlt_dec x y); [contradiction | reflexivity]. Qed.
Lemma Rleb_true x y : x <= y -> Rleb x y = true.
Proof. intros H. unfold Rleb. destruct (Rle_dec x y); [reflexivity | contradiction]. Qed.
Lemma Rleb_false x y : ~ x <= y -> Rleb x y = false.
Proof. intros H. unfold Rleb. destruct (Rle_dec x y); [contradiction | reflexivity]. Qed.
Lemma Reqb_true x y : x = y -> Reqb x y = true.
Proof. intros H. unfold Reqb. destruct (Req_dec_T x y); [reflexivity | contradiction]. Qed.
Lemma Reqb_false x y : x <> y -> Reqb x y = false.
Proof. intros H. unfold Reqb. destruct (Req_dec_T x y); [contradiction | reflexivity]. Qed.

Arguments Rltb : simpl never.
Arguments Rleb : simpl never.
Arguments Reqb : simpl never.

Ltac decide_cmp :=
  unfold Rgtb, Rgeb;
  repeat match goal with
  | |- context [Rltb ?a ?b] =>
      first [rewrite (Rltb_true a b) by lra | rewrite (Rltb_false a b) by lra]
  | |- context [Rleb ?a ?b] =>
      first [rewrite (Rleb_true a b) by lra | rewrite (Rleb_false a b) by lra]
  | |- context [Reqb ?a ?b] =>
      first [rewrite (Reqb_true a b) by lra | rewrite (Reqb_false a b) by lra]
  end.
Ltac decide_more :=
  unfold window, intp;
  repeat match goal with
  | |- context [Rmin ?a ?b] =>
      first [rewrite (Rmin_left a b) by lra | rewrite (Rmin_right a b) by lra]
  | |- context [Rabs ?a] =>
      first [rewrite (Rabs_pos_eq a) by lra | rewrite (Rabs_left a) by lra]
  end;
  decide_cmp.

(** Run a computation on given numbers. *)
Ltac run := repeat (cbn; unfold bind, lift, ret; cbn; decide_more).


(** ** Running the monad *)

Lemma bind_ok {A B} (m : M A) (k : A -> M B) w w' b :
  bind m k w = (w', Ok b) ->
  exists w1 a, m w = (w1, Ok a) /\ k a w1 = (w', Ok b).
Proof.
  unfold bind. destruct (m w) as [w1 [a | e]]; intros H.
  - exists w1, a. split; [reflexivity | exact H].
  - discriminate H.
Qed.

Lemma lift_ok {A} (r : result A) w w' a :
  lift r w = (w', Ok a) -> w' = w /\ r = Ok a.
Proof. unfold lift. intros H. injection H as <- ->. split; reflexivity. Qed.

Lemma item_app_new {A} (l : list A) (x : A) : item (l ++ [x]) (length l) = Ok x.
Proof.
  unfold item. rewrite nth_error_app2 by lia.
  rewrite Nat.sub_diag. reflexivity.
Qed.

Lemma item_app_old {A} (l l' : list A) (i : nat) (x : A) :
  item l i = Ok x -> item (l ++ l') i = Ok x.
Proof.
  unfold item. destruct (nth_error l i) eqn:E; intros H; [| discriminate H].
  rewrite nth_error_app1 by (apply nth_error_Some; congruence).
  rewrite E. exact H.
Qed.

(** ** The frame of a computation *)

Lemma extends_refl w : extends w w.
Proof. repeat split. exists []. symmetry. apply app_nil_r. Qed.

Lemma extends_trans w1 w2 w3 : extends w1 w2 -> extends w2 w3 -> extends w1 w3.
Proof.
  intros (Hs & Hf & n1 & Ha) (Hs' & Hf' & n2 & Ha').
  repeat split; try congruence.
  exists (n1 ++ n2). rewrite Ha', Ha. symmetry. apply app_assoc.
Qed.

Lemma frame_ret {A} (a : A) : frame (ret a).
Proof. intros w. apply extends_refl. Qed.

Lemma frame_raise {A} (e : exn) : frame (@raise A e).
Proof. intros w. apply extends_refl. Qed.

Lemma frame_lift {A} (r : result A) : frame (lift r).
Proof. intros w. apply extends_refl. Qed.

Lemma frame_get_self : frame get_self.
Proof. intros w. apply extends_refl. Qed.

Lemma frame_read_array l : frame (read_array l).
Proof. intros w. apply extends_refl. Qed.

Lemma frame_warn x : frame (warn x).
Proof. intros w. repeat split. exists []. symmetry. apply app_nil_r. Qed.

Lemma frame_new_array v : frame (new_array v).
Proof. intros w. repeat split. exists [v]. reflexivity. Qed.

Lemma frame_bind {A B} (m : M A) (k : A -> M B) :
  frame m -> (forall a, frame (k a)) -> frame (bind m k).
Proof.
  intros Hm Hk w. unfold bind.
  specialize (Hm w). destruct (m w) as [w1 [a | e]]; cbn in *.
  - eapply extends_trans; [exact Hm | apply Hk].
  - exact Hm.
Qed.

Lemma frame_if {A} (b : bool) (m1 m2 : M A) :
  frame m1 -> frame m2 -> frame (if b then m1 else m2).
Proof. destruct b; auto. Qed.

Create HintDb frame.
#[local] Hint Resolve frame_ret frame_raise frame_lift frame_get_self frame_read_array
  frame_warn frame_new_array : frame.

Ltac frame_steps :=
  repeat first
    [ apply frame_bind; [| intros ?]
    | apply frame_if
    | solve [auto with frame] ].

Lemma frame_check_excitation (arange_count : R -> R -> R -> nat)
    delays : frame (check_excitation arange_count delays).
Proof. unfold check_excitation. frame_steps. Qed.

Lemma extends_stored w w' v :
  extends w w' -> stored_excitation w = Ok v -> stored_excitation w' = Ok v.
Proof.
  intros (Hs & _ & new & Ha). unfold stored_excitation. rewrite Hs, Ha.
  destruct (item (arrays w) (ex_fluence _)) as [fl |] eqn:E1; [| discriminate].
  destruct (item (arrays w) (ex_delay_pump _)) as [dp |] eqn:E2; [| discriminate].
  destruct (item (arrays w) (ex_pulse_width _)) as [pw |] eqn:E3; [| discriminate].
  rewrite (item_app_old _ new _ _ E1), (item_app_old _ new _ _ E2),
    (item_app_old _ new _ _ E3).
  trivial.
Qed.

(** C10. [check_excitation] does not change what the object stores:
    whatever the delays and the state, the fluence, delay and
    pulse-width sequences under [self._excitation] read the same after
    the call as before, and so do all attributes of the object (the
    widths are zeroed in a new array, which only the result names). *)
Theorem check_excitation_keeps_stored_excitation (arange_count : R -> R -> R -> nat)
    (delays : list R) (w : World) (v : list R * list R * list R) :
  stored_excitation w = Ok v ->
  stored_excitation (fst (check_excitation arange_count delays w)) = Ok v
  /\ self (fst (check_excitation arange_count delays w)) = self w.
Proof.
  intros H. pose proof (frame_check_excitation arange_count delays w) as E.
  split.
  - eapply extends_stored; eassumption.
  - apply E.
Qed.

(** ** Slices and minima *)

Lemma item_Some {A} (l : list A) i x : item l i = Ok x <-> nth_error l i = Some x.
Proof.
  unfold item. destruct (nth_error l i); split; intros H; try discriminate; congruence.
Qed.

Lemma item_lt {A} (l : list A) i x : item l i = Ok x -> (i < length l)%nat.
Proof. intros H. apply item_Some in H. apply nth_error_Some. congruence. Qed.

Lemma skipn_nth_cons {A} (l : list A) i x :
  nth_error l i = Some x -> skipn i l = x :: skipn (S i) l.
Proof.
  revert l. induction i as [| i IH]; intros [| y t] H; try discriminate.
  - injection H as ->. reflexivity.
  - cbn in H. cbn [skipn]. apply IH. exact H.
Qed.

Lemma slice_cons {A} (l : list A) i j x :
  nth_error l i = Some x -> (i < j)%nat -> slice i j l = x :: slice (i + 1) j l.
Proof.
  intros H Hij. unfold slice.
  rewrite (skipn_nth_cons l i x H).
  replace (j - i)%nat with (S (j - (i + 1))) by lia.
  rewrite Nat.add_1_r. reflexivity.
Qed.

Lemma slice_empty {A} (l : list A) i : slice i i l = [].
Proof. unfold slice. rewrite Nat.sub_diag. reflexivity. Qed.

Lemma slice_one {A} (l : list A) i x :
  nth_error l i = Some x -> slice i (i + 1) l = [x].
Proof.
  intros H. rewrite (slice_cons l i (i + 1) x H) by lia.
  rewrite slice_empty. reflexivity.
Qed.

Lemma fold_left_Rmin_le (l : list R) (x : R) : fold_left Rmin l x <= x.
Proof.
  revert x. induction l as [| y t IH]; intros x; cbn.
  - lra.
  - eapply Rle_trans; [apply IH | apply Rmin_l].
Qed.

Lemma fold_left_Rmin_spec (l : list R) (x : R) :
  In (fold_left Rmin l x) (x :: l)
  /\ forall y, In y (x :: l) -> fold_left Rmin l x <= y.
Proof.
  revert x. induction l as [| z t IH]; intros x; cbn [fold_left].
  - split; [left; reflexivity |]. intros y [<- | []]. lra.
  - destruct (IH (Rmin x z)) as [Hin Hle]. split.
    + destruct Hin as [E | Hin].
      * rewrite <- E. unfold Rmin. destruct (Rle_dec x z); [left | right; left]; reflexivity.
      * right; right; exact Hin.
    + intros y [<- | [<- | Hy]].
      * eapply Rle_trans; [apply Hle; left; reflexivity | apply Rmin_l].
      * eapply Rle_trans; [apply Hle; left; reflexivity | apply Rmin_r].
      * apply Hle. right; exact Hy.
Qed.

(** [np.min] returns an element of the array that is below all others. *)
Lemma np_min_spec (l : list R) (m : R) :
  np_min l = Ok m -> In m l /\ forall y, In y l -> m <= y.
Proof.
  destruct l as [| x t]; cbn; intros H; [discriminate |].
  injection H as <-. apply fold_left_Rmin_spec.
Qed.

(** ** [np.arange] *)

Arguments np_arange : simpl never.

Lemma np_arange_length (count : R -> R -> R -> nat) (a b s : R) :
  length (np_arange count a b s) = count a b s.
Proof. unfold np_arange. rewrite length_map, length_seq. reflexivity. Qed.

Lemma np_arange_nth (count : R -> R -> R -> nat) (a b s : R) (j : nat) :
  (j < length (np_arange count a b s))%nat ->
  nth_error (np_arange count a b s) j = Some (a + INR j * s).
Proof.
  intros Hj. rewrite np_arange_length in Hj. unfold np_arange.
  rewrite nth_error_map, nth_error_seq.
  apply Nat.ltb_lt in Hj. rewrite Hj. reflexivity.
Qed.

Lemma np_arange_In (count : R -> R -> R -> nat) (a b s x : R) :
  In x (np_arange count a b s) ->
  exists j, (j < length (np_arange count a b s))%nat /\ x = a + INR j * s.
Proof.
  intros H. rewrite np_arange_length. unfold np_arange in H.
  apply in_map_iff in H. destruct H as (j & <- & Hj).
  apply in_seq in Hj. exists j. split; [lia | reflexivity].
Qed.

(** With the exact count and a positive step the points stay below
    [stop], and the next point of the progression would not. *)
Lemma np_arange_bounds (a b s x : R) :
  0 < s -> In x (np_arange ceil_count a b s) -> a <= x < b.
Proof.
  intros Hs H. apply np_arange_In in H. destruct H as (j & Hj & ->).
  rewrite np_arange_length in Hj. unfold ceil_count in Hj.
  pose proof (Zceil_bound ((b - a) / s)) as [Hlo _].
  assert (Hz : (Z.of_nat j <= Zceil ((b - a) / s) - 1)%Z) by lia.
  apply IZR_le in Hz. rewrite minus_IZR, <- INR_IZR_INZ in Hz.
  pose proof (pos_INR j) as Hj0.
  assert (Hlt : INR j < (b - a) / s) by lra.
  apply (Rmult_lt_compat_r s) in Hlt; [| exact Hs].
  unfold Rdiv in Hlt. rewrite Rmult_assoc, Rinv_l, Rmult_1_r in Hlt by lra.
  split; [| lra].
  assert (0 <= INR j * s) by (apply Rmult_le_pos; lra). lra.
Qed.

Lemma np_arange_stop (a b s : R) :
  0 < s -> a <= b -> b <= a + INR (length (np_arange ceil_count a b s)) * s.
Proof.
  intros Hs Hab. rewrite np_arange_length. unfold ceil_count.
  pose proof (Zceil_bound ((b - a) / s)) as [Hlo Hhi].
  assert (H0 : 0 <= (b - a) / s).
  { unfold Rdiv. apply Rmult_le_pos; [lra |]. left. apply Rinv_0_lt_compat. exact Hs. }
  assert (Hz : (0 <= Zceil ((b - a) / s))%Z).
  { apply le_IZR. lra. }
  rewrite INR_IZR_INZ, Z2Nat.id by exact Hz.
  apply (Rmult_le_compat_r s) in Hhi; [| lra].
  unfold Rdiv in Hhi. rewrite Rmult_assoc, Rinv_l, Rmult_1_r in Hhi by lra.
  lra.
Qed.

Lemma np_arange_first (a b s : R) :
  0 < s -> a < b ->
  exists rest, np_arange ceil_count a b s = (a + INR 0 * s) :: rest.
Proof.
  intros Hs Hab.
  assert (Hn : (0 < length (np_arange ceil_count a b s))%nat).
  { rewrite np_arange_length. unfold ceil_count.
    pose proof (Zceil_bound ((b - a) / s)) as [_ Hhi].
    assert (H0 : 0 < (b - a) / s).
    { unfold Rdiv. apply Rmult_lt_0_compat; [lra |]. apply Rinv_0_lt_compat. exact Hs. }
    assert (Hz : (0 < Zceil ((b - a) / s))%Z) by (apply lt_IZR; lra).
    lia. }
  pose proof (np_arange_nth ceil_count a b s 0 Hn) as H0.
  destruct (np_arange ceil_count a b s) as [| x rest]; [cbn in Hn; lia |].
  cbn in H0. injection H0 as ->. exists rest. reflexivity.
Qed.

Lemma np_min_arange (a b s : R) :
  0 < s -> a < b -> np_min (np_arange ceil_count a b s) = Ok a.
Proof.
  intros Hs Hab.
  destruct (np_arange_first a b s Hs Hab) as (rest & E).
  destruct (np_min (np_arange ceil_count a b s)) as [m | e] eqn:Em.
  - apply np_min_spec in Em. destruct Em as [Hin Hle].
    f_equal. apply Rle_antisym.
    + replace a with (a + INR 0 * s) by (cbn; lra).
      apply Hle. rewrite E. left. reflexivity.
    + apply (np_arange_bounds a b s m Hs Hin).
  - rewrite E in Em. discriminate Em.
Qed.

Lemma item_first_arange (a b s : R) :
  0 < s -> a < b -> item (np_arange ceil_count a b s) 0 = Ok a.
Proof.
  intros Hs Hab. destruct (np_arange_first a b s Hs Hab) as (rest & E).
  rewrite E. cbn. f_equal. lra.
Qed.

Lemma item_last_arange (a b s : R) (n : Z) :
  0 < s -> a < b -> Zceil ((b - a) / s) = n ->
  item_last (np_arange ceil_count a b s) = Ok (a + IZR (n - 1) * s).
Proof.
  intros Hs Hab Hn.
  destruct (np_arange_first a b s Hs Hab) as (rest & E).
  unfold item_last. rewrite E. rewrite <- E.
  assert (Hl : (0 < length (np_arange ceil_count a b s))%nat) by (rewrite E; cbn; lia).
  unfold item. rewrite np_arange_nth by lia.
  rewrite np_arange_length in *. unfold ceil_count in *. rewrite Hn in *.
  rewrite INR_IZR_INZ. repeat f_equal. lia.
Qed.

(** ** The merge loop of [check_excitation] *)

Section Merge.

Variables delay_pump pulse_width fluence : list R.

Lemma scan_overlap_spec (n k : nat) (temp : list (R * R * R)) k' temp' :
  n = (length delay_pump - k)%nat -> (k < length delay_pump)%nat ->
  scan_overlap delay_pump pulse_width fluence n k temp = Ok (k', temp') ->
  (k <= k' < length delay_pump)%nat
  /\ (k' < length pulse_width)%nat /\ (k' < length fluence)%nat
  /\ map (fun t => fst (fst t)) temp'
     = map (fun t => fst (fst t)) temp ++ slice k (k' + 1) delay_pump
  /\ map (fun t => snd (fst t)) temp'
     = map (fun t => snd (fst t)) temp ++ slice k (k' + 1) pulse_width
  /\ map (fun t => snd t) temp' = map (fun t => snd t) temp ++ slice k (k' + 1) fluence.
Proof.
  revert k temp. induction n as [| n IH]; intros k temp Hn Hk; [lia |].
  cbn [scan_overlap]. unfold rbind.
  destruct (item delay_pump k) as [dk |] eqn:Ed; [| discriminate].
  destruct (item pulse_width k) as [wk |] eqn:Ew; [| discriminate].
  destruct (item fluence k) as [fk |] eqn:Ef; [| discriminate].
  pose proof (item_lt _ _ _ Ew) as Lw. pose proof (item_lt _ _ _ Ef) as Lf.
  apply item_Some in Ed, Ew, Ef.
  assert (Stop : forall r, r = Ok (k, temp ++ [(dk, wk, fk)]) ->
                 r = Ok (k', temp') ->
    (k <= k' < length delay_pump)%nat
    /\ (k' < length pulse_width)%nat /\ (k' < length fluence)%nat
    /\ map (fun t => fst (fst t)) temp'
       = map (fun t => fst (fst t)) temp ++ slice k (k' + 1) delay_pump
    /\ map (fun t => snd (fst t)) temp'
       = map (fun t => snd (fst t)) temp ++ slice k (k' + 1) pulse_width
    /\ map (fun t => snd t) temp' = map (fun t => snd t) temp ++ slice k (k' + 1) fluence).
  { intros r -> H. injection H as <- <-.
    rewrite !map_app, (slice_one _ _ _ Ed), (slice_one _ _ _ Ew), (slice_one _ _ _ Ef).
    repeat split; auto; lia. }
  destruct (k + 1 <? length delay_pump)%nat eqn:Hlt; [| apply Stop; reflexivity].
  apply Nat.ltb_lt in Hlt.
  destruct (item delay_pump (k + 1)) as [dk1 |]; [| discriminate].
  destruct (item pulse_width (k + 1)) as [wk1 |]; [| discriminate].
  destruct (Rgeb _ _); [| apply Stop; reflexivity].
  destruct (Reqb wk1 0); [discriminate |].
  intros H. apply IH in H; [| lia | lia].
  destruct H as (Hk' & Hw' & Hf' & H1 & H2 & H3).
  rewrite !map_app in H1, H2, H3. cbn [map fst snd] in H1, H2, H3.
  rewrite <- !app_assoc in H1, H2, H3. cbn [app] in H1, H2, H3.
  rewrite (slice_cons _ _ (k' + 1) _ Ed), (slice_cons _ _ (k' + 1) _ Ew),
    (slice_cons _ _ (k' + 1) _ Ef) by lia.
  repeat split; auto; lia.
Qed.

Lemma scan_overlap_fuel (n k : nat) (temp : list (R * R * R)) :
  scan_overlap delay_pump pulse_width fluence n k temp <> Raise FuelExhausted.
Proof.
  revert k temp. induction n as [| n IH]; intros k temp; cbn [scan_overlap]; [discriminate |].
  unfold rbind.
  destruct (item delay_pump k) as [dk | e] eqn:Ed;
    [| unfold item in Ed; destruct (nth_error _ _); congruence].
  destruct (item pulse_width k) as [wk | e] eqn:Ew;
    [| unfold item in Ew; destruct (nth_error _ _); congruence].
  destruct (item fluence k) as [fk | e] eqn:Ef;
    [| unfold item in Ef; destruct (nth_error _ _); congruence].
  destruct (k + 1 <? length delay_pump)%nat; [| discriminate].
  destruct (item delay_pump (k + 1)) as [dk1 | e] eqn:Ed1;
    [| unfold item in Ed1; destruct (nth_error _ _); congruence].
  destruct (item pulse_width (k + 1)) as [wk1 | e] eqn:Ew1;
    [| unfold item in Ew1; destruct (nth_error _ _); congruence].
  destruct (Rgeb _ _); [| discriminate].
  destruct (Reqb wk1 0); [discriminate | apply IH].
Qed.


Lemma group_intervall_fuel (arange_count : R -> R -> R -> nat) (i k : nat) :
  group_intervall arange_count delay_pump pulse_width i k <> Raise FuelExhausted.
Proof.
  unfold group_intervall, rbind, np_min, item.
  destruct (slice i (k + 1) pulse_width); [discriminate |].
  destruct (Reqb _ _);
    destruct (nth_error delay_pump i); try discriminate;
    destruct (nth_error pulse_width i); try discriminate;
    destruct (nth_error delay_pump k); try discriminate;
    destruct (nth_error pulse_width k); discriminate.
Qed.


(** The bound [len(delay_pump)] on the outer loop is never met. *)
Lemma traverse_excitation_fuel (arange_count : R -> R -> R -> nat)
    (fuel i : nat) (acc : list Interval) :
  (length delay_pump - i <= fuel)%nat ->
  traverse_excitation arange_count fuel delay_pump pulse_width fluence i acc <> Raise FuelExhausted.
Proof.
  revert i acc. induction fuel as [| fuel IH]; intros i acc Hf; cbn [traverse_excitation].
  - destruct (i <? length delay_pump)%nat eqn:Hi; [| discriminate].
    apply Nat.ltb_lt in Hi. lia.
  - destruct (i <? length delay_pump)%nat eqn:Hi; [| discriminate].
    apply Nat.ltb_lt in Hi. unfold rbind.
    destruct (scan_overlap _ _ _ _ _ _) as [[k temp] | e] eqn:Es.
    + apply scan_overlap_spec in Es; [| reflexivity | exact Hi].
      destruct (group_intervall _ _ _ _ _) as [grid | e] eqn:Eg.
      * apply IH. lia.
      * intros E. injection E as ->. exact (group_intervall_fuel _ _ _ Eg).
    + intros E. injection E as ->. exact (scan_overlap_fuel _ _ _ Es).
Qed.

End Merge.






(** ** What the setter stores and what the merge accepts *)

(** C5. What the setter stores for a dictionary with all three keys:
    [delay_pump] is stored sorted, while [fluence] and [pulse_width]
    are stored in the order given.  Only the delays are reordered, so
    after unsorted input the i-th fluence and width no longer sit
    next to the delay they were given with. *)
Theorem set_excitation_dict_stored (fl dp pw : list R) (w w' : World) :
  set_excitation (Dict (Some fl) (Some dp) (Some pw)) w = (w', Ok tt) ->
  stored_excitation w' = Ok (fl, np_sort dp, pw).
Proof.
  unfold set_excitation, try_except. cbn.
  rewrite !length_app. cbn.
  set (a := arrays w).
  assert (E1 : item (((a ++ [fl]) ++ [dp]) ++ [pw]) (length a) = Ok fl).
  { apply item_app_old, item_app_old, item_app_new. }
  assert (E2 : item (((a ++ [fl]) ++ [dp]) ++ [pw]) (length a + 1) = Ok dp).
  { apply item_app_old. replace (length a + 1)%nat with (length (a ++ [fl])).
    - apply item_app_new.
    - rewrite length_app. reflexivity. }
  assert (E3 : item (((a ++ [fl]) ++ [dp]) ++ [pw]) (length a + 1 + 1) = Ok pw).
  { replace (length a + 1 + 1)%nat with (length ((a ++ [fl]) ++ [dp])).
    - apply item_app_new.
    - rewrite !length_app. reflexivity. }
  rewrite E1, E2, E3.
  destruct (negb _); [intros H; discriminate H |].
  destruct (negb _); [intros H; discriminate H |].
  cbn. intros H. injection H as <-.
  unfold stored_excitation. cbn.
  rewrite (item_app_old _ [np_sort dp] _ _ E1).
  rewrite (item_app_old _ [np_sort dp] _ _ E3).
  cbn. rewrite !length_app. cbn.
  replace (length a + 1 + 1 + 1)%nat with (length (((a ++ [fl]) ++ [dp]) ++ [pw])).
  - rewrite item_app_new. reflexivity.
  - rewrite !length_app. reflexivity.
Qed.

(** C6. A first pulse of width 0 at delay 0 and a second pulse of
    width 1 at delay 1 overlap ([0 + 1.5*0 >= 1 - 1.5*1]).  No error
    is raised: only the width of the pulse that joins is tested.  The
    two pulses end up in one group, whose time grid is the single
    point 0. *)
Theorem check_excitation_zero_width_first (arange_count : R -> R -> R -> nat) :
  check_excitation arange_count [-5; 5] zero_width_first
  = (zero_width_first,
     Ok ([quiet [-5]; mkInterval [0] [0; 1] [0; 1] [10; 10]; quiet [5]],
         0%nat, 1%nat, 2%nat)).
Proof.
  unfold check_excitation, zero_width_first. run.
  unfold group_intervall. run.
  unfold delays_before, delays_after. run.
  reflexivity.
Qed.

(** Within a group, every pulse that was merged into it (every pulse
    but the first) has a width other than zero. *)
Lemma scan_overlap_joined_widths (dp pw fl : list R) (n k : nat)
    (temp : list (R * R * R)) k' temp' :
  scan_overlap dp pw fl n k temp = Ok (k', temp') ->
  forall j wj, (k < j <= k')%nat -> nth_error pw j = Some wj -> wj <> 0.
Proof.
  revert k temp. induction n as [| n IH]; intros k temp; cbn [scan_overlap].
  - intros H. injection H as <- <-. intros; lia.
  - unfold rbind.
    destruct (item dp k); [| discriminate].
    destruct (item pw k); [| discriminate].
    destruct (item fl k); [| discriminate].
    destruct (k + 1 <? length dp)%nat; [| intros H; injection H as <- <-; intros; lia].
    destruct (item dp (k + 1)); [| discriminate].
    destruct (item pw (k + 1)) as [wk1 |] eqn:Ew; [| discriminate].
    destruct (Rgeb _ _); [| intros H; injection H as <- <-; intros; lia].
    unfold Reqb. destruct (Req_dec_T wk1 0) as [| Hne]; [discriminate |].
    intros H j wj Hj Hw.
    destruct (Nat.eq_dec j (k + 1)) as [-> | Hjk].
    + apply item_Some in Ew. congruence.
    + apply (IH _ _ H j wj); [lia | exact Hw].
Qed.

(** ** The loop bound is an artefact of the embedding only *)

Lemma item_not_fuel {A} (l : list A) (i : nat) : item l i <> Raise FuelExhausted.
Proof. unfold item. destruct (nth_error l i); discriminate. Qed.

Lemma item_last_not_fuel {A} (l : list A) : item_last l <> Raise FuelExhausted.
Proof. unfold item_last. destruct l; [discriminate | apply item_not_fuel]. Qed.

Lemma add_quiet_intervals_not_fuel (delays : list R) (rest res : list Interval) :
  add_quiet_intervals delays rest res <> Raise FuelExhausted.
Proof.
  revert res. induction rest as [| e rest IH]; intros res; cbn [add_quiet_intervals];
    [discriminate |].
  unfold rbind. destruct rest as [| next rest'].
  - destruct (item_last (sub_delays e)) as [t | x] eqn:E.
    + destruct (0 <? _)%nat; apply IH.
    + intros H. injection H as ->. exact (item_last_not_fuel _ E).
  - destruct (item_last (sub_delays e)) as [t | x] eqn:E.
    + destruct (item (sub_delays next) 0) as [t' | x] eqn:E'.
      * destruct (0 <? _)%nat; apply IH.
      * intros H. injection H as ->. exact (item_not_fuel _ _ E').
    + intros H. injection H as ->. exact (item_last_not_fuel _ E).
Qed.

(** [check_excitation] never stops for want of fuel: whenever it does
    not return, it is a Python exception that ends it. *)
Lemma check_excitation_not_fuel (arange_count : R -> R -> R -> nat)
    (delays : list R) (w : World) :
  snd (check_excitation arange_count delays w) <> Raise FuelExhausted.
Proof.
  intros H. unfold check_excitation in H.
  unfold bind, get_self, read_array, lift, ret, warn, new_array in H. cbn in H.
  repeat (match type of H with
          | context [match ?x with _ => _ end] => destruct x eqn:?
          end; cbn in H; try discriminate H).
  all: injection H as ->.
  all: repeat match goal with
       | E : (if ?b then _ else _) _ = (_, Raise FuelExhausted) |- _ =>
           destruct b; cbn in E; try discriminate E
       | E : match ?x with _ => _ end = (_, Raise FuelExhausted) |- _ =>
           destruct x eqn:?; cbn in E; try discriminate E
       | E : (_, _) = (_, Raise FuelExhausted) |- _ => injection E as ? ?; subst
       | E : item _ _ = Raise FuelExhausted |- _ => elim (item_not_fuel _ _ E)
       | E : np_min ?l = Raise FuelExhausted |- _ =>
           destruct l; cbn in E; discriminate E
       | E : add_quiet_intervals _ _ _ = Raise FuelExhausted |- _ =>
           elim (add_quiet_intervals_not_fuel _ _ _ E)
       | E : traverse_excitation _ _ _ _ _ _ _ = Raise FuelExhausted |- _ =>
           exfalso; eapply traverse_excitation_fuel; [| exact E]; lia
       end.
Qed.

(** ** The absorption profile, layer by layer *)

Section Absorption.

Variable finderb : R -> list R -> nat.
Variable stack : Sample.

Lemma item_interface (i : nat) :
  (i < length (interfaces stack))%nat -> item (interfaces stack) i = Ok (interface stack i).
Proof.
  intros H. unfold item, interface.
  rewrite (nth_error_nth' _ 0 H). reflexivity.
Qed.

Hypothesis interfaces_ascending : StronglySorted Rle (interfaces stack).

Lemma StronglySorted_nth (l : list R) :
  StronglySorted Rle l ->
  forall a b, (a <= b < length l)%nat -> nth a l 0 <= nth b l 0.
Proof.
  induction 1 as [| x l Hs IH Hall]; intros a b Hab; [cbn in Hab; lia |].
  destruct a as [| a], b as [| b]; cbn in *; try lia.
  - lra.
  - rewrite Forall_forall in Hall. apply Hall, nth_In. lia.
  - apply IH. lia.
Qed.

Lemma interface_le (a b : nat) :
  (a <= b < length (interfaces stack))%nat -> interface stack a <= interface stack b.
Proof. apply StronglySorted_nth, interfaces_ascending. Qed.

Lemma in_layer_unique (i i' : nat) (z : R) :
  in_layer stack i z -> in_layer stack i' z -> i = i'.
Proof.
  intros (Hi & Hlo & Hup) (Hi' & Hlo' & Hup').
  destruct (Nat.lt_trichotomy i i') as [Hlt | [-> | Hgt]]; [| reflexivity |]; exfalso.
  - pose proof (interface_le (i + 1) i' ltac:(lia)). destruct Hup as [? | [? ?]]; [lra | lia].
  - pose proof (interface_le (i' + 1) i ltac:(lia)). destruct Hup' as [? | [? ?]]; [lra | lia].
Qed.

Lemma layer_points_filter (n i : nat) (mesh : list R) (x0 x1 : R) :
  layer_points n i mesh x0 x1 = filter (layer_mask n i x0 x1) mesh.
Proof.
  unfold layer_points, layer_mask.
  destruct (n - 2 <=? i)%nat; reflexivity.
Qed.

Lemma layer_mask_in_layer (i : nat) (z : R) :
  (i + 1 < length (interfaces stack))%nat ->
  layer_mask (length (interfaces stack)) i (interface stack i) (interface stack (i + 1)) z = true
  <-> in_layer stack i z.
Proof.
  intros Hi. unfold layer_mask, in_layer, Rgeb, Rleb, Rltb.
  destruct (length (interfaces stack) - 2 <=? i)%nat eqn:Hlast;
    [apply Nat.leb_le in Hlast | apply Nat.leb_gt in Hlast];
    destruct (Rle_dec (interface stack i) z); cbn;
    try destruct (Rle_dec z (interface stack (i + 1)));
    try destruct (Rlt_dec z (interface stack (i + 1))); cbn;
    intuition (try discriminate; try lra; try lia).
Qed.

Lemma filter_none {A} (p : A -> bool) (l : list A) :
  (forall x, In x l -> p x = false) -> filter p l = [].
Proof.
  induction l as [| x t IH]; intros H; [reflexivity |].
  cbn. rewrite (H x) by (left; reflexivity).
  apply IH. intros y Hy. apply H. right; exact Hy.
Qed.

Lemma filter_all {A} (p : A -> bool) (l : list A) :
  (forall x, In x l -> p x = true) -> filter p l = l.
Proof.
  induction l as [| x t IH]; intros H; [reflexivity |].
  cbn. rewrite (H x) by (left; reflexivity).
  f_equal. apply IH. intros y Hy. apply H. right; exact Hy.
Qed.

(** In an ascending list a mask that is closed downwards selects a
    prefix. *)
Lemma filter_ascending_prefix (p : R -> bool) (l : list R) :
  StronglySorted Rle l ->
  (forall a b, In a l -> In b l -> a <= b -> p b = true -> p a = true) ->
  l = filter p l ++ filter (fun z => negb (p z)) l.
Proof.
  induction 1 as [| x t Hs IH Hall]; intros Hp; [reflexivity |].
  rewrite Forall_forall in Hall. cbn [filter].
  destruct (p x) eqn:Hx; cbn [negb app].
  - f_equal. apply IH. intros a b Ha Hb. apply Hp; right; assumption.
  - assert (Hnone : forall y, In y t -> p y = false).
    { intros y Hy. destruct (p y) eqn:Hy'; [| reflexivity].
      rewrite <- Hx. symmetry.
      apply (Hp x y); [left; reflexivity | right; exact Hy | apply Hall; exact Hy | exact Hy']. }
    rewrite (filter_none p t Hnone). cbn [app]. f_equal.
    symmetry. apply filter_all. intros y Hy. rewrite (Hnone y Hy). reflexivity.
Qed.

Lemma StronglySorted_filter (p : R -> bool) (l : list R) :
  StronglySorted Rle l -> StronglySorted Rle (filter p l).
Proof.
  induction 1 as [| x t Hs IH Hall]; cbn; [constructor |].
  destruct (p x); [| exact IH].
  constructor; [exact IH |].
  rewrite Forall_forall in *. intros y Hy. apply Hall.
  apply filter_In in Hy. tauto.
Qed.

Lemma set_slice_app (pre mid post v : list R) :
  length v = length mid ->
  set_slice (pre ++ mid ++ post) (length pre) v = Ok (pre ++ v ++ post).
Proof.
  intros Hv. unfold set_slice. rewrite !length_app.
  rewrite Nat.min_l by lia. rewrite Nat.min_l by lia.
  replace (length pre + length v - length pre)%nat with (length v) by lia.
  rewrite Nat.eqb_refl.
  rewrite firstn_app, firstn_all, Nat.sub_diag, firstn_O, app_nil_r.
  rewrite skipn_app, skipn_all2 by lia. cbn [app].
  replace (length pre + length v - length pre)%nat with (length mid) by lia.
  rewrite skipn_app, skipn_all, Nat.sub_diag, skipn_O. reflexivity.
Qed.

Lemma np_zeros_app (a b : nat) : np_zeros (a + b) = np_zeros a ++ np_zeros b.
Proof. unfold np_zeros. apply repeat_app. Qed.

Lemma np_zeros_map {A} (l : list A) : np_zeros (length l) = map (fun _ => 0) l.
Proof. induction l as [| x t IH]; cbn; [reflexivity |]. f_equal. exact IH. Qed.

Hypothesis depths_nonzero : forall index, opt_pen_depth stack index <> Finite 0.

(** The loop from layer [i] on, with [done] the mesh points of the
    layers before and [todo] those of the layers to come. *)
Lemma absorption_layers_spec (cnt i : nat) (done todo vals : list R) (I0_is_int : bool) :
  (i + cnt = length (interfaces stack) - 1)%nat ->
  StronglySorted Rle todo ->
  (forall z, In z todo -> exists i', (i <= i')%nat /\ in_layer stack i' z) ->
  (forall z, In z done -> forall i', (i <= i')%nat -> ~ in_layer stack i' z) ->
  length vals = length done ->
  exists vals',
    absorption_layers finderb stack (done ++ todo) (seq i cnt)
      (vals ++ np_zeros (length todo)) (intensity finderb stack i) (length done)
      I0_is_int
    = Ok (vals ++ vals')
    /\ length vals' = length todo
    /\ forall j z i', nth_error todo j = Some z -> in_layer stack i' z ->
                      nth_error vals' j = Some (dalpha_dz_at finderb stack i' z).
Proof.
  revert i done todo vals I0_is_int.
  induction cnt as [| cnt IH]; intros i done todo vals I0_is_int Hcnt Hsort Htodo Hdone Hlen.
  - exists (np_zeros (length todo)). cbn. split; [reflexivity |].
    split; [apply repeat_length |].
    intros j z i' Hj _. apply nth_error_In in Hj.
    destruct (Htodo z Hj) as (i2 & Hi2 & Hin & _). lia.
  - assert (Hi : (i + 1 < length (interfaces stack))%nat) by lia.
    cbn [seq absorption_layers]. unfold rbind.
    rewrite (item_interface i) by lia. rewrite (item_interface (i + 1)) by lia.
    rewrite layer_points_filter, filter_app.
    set (p := layer_mask (length (interfaces stack)) i (interface stack i) (interface stack (i + 1))).
    assert (Hp : forall z, p z = true <-> in_layer stack i z).
    { intros z. apply layer_mask_in_layer. exact Hi. }
    rewrite (filter_none p done).
    2:{ intros z Hz. destruct (p z) eqn:E; [| reflexivity].
        apply Hp in E. elim (Hdone z Hz i (le_n _) E). }
    cbn [app].
    assert (Hsplit : todo = filter p todo ++ filter (fun z => negb (p z)) todo).
    { apply filter_ascending_prefix; [exact Hsort |].
      intros a b Ha Hb Hab Hpb. apply Hp. apply Hp in Hpb.
      destruct (Htodo a Ha) as (ia & Hia & Hina).
      destruct Hpb as (_ & _ & Hup). split; [exact Hi |]. split.
      - eapply Rle_trans; [apply (interface_le i ia) | apply Hina].
        destruct Hina as (? & _). lia.
      - destruct Hup as [Hup | [Hl Hup]]; [left; lra | right; split; [exact Hl | lra]]. }
    set (cur := filter p todo) in *.
    set (rest := filter (fun z => negb (p z)) todo) in *.
    assert (Hcur : forall z, In z cur -> in_layer stack i z).
    { intros z Hz. apply filter_In in Hz. apply Hp. tauto. }
    (* both kinds of layer write [map g cur] at the positions of [cur] *)
    assert (Step : forall g is_int,
      (forall z, in_layer stack i z -> g z = dalpha_dz_at finderb stack i z) ->
      exists vals',
        absorption_layers finderb stack (done ++ todo) (seq (Datatypes.S i) cnt)
          (vals ++ map g cur ++ np_zeros (length rest)) (intensity finderb stack (i + 1))
          (length done + length cur) is_int
        = Ok (vals ++ vals')
        /\ length vals' = length todo
        /\ forall j z i', nth_error todo j = Some z -> in_layer stack i' z ->
                          nth_error vals' j = Some (dalpha_dz_at finderb stack i' z)).
    { intros g is_int Hg.
      destruct (IH (i + 1)%nat (done ++ cur) rest (vals ++ map g cur) is_int)
        as (vals2 & E & Hl2 & Hv2).
      - lia.
      - apply StronglySorted_filter. exact Hsort.
      - intros z Hz. apply filter_In in Hz. destruct Hz as [Hz Hnp].
        destruct (Htodo z Hz) as (i2 & Hi2 & Hin2).
        exists i2. split; [| exact Hin2].
        destruct (Nat.eq_dec i2 i) as [-> | Hne]; [| lia].
        apply Hp in Hin2. rewrite Hin2 in Hnp. discriminate Hnp.
      - intros z Hz i2 Hi2 Hin2. apply in_app_or in Hz. destruct Hz as [Hz | Hz].
        + apply (Hdone z Hz i2); [lia | exact Hin2].
        + pose proof (in_layer_unique _ _ _ (Hcur z Hz) Hin2). lia.
      - rewrite !length_app, length_map. lia.
      - exists (map g cur ++ vals2). split; [| split].
        { replace (done ++ todo) with ((done ++ cur) ++ rest)
            by (rewrite <- app_assoc; f_equal; symmetry; exact Hsplit).
          replace (Datatypes.S i) with (i + 1)%nat by lia.
          replace (length done + length cur)%nat with (length (done ++ cur))
            by (rewrite length_app; reflexivity).
          rewrite (app_assoc vals). rewrite E.
          rewrite <- app_assoc. reflexivity. }
        { replace (length todo) with (length (cur ++ rest)) by (f_equal; symmetry; exact Hsplit).
          rewrite !length_app, length_map. lia. }
        intros j z i2 Hj Hin2. rewrite Hsplit in Hj.
        destruct (Nat.lt_ge_cases j (length cur)) as [Hjc | Hjc].
        + rewrite nth_error_app1 in Hj by exact Hjc.
          rewrite nth_error_app1 by (rewrite length_map; exact Hjc).
          rewrite nth_error_map, Hj. cbn.
          assert (Hz : in_layer stack i z) by (apply Hcur; eapply nth_error_In; exact Hj).
          rewrite (in_layer_unique _ _ _ Hin2 Hz). f_equal. apply Hg. exact Hz.
        + rewrite nth_error_app2 in Hj by exact Hjc.
          rewrite nth_error_app2 by (rewrite length_map; exact Hjc).
          rewrite length_map. apply (Hv2 _ _ _ Hj Hin2). }
    assert (Hzeros : np_zeros (length todo) = np_zeros (length cur) ++ np_zeros (length rest)).
    { rewrite Hsplit at 1. rewrite length_app. apply np_zeros_app. }
    fold (layer_depth finderb stack i).
    destruct (layer_depth finderb stack i) as [zeta |] eqn:Hd.
    + rewrite Reqb_false by (intros ->; exact (depths_nonzero _ Hd)).
      rewrite <- Hlen, Hzeros.
      rewrite set_slice_app
        by (rewrite length_map; symmetry; apply repeat_length).
      rewrite Hlen.
      assert (E : intensity finderb stack i * exp (- (interface stack (i + 1) - interface stack i) / zeta)
                  = intensity finderb stack (i + 1)).
      { rewrite (Nat.add_1_r i) at 2. cbn [intensity]. rewrite Hd. reflexivity. }
      rewrite E. apply Step.
      intros z _. unfold dalpha_dz_at. rewrite Hd. reflexivity.
    + rewrite Hzeros, np_zeros_map.
      assert (E : intensity finderb stack i = intensity finderb stack (i + 1)).
      { rewrite (Nat.add_1_r i). cbn [intensity]. rewrite Hd. reflexivity. }
      rewrite E. apply Step.
      intros z _. unfold dalpha_dz_at. rewrite Hd. reflexivity.
Qed.

End Absorption.

(** C8, as amended. For a stack with ascending interfaces:
    - when no layer has the penetration depth 0, the mesh is ascending
      and every mesh point lies in a layer (as the default mesh of
      layer midpoints does), the call returns a profile with one value
      per mesh point, and the value at a mesh point [z] of layer [i]
      is [I0/depth * exp(-(z - interface_i)/depth)] for a finite
      penetration depth and 0 for an infinite one, where [I0] is 1 at
      the first layer and is multiplied by
      [exp(-(interface_(i+1) - interface_i)/depth)] across each
      layer of finite depth and left as it is across the others;
    - a single layer of infinite depth gives the all-zero profile,
      whatever the mesh;
    - a single layer from 0 to [d] of finite depth [zeta] other than 0
      gives [exp(-z/zeta)/zeta] at each point [z] of a mesh within
      [0, d];
    - a first absorbing layer of depth 0 makes the call raise
      [ZeroDivisionError], whatever the mesh: for a single layer, and
      for any stack whose first layer it is. *)
Theorem absorption_profile_by_layer
    (finderb : R -> list R -> nat) (S : Sample) (distances : option (list R)) :
  (StronglySorted Rle (interfaces S) ->
   (forall index, opt_pen_depth S index <> Finite 0) ->
   StronglySorted Rle (mesh_of S distances) ->
   (forall z, In z (mesh_of S distances) -> exists i, in_layer S i z) ->
   exists profile,
     get_absorption_profile finderb S distances = Ok profile
     /\ length profile = length (mesh_of S distances)
     /\ profile_by_layer finderb S (mesh_of S distances) profile)
  /\ (forall x0 x1,
        interfaces S = [x0; x1] -> layer_depth finderb S 0 = Infinite ->
        get_absorption_profile finderb S distances
        = Ok (np_zeros (length (mesh_of S distances))))
  /\ (forall d zeta,
        interfaces S = [0; d] -> layer_depth finderb S 0 = Finite zeta -> zeta <> 0 ->
        (forall z, In z (mesh_of S distances) -> 0 <= z <= d) ->
        get_absorption_profile finderb S distances
        = Ok (map (fun z => exp (- z / zeta) / zeta) (mesh_of S distances)))
  /\ (forall x0 x1 rest,
        interfaces S = x0 :: x1 :: rest -> layer_depth finderb S 0 = Finite 0 ->
        get_absorption_profile finderb S distances = Raise ZeroDivisionError).
Proof.
  unfold get_absorption_profile. fold (mesh_of S distances).
  set (mesh := mesh_of S distances).
  split; [| split; [| split]].
  - intros Hifs Hdepth Hmesh Hin.
    destruct (absorption_layers_spec finderb S Hifs Hdepth (length (interfaces S) - 1) 0 []
                mesh [] true)
      as (vals & E & Hl & Hv).
    + reflexivity.
    + exact Hmesh.
    + intros z Hz. destruct (Hin z Hz) as (i & Hi). exists i. split; [lia | exact Hi].
    + intros z [].
    + reflexivity.
    + exists vals. cbn in E. split; [exact E |]. split; [exact Hl |]. exact Hv.
  - intros x0 x1 Hi Hd. unfold layer_depth, interface in Hd. rewrite Hi in Hd.
    cbn in Hd. rewrite Hi. cbn. rewrite !Hi. cbn. rewrite Hd. reflexivity.
  - intros d zeta Hi Hd Hzeta Hin. unfold layer_depth, interface in Hd. rewrite Hi in Hd.
    cbn in Hd. rewrite Hi. cbn. rewrite !Hi. cbn. rewrite Hd.
    rewrite Reqb_false by exact Hzeta.
    rewrite filter_all.
    2:{ intros z Hz. specialize (Hin z Hz). unfold Rgeb.
        rewrite !Rleb_true by lra. reflexivity. }
    pose proof (set_slice_app [] (np_zeros (length mesh)) []
                  (map (fun z => 1 / zeta * exp (- (z - 0) / zeta)) mesh)) as E.
    cbn [app length] in E. rewrite app_nil_r in E. rewrite app_nil_r in E.
    rewrite E by (rewrite length_map; symmetry; apply repeat_length).
    cbn. f_equal. apply map_ext. intros z.
    replace (- (z - 0) / zeta) with (- z / zeta) by (unfold Rdiv; ring).
    unfold Rdiv. ring.
  - intros x0 x1 rest Hi Hd. unfold layer_depth, interface in Hd. rewrite Hi in Hd.
    cbn in Hd. rewrite Hi. cbn [length Nat.sub seq absorption_layers]. rewrite Hi.
    cbn [item nth_error Nat.add rbind]. rewrite Hd.
    rewrite Reqb_true by reflexivity. reflexivity.
Qed.

(** C8 does not hold for every mesh: the values are written one
    after the other in the order of the layers, so they sit at their
    own mesh points only when the mesh is ascending and starts inside
    the stack.
    - Two absorbing layers 0..1 and 1..2 with the mesh [1.5; 0.5]: the
      value of layer 1 at 1.5 should stand first, what stands first is
      the value of layer 0 at 0.5.
    - One absorbing layer 0..1 with the mesh [-1; 0.5]: the value at
      0.5 is written at the place of -1, and the place of 0.5 keeps 0. *)
Lemma absorption_profile_misplaced :
  (exists profile,
     get_absorption_profile finderb_sorted two_absorbing (Some [1.5; 0.5]) = Ok profile
     /\ ~ profile_by_layer finderb_sorted two_absorbing [1.5; 0.5] profile)
  /\ (exists profile,
        get_absorption_profile finderb_sorted one_layer (Some [-1; 0.5]) = Ok profile
        /\ nth_error profile 1 = Some 0
        /\ (fun z => exp (- z / 1) / 1) 0.5 <> 0).
Proof.
  split.
  - eexists. split.
    + unfold get_absorption_profile, two_absorbing. run. reflexivity.
    + intros H.
      assert (Hin : in_layer two_absorbing 1 1.5).
      { unfold in_layer, interface. cbn. split; [lia |]. split; [lra |].
        right. split; [reflexivity | lra]. }
      specialize (H 0%nat 1.5 1%nat eq_refl Hin).
      unfold dalpha_dz_at, layer_depth, intensity, interface in H. cbn in H.
      injection H as H.
      replace (- (1.5 - 1) / 1) with (- (0.5 - 0) / 1) in H by lra.
      pose proof (exp_pos (- (0.5 - 0) / 1)) as Ha.
      pose proof (exp_increasing (- (1 - 0) / 1) 0 ltac:(lra)) as Hb.
      rewrite exp_0 in Hb.
      assert (Hc : exp (- (1 - 0) / 1) * exp (- (0.5 - 0) / 1)
                   < 1 * exp (- (0.5 - 0) / 1)).
      { apply Rmult_lt_compat_r; assumption. }
      lra.
  - eexists. split; [| split].
    + unfold get_absorption_profile, one_layer. run. reflexivity.
    + reflexivity.
    + cbv beta. pose proof (exp_pos (- (0.5) / 1)). lra.
Qed.

(** ** The delta-excitation solver *)

Lemma field_sub_self (T : Field) :
  Forall (Forall (fun x => x = 0)) (field_sub T T).
Proof.
  unfold field_sub. induction T as [| row T IH]; cbn; constructor; [| exact IH].
  clear IH. induction row as [| x row IH]; cbn; constructor; [lra | exact IH].
Qed.

(** C3. The energy [E0] the solver starts from is the fluence times
    [areas[1]], the area of the second layer of the stack (and the
    absorbed energy of a layer is its absorption derivative times
    that [E0] times its thickness). *)
Theorem deposited_energy_second_area (S : Sample) (F a0 a1 : R) (rest : list R) :
  area S = a0 :: a1 :: rest ->
  deposited_energy S [F] = Ok [F * a1]
  /\ forall dalpha_dz i a d,
       nth_error dalpha_dz i = Some a -> nth_error (thickness S) i = Some d ->
       absorbed_energy S dalpha_dz [F * a1] i = Ok [a * (F * a1) * d].
Proof.
  intros Ha. split.
  - unfold deposited_energy. rewrite Ha. reflexivity.
  - intros dalpha_dz i a d Hi Hd. unfold absorbed_energy, item.
    rewrite Hi, Hd. reflexivity.
Qed.

(** With a single layer there is no [areas[1]]. *)
Lemma deposited_energy_one_layer (S : Sample) (fluence : list R) (a0 : R) :
  area S = [a0] -> deposited_energy S fluence = Raise IndexError.
Proof. intros Ha. unfold deposited_energy. rewrite Ha. reflexivity. Qed.

Section Solver.

Variable finderb : R -> list R -> nat.
Variable brentq : (R -> R) -> R -> R -> result R.

(** C2. Whatever the fluence and the initial temperature, the second
    array the solver returns is all zeros: [final_temp] and [init_temp]
    name one array object, so [delta_T = final_temp - init_temp]
    subtracts the final temperatures from themselves, also for the
    layers that were heated. *)
Theorem delta_T_is_zero (fluence : list R) (init_temp : init_temp_arg)
    (w w' : World) (final_temp delta_T : loc) :
  get_temperature_after_delta_excitation finderb brentq fluence init_temp w
  = (w', Ok (final_temp, delta_T)) ->
  exists T2 D,
    item (fields w') final_temp = Ok T2
    /\ item (fields w') delta_T = Ok D
    /\ D = field_sub T2 T2
    /\ Forall (Forall (fun x => x = 0)) D.
Proof.
  unfold get_temperature_after_delta_excitation. intros H.
  apply bind_ok in H. destruct H as (w1 & h & _ & H).
  apply bind_ok in H. destruct H as (w2 & dalpha_dz & _ & H).
  apply bind_ok in H. destruct H as (w3 & E0 & _ & H).
  apply bind_ok in H. destruct H as (w4 & l & _ & H).
  apply bind_ok in H. destruct H as (w5 & [] & _ & H).
  unfold bind, read_field, new_field, ret in H.
  destruct (item (fields w5) l) as [T2 |] eqn:E; [| discriminate H].
  injection H as <- <- <-. cbn.
  exists T2, (field_sub T2 T2). split; [| split; [| split]].
  - apply item_app_old. exact E.
  - apply item_app_new.
  - reflexivity.
  - apply field_sub_self.
Qed.

Lemma set_nth_length {A} (l : list A) (i : nat) (a : A) :
  length (set_nth l i a) = length l.
Proof.
  revert i. induction l as [| x t IH]; intros [| i]; cbn; try reflexivity.
  f_equal. apply IH.
Qed.

Lemma set_nth_same {A} (l : list A) (i : nat) (a : A) :
  (i < length l)%nat -> nth_error (set_nth l i a) i = Some a.
Proof.
  revert i. induction l as [| x t IH]; intros [| i] H; cbn in *; try lia.
  - reflexivity.
  - apply IH. lia.
Qed.

Lemma set_nth_other {A} (l : list A) (i j : nat) (a : A) :
  i <> j -> nth_error (set_nth l i a) j = nth_error l j.
Proof.
  revert i j. induction l as [| x t IH]; intros [| i] [| j] H; cbn; try reflexivity.
  - contradiction.
  - apply IH. congruence.
Qed.

Lemma set_row_length (T : Field) (i : nat) (t : R) : length (set_row T i t) = length T.
Proof. unfold set_row. destruct (nth_error T i); [apply set_nth_length | reflexivity]. Qed.

Lemma set_row_other (T : Field) (i j : nat) (t : R) :
  i <> j -> nth_error (set_row T i t) j = nth_error T j.
Proof.
  intros H. unfold set_row. destruct (nth_error T i); [| reflexivity].
  apply set_nth_other. exact H.
Qed.

(** The loop over the layers rewrites the rows of the layers with
    [dalpha_dz[i] > 0] and no other row. *)
Lemma heat_layers_keeps_unabsorbed (S : Sample) (dalpha_dz E0 : list R) (l : loc)
    (caps : list (list (R -> R))) (i : nat) (w w' : World) (T : Field) :
  heat_layers brentq S dalpha_dz E0 l l i caps w = (w', Ok tt) ->
  item (fields w) l = Ok T ->
  exists T',
    item (fields w') l = Ok T'
    /\ length T' = length T
    /\ forall j, (forall a, nth_error dalpha_dz j = Some a -> ~ 0 < a) ->
                 nth_error T' j = nth_error T j.
Proof.
  revert i w T. induction caps as [| c caps IH]; intros i w T; cbn [heat_layers].
  - intros H HT. injection H as <-. exists T. repeat split; assumption.
  - intros H HT.
    apply bind_ok in H. destruct H as (w1 & a & Ha & H).
    apply lift_ok in Ha. destruct Ha as [-> Ha].
    apply bind_ok in H. destruct H as (w2 & [] & Hstep & H).
    assert (Hw2 : exists T2,
              item (fields w2) l = Ok T2 /\ length T2 = length T
              /\ forall j, (forall a, nth_error dalpha_dz j = Some a -> ~ 0 < a) ->
                           nth_error T2 j = nth_error T j).
    { unfold Rgtb, Rltb in Hstep. destruct (Rlt_dec 0 a) as [Hpos | Hneg].
      - apply bind_ok in Hstep. destruct Hstep as (? & del_E & Hx & Hstep).
        apply lift_ok in Hx. destruct Hx as [-> _].
        apply bind_ok in Hstep. destruct Hstep as (? & T1 & Hx & Hstep).
        unfold read_field in Hx. injection Hx as <- _.
        apply bind_ok in Hstep. destruct Hstep as (? & row & Hx & Hstep).
        apply lift_ok in Hx. destruct Hx as [-> _].
        apply bind_ok in Hstep. destruct Hstep as (? & t1 & Hx & Hstep).
        apply lift_ok in Hx. destruct Hx as [-> _].
        apply bind_ok in Hstep. destruct Hstep as (? & m & Hx & Hstep).
        apply lift_ok in Hx. destruct Hx as [-> _].
        apply bind_ok in Hstep. destruct Hstep as (? & cap & Hx & Hstep).
        apply lift_ok in Hx. destruct Hx as [-> _].
        apply bind_ok in Hstep. destruct Hstep as (? & dE & Hx & Hstep).
        apply lift_ok in Hx. destruct Hx as [-> _].
        apply bind_ok in Hstep. destruct Hstep as (? & t2 & Hx & Hstep).
        apply lift_ok in Hx. destruct Hx as [-> _].
        apply bind_ok in Hstep. destruct Hstep as (? & T2 & Hx & Hstep).
        unfold read_field in Hx. rewrite HT in Hx. injection Hx as <- <-.
        destruct (i <? length T)%nat; [| discriminate Hstep].
        unfold write_field in Hstep. injection Hstep as <-. cbn [fields].
        exists (set_row T i t2). split; [| split].
        + apply item_Some. apply set_nth_same. eapply item_lt. exact HT.
        + apply set_row_length.
        + intros j Hj. apply set_row_other. intros <-.
          apply item_Some in Ha. exact (Hj a Ha Hpos).
      - injection Hstep as <-. exists T. repeat split; assumption. }
    destruct Hw2 as (T2 & HT2 & Hl2 & Hr2).
    destruct (IH _ _ _ H HT2) as (T' & HT' & Hl' & Hr').
    exists T'. split; [exact HT' |]. split; [congruence |].
    intros j Hj. rewrite (Hr' j Hj). apply Hr2. exact Hj.
Qed.

(** The part of C2 the code keeps: for a scalar initial temperature
    [t], every layer whose absorption derivative is not positive (zero,
    in particular) ends at [t] in all its sub-systems. *)
Lemma solver_keeps_unabsorbed (fluence : list R) (t : R) (w w' : World)
    (final_temp delta_T : loc) (dalpha_dz : list R) :
  get_temperature_after_delta_excitation finderb brentq fluence (Temp_scalar t) w
  = (w', Ok (final_temp, delta_T)) ->
  get_absorption_profile finderb (sample (self w)) None = Ok dalpha_dz ->
  exists T2,
    item (fields w') final_temp = Ok T2
    /\ forall j, (j < number_of_layers (sample (self w)))%nat ->
                 (forall a, nth_error dalpha_dz j = Some a -> ~ 0 < a) ->
                 nth_error T2 j = Some (repeat t (num_sub_systems (sample (self w)))).
Proof.
  unfold get_temperature_after_delta_excitation. intros H Hprofile.
  apply bind_ok in H. destruct H as (w1 & h & Hh & H).
  unfold get_self in Hh. injection Hh as <- <-.
  apply bind_ok in H. destruct H as (w2 & dalpha' & Hd & H).
  apply lift_ok in Hd. destruct Hd as [-> Hd].
  assert (dalpha' = dalpha_dz) as -> by congruence.
  apply bind_ok in H. destruct H as (w3 & E0 & HE & H).
  apply lift_ok in HE. destruct HE as [-> _].
  apply bind_ok in H. destruct H as (w4 & l & Hc & H).
  unfold check_initial_temperature, bind, get_self, new_field in Hc.
  injection Hc as <- <-.
  apply bind_ok in H. destruct H as (w5 & [] & Hloop & H).
  eapply heat_layers_keeps_unabsorbed in Hloop; [| cbn [fields]; apply item_app_new].
  destruct Hloop as (T' & HT' & _ & Hrows).
  unfold bind, read_field, new_field, ret in H. rewrite HT' in H.
  injection H as <- <- <-. cbn [fields self].
  exists T'. split; [apply item_app_old; exact HT' |].
  intros j Hj Hz. rewrite (Hrows j Hz). unfold np_full.
  apply nth_error_repeat. exact Hj.
Qed.

End Solver.

(** ** The temperature map *)

Section TempMap.

Variable finderb : R -> list R -> nat.
Variable brentq : (R -> R) -> R -> R -> result R.
Variable calc_heat_diffusion :
  Field -> list R -> list R -> list R -> list R -> result (list Field).

Lemma read_fields_length (ls : list loc) (w w' : World) (frames : list Field) :
  read_fields ls w = (w', Ok frames) -> length frames = length ls.
Proof.
  revert w w' frames. induction ls as [| l ls IH]; intros w w' frames; cbn [read_fields].
  - intros H. injection H as _ <-. reflexivity.
  - intros H. apply bind_ok in H. destruct H as (w1 & T & _ & H).
    apply bind_ok in H. destruct H as (w2 & Ts & Hr & H).
    injection H as _ <-. cbn. f_equal. exact (IH _ _ _ Hr).
Qed.

(** C1. Whenever [calc_temp_map] returns, the temperature map it
    returns has no frame at all, and neither has the delta map: the
    frames of the intervals are never appended to [temp_map], which
    holds the seed frame only, and the seed frame is dropped at the
    end.  The number of requested delays plays no part. *)
Theorem calc_temp_map_returns_no_frame (arange_count : R -> R -> R -> nat)
    (delays : list R) (excitation : excitation_arg) (init_temp : init_temp_arg)
    (w w' : World) (temp_map delta_temp_map : list Field)
    (checked_excitation : list Interval) :
  calc_temp_map arange_count finderb brentq calc_heat_diffusion delays excitation init_temp w
  = (w', Ok (temp_map, delta_temp_map, checked_excitation)) ->
  temp_map = [] /\ delta_temp_map = [].
Proof.
  unfold calc_temp_map. intros H.
  apply bind_ok in H. destruct H as (w1 & h & _ & H).
  apply bind_ok in H. destruct H as (w2 & l0 & _ & H).
  apply bind_ok in H. destruct H as (w3 & l & _ & H).
  apply bind_ok in H. destruct H as (w4 & r & _ & H).
  apply bind_ok in H. destruct H as (w5 & T & _ & H).
  apply bind_ok in H. destruct H as (w6 & [] & _ & H).
  apply bind_ok in H. destruct H as (w7 & st & _ & H).
  apply bind_ok in H. destruct H as (w8 & frames & Hr & H).
  apply read_fields_length in Hr.
  injection H as _ <- <- _.
  destruct frames as [| T0 [| T1 frames]]; cbn in Hr; try discriminate Hr.
  split; reflexivity.
Qed.

(** C9. In the branch for a delta excitation (fluence present, and
    heat diffusion disabled or pulse width zero) the frames of the
    interval are one field of zeros in the shape of the field the
    solver returned: the solved temperatures are not in it. *)
Theorem delta_interval_is_zero
    (checked_excitation : list Interval) (temp_map : list loc) (i : nat)
    (excitation : Interval) (init_temp last : loc) (T : Field)
    (w w' : World) (temp : list Field) (special_init_temp : option loc) :
  item_last temp_map = Ok last ->
  item (fields w) last = Ok T ->
  diffusive (self w) excitation (temp_gradient T) = false ->
  delta (self w) excitation = true ->
  interval_temp finderb brentq calc_heat_diffusion checked_excitation temp_map i
    excitation init_temp w = (w', Ok (temp, special_init_temp)) ->
  exists final_temp delta_T T2,
    get_temperature_after_delta_excitation finderb brentq (iv_fluence excitation)
      (Temp_array init_temp) w = (w', Ok (final_temp, delta_T))
    /\ item (fields w') final_temp = Ok T2
    /\ temp = [zeros_like T2]
    /\ Forall (Forall (Forall (fun x => x = 0))) temp.
Proof.
  intros Hlast HT Hdiff Hdelta. unfold interval_temp.
  unfold bind at 1. cbn [get_self].
  unfold bind at 1. unfold lift at 1. rewrite Hlast.
  unfold bind at 1. unfold read_field at 1. rewrite HT.
  rewrite Hdiff, Hdelta.
  intros H. apply bind_ok in H. destruct H as (w1 & [final_temp delta_T] & Hs & H).
  unfold bind, read_field, ret in H. cbn [fst] in H.
  destruct (item (fields w1) final_temp) as [T2 |] eqn:E; [| discriminate H].
  injection H as <- <- <-.
  exists final_temp, delta_T, T2. repeat split; try assumption.
  constructor; [| constructor].
  unfold zeros_like. apply Forall_map. apply Forall_forall. intros row _.
  apply Forall_map. apply Forall_forall. intros x _. reflexivity.
Qed.

Lemma extend_left_length (checked_excitation : list Interval) (i : nat)
    (times : list R) (start : nat) (times' : list R) :
  extend_left checked_excitation i times = Ok (start, times') ->
  (start <= 1)%nat /\ length times' = (length times + start)%nat.
Proof.
  unfold extend_left, rbind. destruct (0 <? i)%nat.
  - destruct (item _ _); [| discriminate].
    destruct (item_last _); [| discriminate].
    intros H. injection H as <- <-. cbn. split; lia.
  - intros H. injection H as <- <-. split; lia.
Qed.

Lemma extend_right_length (checked_excitation : list Interval) (i : nat)
    (times : list R) (stop : nat) (times' : list R) :
  extend_right checked_excitation i times = Ok (stop, times') ->
  (stop <= 1)%nat /\ length times' = (length times + stop)%nat.
Proof.
  unfold extend_right, rbind. destruct (i <? _)%nat.
  - destruct (item _ _); [| discriminate].
    destruct (_ && _).
    + destruct (item _ _); [| discriminate].
      intros H. injection H as <- <-. rewrite length_app. cbn. split; lia.
    + intros H. injection H as <- <-. split; lia.
  - intros H. injection H as <- <-. split; lia.
Qed.

Lemma py_slice_trim_length {A} (frames : list A) (start stop : nat) (e : Z) :
  e = (-1 - Z.of_nat stop)%Z ->
  (start + stop + 1 <= length frames)%nat ->
  length (py_slice (Z.of_nat start) e frames)
  = (length frames - start - stop - 1)%nat.
Proof.
  intros -> H. unfold py_slice, py_bound, slice.
  destruct (Z.of_nat start <? 0)%Z eqn:E1; [apply Z.ltb_lt in E1; lia |].
  destruct (-1 - Z.of_nat stop <? 0)%Z eqn:E2; [| apply Z.ltb_ge in E2; lia].
  rewrite Nat2Z.id, length_firstn, length_skipn. lia.
Qed.

(** C4. In the branch with heat diffusion the result of the integrator
    is cut by [temp[start:-1-stop]]: besides the [start + stop] frames
    of the borrowed times, the last frame of the interval's own time
    grid is dropped, so one frame less than the grid has points is
    kept.  The integrator is taken to return one frame per time it is
    given. *)
Theorem diffusive_interval_frames
    (checked_excitation : list Interval) (temp_map : list loc) (i : nat)
    (excitation : Interval) (init_temp last : loc) (T : Field)
    (w w' : World) (temp : list Field) (special_init_temp : option loc) :
  (forall T0 times dp pw fl frames,
     calc_heat_diffusion T0 times dp pw fl = Ok frames ->
     length frames = length times) ->
  item_last temp_map = Ok last ->
  item (fields w) last = Ok T ->
  diffusive (self w) excitation (temp_gradient T) = true ->
  interval_temp finderb brentq calc_heat_diffusion checked_excitation temp_map i
    excitation init_temp w = (w', Ok (temp, special_init_temp)) ->
  (length temp + 1 = length (sub_delays excitation))%nat.
Proof.
  intros Hframes Hlast HT Hdiff. unfold interval_temp.
  unfold bind at 1. cbn [get_self].
  unfold bind at 1. unfold lift at 1. rewrite Hlast.
  unfold bind at 1. unfold read_field at 1. rewrite HT.
  rewrite Hdiff.
  assert (Hn : (2 < length (sub_delays excitation))%nat).
  { unfold diffusive in Hdiff.
    apply andb_prop in Hdiff. destruct Hdiff as [Hdiff _].
    apply andb_prop in Hdiff. destruct Hdiff as [_ Hdiff].
    apply Nat.ltb_lt in Hdiff. exact Hdiff. }
  intros H.
  apply bind_ok in H. destruct H as (w1 & [start t1] & Hl & H).
  apply lift_ok in Hl. destruct Hl as [-> Hl].
  apply bind_ok in H. destruct H as (w2 & [stop t2] & Hr & H).
  apply lift_ok in Hr. destruct Hr as [-> Hr]. cbn [fst snd] in *.
  apply bind_ok in H. destruct H as (w3 & T0 & _ & H).
  apply bind_ok in H. destruct H as (w4 & frames & Hf & H).
  apply lift_ok in Hf. destruct Hf as [_ Hf].
  apply bind_ok in H. destruct H as (w5 & sp & _ & H).
  injection H as _ <- _.
  apply extend_left_length in Hl. apply extend_right_length in Hr.
  apply Hframes in Hf.
  match goal with
  | |- context [py_slice _ ?e frames] =>
      rewrite (py_slice_trim_length frames start stop e eq_refl) by lia
  end.
  lia.
Qed.

End TempMap.

(** ** [np.sort] and [np.unique] *)

Lemma insert_sorted_perm (x : R) (l : list R) : Permutation (x :: l) (insert_sorted x l).
Proof.
  induction l as [| y t IH]; cbn; [apply Permutation_refl |].
  destruct (Rleb x y); [apply Permutation_refl |].
  eapply Permutation_trans; [apply perm_swap |]. apply perm_skip. exact IH.
Qed.

Lemma np_sort_perm (l : list R) : Permutation l (np_sort l).
Proof.
  induction l as [| x t IH]; cbn; [apply Permutation_refl |].
  eapply Permutation_trans; [apply perm_skip; exact IH | apply insert_sorted_perm].
Qed.

Lemma insert_sorted_sorted (x : R) (l : list R) :
  StronglySorted Rle l -> StronglySorted Rle (insert_sorted x l).
Proof.
  induction 1 as [| y t Hs IH Hall]; cbn.
  - constructor; constructor.
  - unfold Rleb. destruct (Rle_dec x y) as [Hxy | Hxy].
    + constructor; [constructor; assumption |].
      constructor; [exact Hxy |].
      eapply Forall_impl; [| exact Hall]. intros z Hz. lra.
    + constructor; [exact IH |].
      eapply Permutation_Forall; [apply insert_sorted_perm |].
      constructor; [lra | exact Hall].
Qed.

Lemma np_sort_sorted (l : list R) : StronglySorted Rle (np_sort l).
Proof.
  induction l as [| x t IH]; cbn; [constructor |].
  apply insert_sorted_sorted. exact IH.
Qed.

(** Sorting what is sorted changes nothing. *)
Lemma np_sort_of_sorted (l : list R) : StronglySorted Rle l -> np_sort l = l.
Proof.
  induction 1 as [| x t Hs IH Hall]; [reflexivity |].
  change (np_sort (x :: t)) with (insert_sorted x (np_sort t)).
  rewrite IH. destruct t as [| y t']; [reflexivity |].
  cbn. rewrite Rleb_true; [reflexivity |].
  rewrite Forall_forall in Hall. apply Hall. left. reflexivity.
Qed.

Lemma drop_repeats_length_le (l : list R) : (length (drop_repeats l) <= length l)%nat.
Proof.
  induction l as [| x t IH]; [apply le_n |].
  cbn [drop_repeats]. destruct t as [| y t']; [apply le_n |].
  destruct (Reqb x y); cbn [length] in *; lia.
Qed.

(** [np.unique] keeps the length of a sorted array only when no value
    comes twice. *)
Lemma drop_repeats_strict (l : list R) :
  StronglySorted Rle l -> length (drop_repeats l) = length l -> StronglySorted Rlt l.
Proof.
  induction 1 as [| x t Hs IH Hall]; intros Hlen; [constructor |].
  cbn [drop_repeats] in Hlen. destruct t as [| y t']; [repeat constructor |].
  unfold Reqb in Hlen. destruct (Req_dec_T x y) as [Hxy | Hxy].
  - pose proof (drop_repeats_length_le (y :: t')). cbn [length] in *. lia.
  - cbn [length] in Hlen. injection Hlen as Hlen.
    specialize (IH Hlen). constructor; [exact IH |].
    assert (Hlt : x < y).
    { rewrite Forall_forall in Hall. specialize (Hall y (or_introl eq_refl)). lra. }
    constructor; [exact Hlt |].
    apply StronglySorted_inv in IH. destruct IH as [_ IH].
    eapply Forall_impl; [| exact IH]. intros z Hz. lra.
Qed.

Lemma drop_repeats_of_strict (l : list R) : StronglySorted Rlt l -> drop_repeats l = l.
Proof.
  induction 1 as [| x t Hs IH Hall]; [reflexivity |].
  cbn [drop_repeats]. destruct t as [| y t']; [reflexivity |].
  rewrite Reqb_false.
  - f_equal. exact IH.
  - rewrite Forall_forall in Hall. specialize (Hall y (or_introl eq_refl)). lra.
Qed.

Lemma strict_is_sorted (l : list R) : StronglySorted Rlt l -> StronglySorted Rle l.
Proof.
  induction 1 as [| x t Hs IH Hall]; constructor; [exact IH |].
  eapply Forall_impl; [| exact Hall]. intros z Hz. lra.
Qed.

Lemma sorted_NoDup_strict (l : list R) :
  StronglySorted Rle l -> NoDup l -> StronglySorted Rlt l.
Proof.
  induction 1 as [| x t Hs IH Hall]; intros Hnd; [constructor |].
  apply NoDup_cons_iff in Hnd. destruct Hnd as [Hx Hnd].
  constructor; [apply IH; exact Hnd |].
  rewrite Forall_forall in *. intros y Hy. specialize (Hall y Hy).
  destruct (Req_dec_T x y) as [-> | Hne]; [contradiction | lra].
Qed.

(** [np.unique] keeps the length when all values are distinct. *)
Lemma np_unique_NoDup (l : list R) : NoDup l -> length l = length (np_unique l).
Proof.
  intros Hnd. unfold np_unique.
  rewrite drop_repeats_of_strict.
  - apply Permutation_length, np_sort_perm.
  - apply sorted_NoDup_strict; [apply np_sort_sorted |].
    eapply Permutation_NoDup; [apply np_sort_perm | exact Hnd].
Qed.

(** ** More on [excitation.setter] *)

Lemma stored_assigned (fl dp pw : list R) (w : World) :
  stored_excitation (assigned fl dp pw w) = Ok (fl, dp, pw).
Proof.
  unfold stored_excitation, assigned. cbn.
  set (a := arrays w).
  assert (E1 : item (((a ++ [fl]) ++ [dp]) ++ [pw]) (length a) = Ok fl).
  { apply item_app_old, item_app_old, item_app_new. }
  assert (E2 : item (((a ++ [fl]) ++ [dp]) ++ [pw]) (length a + 1) = Ok dp).
  { apply item_app_old. replace (length a + 1)%nat with (length (a ++ [fl])).
    - apply item_app_new.
    - rewrite length_app. reflexivity. }
  assert (E3 : item (((a ++ [fl]) ++ [dp]) ++ [pw]) (length a + 1 + 1) = Ok pw).
  { replace (length a + 1 + 1)%nat with (length ((a ++ [fl]) ++ [dp])).
    - apply item_app_new.
    - rewrite !length_app. reflexivity. }
  rewrite E1, E2, E3. reflexivity.
Qed.

Lemma set_excitation_split (arg : excitation_arg) :
  set_excitation arg = (assign_excitation arg ;; validate_excitation).
Proof. reflexivity. Qed.

Lemma assign_excitation_full (fl dp pw : list R) (w : World) :
  assign_excitation (Dict (Some fl) (Some dp) (Some pw)) w = (assigned fl dp pw w, Ok tt).
Proof.
  unfold assign_excitation, try_except, assigned. cbn.
  rewrite !length_app. reflexivity.
Qed.

(** What the validation does on a state whose stored sequences can be
    read. *)
Lemma validate_excitation_spec (fl dp pw : list R) (w : World) :
  stored_excitation w = Ok (fl, dp, pw) ->
  validate_excitation w
  = if negb ((length fl =? length dp)%nat && (length dp =? length pw)%nat)
    then (w, Raise ValueError_excitation_length)
    else if negb (length dp =? length (np_unique dp))%nat
         then (w, Raise ValueError_delays_not_unique)
         else (revalidated dp w, Ok tt).
Proof.
  unfold stored_excitation, rbind. intros H.
  destruct (item (arrays w) (ex_fluence _)) as [fl' |] eqn:E1; [| discriminate H].
  destruct (item (arrays w) (ex_delay_pump _)) as [dp' |] eqn:E2; [| discriminate H].
  destruct (item (arrays w) (ex_pulse_width _)) as [pw' |] eqn:E3; [| discriminate H].
  injection H as -> -> ->.
  unfold validate_excitation, bind, get_self, read_array. rewrite E1, E2, E3.
  destruct (negb _); [reflexivity |].
  destruct (negb _); reflexivity.
Qed.

Lemma stored_revalidated (fl dp pw : list R) (w : World) :
  stored_excitation w = Ok (fl, dp, pw) ->
  stored_excitation (revalidated dp w) = Ok (fl, np_sort dp, pw).
Proof.
  unfold stored_excitation, rbind. intros H.
  destruct (item (arrays w) (ex_fluence _)) as [fl' |] eqn:E1; [| discriminate H].
  destruct (item (arrays w) (ex_delay_pump _)) as [dp' |] eqn:E2; [| discriminate H].
  destruct (item (arrays w) (ex_pulse_width _)) as [pw' |] eqn:E3; [| discriminate H].
  injection H as -> -> ->.
  unfold revalidated. cbn.
  rewrite (item_app_old _ [np_sort dp] _ _ E1), (item_app_old _ [np_sort dp] _ _ E3).
  rewrite item_app_new. reflexivity.
Qed.

(** A validation that succeeds has read three sequences of one length
    with distinct delays, and stores the delays sorted. *)
Lemma validate_excitation_ok (w w' : World) :
  validate_excitation w = (w', Ok tt) ->
  exists fl dp pw,
    stored_excitation w = Ok (fl, dp, pw)
    /\ length fl = length dp /\ length dp = length pw
    /\ length (np_unique dp) = length dp
    /\ stored_excitation w' = Ok (fl, np_sort dp, pw).
Proof.
  intros H.
  destruct (stored_excitation w) as [[[fl dp] pw] | e] eqn:Es.
  - rewrite (validate_excitation_spec fl dp pw w Es) in H.
    destruct (negb (_ && _)) eqn:Hlen; [discriminate H |].
    destruct (negb (length dp =? _)%nat) eqn:Hun; [discriminate H |].
    injection H as <-.
    apply negb_false_iff, andb_prop in Hlen. destruct Hlen as [L1 L2].
    apply Nat.eqb_eq in L1, L2. apply negb_false_iff, Nat.eqb_eq in Hun.
    exists fl, dp, pw. repeat split; try assumption; try congruence.
    apply stored_revalidated. exact Es.
  - exfalso. unfold stored_excitation, rbind in Es.
    unfold validate_excitation, bind, get_self, read_array in H.
    destruct (item (arrays w) (ex_fluence _)); [| discriminate H].
    destruct (item (arrays w) (ex_delay_pump _)); [| discriminate H].
    destruct (item (arrays w) (ex_pulse_width _)); [| discriminate H].
    discriminate Es.
Qed.

(** X1. Whatever the setter is handed, when it returns the stored
    excitation is normalized: fluence, delays and widths have one
    length and the delays are strictly increasing. *)
Theorem set_excitation_normalizes (arg : excitation_arg) (w w' : World) :
  set_excitation arg w = (w', Ok tt) -> normalized w'.
Proof.
  rewrite set_excitation_split. intros H.
  apply bind_ok in H. destruct H as (w1 & [] & _ & H).
  apply validate_excitation_ok in H.
  destruct H as (fl & dp & pw & _ & L1 & L2 & Hun & Hs).
  exists fl, (np_sort dp), pw. split; [exact Hs |].
  pose proof (Permutation_length (np_sort_perm dp)) as Hl.
  split; [| split; congruence].
  apply drop_repeats_strict; [apply np_sort_sorted |].
  unfold np_unique in Hun. rewrite <- (np_sort_of_sorted (np_sort dp)) at 1
    by apply np_sort_sorted.
  rewrite (np_sort_of_sorted (np_sort dp)) by apply np_sort_sorted. congruence.
Qed.

(** X2. The setter assigns before it validates.  For a dictionary
    whose three keys hold one-dimensional arrays [fl], [dp], [pw]:
    when the call raises, the object already holds the three refused
    arrays, as given, in place of what it stored before, and the
    error is the [ValueError] for arrays of different lengths, which
    they then are, or the one for a delay given twice, which [dp]
    then has.  (A dictionary of single quantities is not covered: the
    setter stores their bare magnitudes, of which [len] raises
    [TypeError].) *)
Theorem set_excitation_refused_is_stored
    (fl dp pw : list R) (w w' : World) (e : exn) :
  set_excitation (Dict (Some fl) (Some dp) (Some pw)) w = (w', Raise e) ->
  stored_excitation w' = Ok (fl, dp, pw)
  /\ ((e = ValueError_excitation_length
       /\ ~ (length fl = length dp /\ length dp = length pw))
      \/ (e = ValueError_delays_not_unique /\ ~ NoDup dp)).
Proof.
  rewrite set_excitation_split. unfold bind.
  rewrite assign_excitation_full.
  rewrite (validate_excitation_spec fl dp pw _ (stored_assigned fl dp pw w)).
  destruct (negb (_ && _)) eqn:Hlen.
  - intros H. injection H as <- <-. split; [apply stored_assigned |]. left.
    split; [reflexivity |]. intros [L1 L2].
    rewrite L1, L2, !Nat.eqb_refl in Hlen. discriminate Hlen.
  - destruct (negb (length dp =? _)%nat) eqn:Hun; [| discriminate].
    intros H. injection H as <- <-. split; [apply stored_assigned |]. right.
    split; [reflexivity |]. intros Hnd.
    rewrite (np_unique_NoDup dp Hnd), Nat.eqb_refl in Hun. discriminate Hun.
Qed.

(** X3. Handing the setter sequences that are already normalized (the
    ones it stored, say) is accepted and stores them as they are. *)
Theorem set_excitation_normalized_again (fl dp pw : list R) (w : World) :
  StronglySorted Rlt dp -> length fl = length dp -> length dp = length pw ->
  exists w',
    set_excitation (Dict (Some fl) (Some dp) (Some pw)) w = (w', Ok tt)
    /\ stored_excitation w' = Ok (fl, dp, pw).
Proof.
  intros Hs L1 L2. rewrite set_excitation_split. unfold bind.
  rewrite assign_excitation_full.
  rewrite (validate_excitation_spec fl dp pw _ (stored_assigned fl dp pw w)).
  rewrite L1, L2, !Nat.eqb_refl. cbn [andb negb].
  assert (Hsort : np_sort dp = dp) by (apply np_sort_of_sorted, strict_is_sorted, Hs).
  unfold np_unique. rewrite Hsort, (drop_repeats_of_strict dp Hs), L2, Nat.eqb_refl.
  cbn [negb]. eexists. split; [reflexivity |].
  rewrite (stored_revalidated fl dp pw _ (stored_assigned fl dp pw w)).
  rewrite Hsort. reflexivity.
Qed.

(** X4. A bare fluence is always accepted, whatever was stored: the
    object then holds one pulse of that fluence at delay 0 with width
    0. *)
Theorem set_excitation_quantity (F : R) (w : World) :
  exists w',
    set_excitation (Quantity F) w = (w', Ok tt)
    /\ stored_excitation w' = Ok ([F], [0], [0]).
Proof.
  eexists. split.
  - unfold set_excitation. cbn. unfold bind. cbn.
    rewrite !length_app. cbn [length].
    set (a := arrays w).
    replace (item (((a ++ [[F]]) ++ [[0]]) ++ [[0]]) (length a)) with (Ok [F])
      by (symmetry; apply item_app_old, item_app_old, item_app_new).
    replace (item (((a ++ [[F]]) ++ [[0]]) ++ [[0]]) (length a + 1)) with (Ok [0]).
    2:{ symmetry. apply item_app_old.
        replace (length a + 1)%nat with (length (a ++ [[F]]))
          by (rewrite length_app; reflexivity).
        apply item_app_new. }
    replace (item (((a ++ [[F]]) ++ [[0]]) ++ [[0]]) (length a + 1 + 1)) with (Ok [0]).
    2:{ symmetry.
        replace (length a + 1 + 1)%nat with (length ((a ++ [[F]]) ++ [[0]]))
          by (rewrite !length_app; reflexivity).
        apply item_app_new. }
    cbn. reflexivity.
  - unfold stored_excitation. cbn. rewrite !length_app. cbn [length].
    set (a := arrays w).
    rewrite (item_app_old _ [[0]] (length a) [F])
      by (apply item_app_old, item_app_old, item_app_new).
    replace (length a + 1 + 1 + 1)%nat
      with (length (((a ++ [[F]]) ++ [[0]]) ++ [[0]])) by (rewrite !length_app; reflexivity).
    rewrite item_app_new.
    rewrite (item_app_old _ [[0]] (length a + 1 + 1) [0]).
    + reflexivity.
    + replace (length a + 1 + 1)%nat with (length ((a ++ [[F]]) ++ [[0]]))
        by (rewrite !length_app; reflexivity).
      apply item_app_new.
Qed.

Lemma strict_NoDup (l : list R) : StronglySorted Rlt l -> NoDup l.
Proof.
  induction 1 as [| x t Hs IH Hall]; constructor; [| exact IH].
  intros Hx. rewrite Forall_forall in Hall. specialize (Hall x Hx). lra.
Qed.

(** The test [len(delay_pump) != len(np.unique(delay_pump))] finds
    exactly the sequences with a repeated delay. *)
Lemma np_unique_length_NoDup (l : list R) :
  length l = length (np_unique l) <-> NoDup l.
Proof.
  split; [| apply np_unique_NoDup].
  intros Hlen. unfold np_unique in Hlen.
  apply (Permutation_NoDup (Permutation_sym (np_sort_perm l))).
  apply strict_NoDup, drop_repeats_strict; [apply np_sort_sorted |].
  rewrite <- Hlen. apply Permutation_length, np_sort_perm.
Qed.

Lemma validate_excitation_outcome (fl dp pw : list R) (w : World) :
  stored_excitation w = Ok (fl, dp, pw) ->
  validation_outcome fl dp pw (snd (validate_excitation w))
    (stored_excitation (fst (validate_excitation w))).
Proof.
  intros Hs. rewrite (validate_excitation_spec fl dp pw w Hs).
  destruct (negb (_ && _)) eqn:Hlen.
  - right; left. cbn [fst snd]. split; [| split; [reflexivity | exact Hs]].
    intros [L1 L2]. rewrite L1, L2, !Nat.eqb_refl in Hlen. discriminate Hlen.
  - apply negb_false_iff, andb_prop in Hlen. destruct Hlen as [L1 L2].
    apply Nat.eqb_eq in L1, L2.
    destruct (negb (length dp =? _)%nat) eqn:Hun.
    + right; right. cbn [fst snd]. repeat split; try assumption.
      intros Hnd. apply np_unique_length_NoDup in Hnd.
      rewrite <- Hnd, Nat.eqb_refl in Hun. discriminate Hun.
    + apply negb_false_iff, Nat.eqb_eq in Hun.
      apply np_unique_length_NoDup in Hun.
      left. cbn [fst snd]. repeat split; try assumption.
      exists (np_sort dp).
      split; [apply stored_revalidated; exact Hs |].
      split; [apply np_sort_perm |].
      apply sorted_NoDup_strict; [apply np_sort_sorted |].
      apply (Permutation_NoDup (np_sort_perm dp)). exact Hun.
Qed.

(** X5. A dictionary that lacks a key raises no [KeyError]: the
    assignments stop at the first missing key, what the keys before
    it hold has been stored by then, what the keys after it hold is
    dropped, and the validation runs on this mix of new and old
    sequences.  With [fl0], [dp0], [pw0] stored before the call:
    - without ['fluence'] the validation runs on [fl0], [dp0], [pw0],
      whatever the other two keys hold;
    - with the fluence [fl] and without ['delay_pump'] it runs on
      [fl], [dp0], [pw0], whatever ['pulse_width'] holds;
    - with the fluence [fl] and the delays [dp] and without
      ['pulse_width'] it runs on [fl], [dp], [pw0].
    In each case the call ends as the validation of these three
    sequences does: it returns and stores the delays in increasing
    order when the lengths agree and no delay is given twice, and
    otherwise raises the [ValueError] that applies and leaves the
    three sequences stored as they are. *)
Theorem set_excitation_missing_key (fl0 dp0 pw0 : list R) (w : World) :
  stored_excitation w = Ok (fl0, dp0, pw0) ->
  (forall dp pw,
      validation_outcome fl0 dp0 pw0
        (snd (set_excitation (Dict None dp pw) w))
        (stored_excitation (fst (set_excitation (Dict None dp pw) w))))
  /\ (forall fl pw,
        validation_outcome fl dp0 pw0
          (snd (set_excitation (Dict (Some fl) None pw) w))
          (stored_excitation (fst (set_excitation (Dict (Some fl) None pw) w))))
  /\ (forall fl dp,
        validation_outcome fl dp pw0
          (snd (set_excitation (Dict (Some fl) (Some dp) None) w))
          (stored_excitation (fst (set_excitation (Dict (Some fl) (Some dp) None) w)))).
Proof.
  intros Hs.
  pose proof Hs as Hitems. unfold stored_excitation, rbind in Hitems.
  destruct (item (arrays w) (ex_fluence _)) as [fl' |] eqn:E1; [| discriminate Hitems].
  destruct (item (arrays w) (ex_delay_pump _)) as [dp' |] eqn:E2; [| discriminate Hitems].
  destruct (item (arrays w) (ex_pulse_width _)) as [pw' |] eqn:E3; [| discriminate Hitems].
  injection Hitems as -> -> ->.
  split; [| split].
  - intros dp pw. rewrite set_excitation_split. unfold bind.
    replace (assign_excitation (Dict None dp pw) w) with (w, Ok tt) by reflexivity.
    apply validate_excitation_outcome. exact Hs.
  - intros fl pw. rewrite set_excitation_split. unfold bind.
    set (w1 := mkWorld (mkHeat (sample (self w)) (heat_diffusion (self w))
                          (mkExcitation (length (arrays w))
                             (ex_delay_pump (_excitation (self w)))
                             (ex_pulse_width (_excitation (self w)))))
                 (arrays w ++ [fl]) (fields w) (warnings w)).
    replace (assign_excitation (Dict (Some fl) None pw) w) with (w1, Ok tt) by reflexivity.
    apply validate_excitation_outcome.
    unfold stored_excitation, rbind, w1. cbn.
    rewrite item_app_new, (item_app_old _ [fl] _ _ E2), (item_app_old _ [fl] _ _ E3).
    reflexivity.
  - intros fl dp. rewrite set_excitation_split. unfold bind.
    set (w2 := mkWorld (mkHeat (sample (self w)) (heat_diffusion (self w))
                          (mkExcitation (length (arrays w))
                             (length (arrays w ++ [fl]))
                             (ex_pulse_width (_excitation (self w)))))
                 ((arrays w ++ [fl]) ++ [dp]) (fields w) (warnings w)).
    replace (assign_excitation (Dict (Some fl) (Some dp) None) w) with (w2, Ok tt)
      by reflexivity.
    apply validate_excitation_outcome.
    unfold stored_excitation, rbind, w2. cbn.
    rewrite (item_app_old _ [dp] _ _ (item_app_new (arrays w) fl)).
    rewrite item_app_new.
    rewrite (item_app_old _ [dp] _ _ (item_app_old _ [fl] _ _ E3)).
    reflexivity.
Qed.

(** ** More on [check_excitation] *)

Lemma stored_excitation_items (w : World) (fl dp pw : list R) :
  stored_excitation w = Ok (fl, dp, pw) ->
  item (arrays w) (ex_fluence (_excitation (self w))) = Ok fl
  /\ item (arrays w) (ex_delay_pump (_excitation (self w))) = Ok dp
  /\ item (arrays w) (ex_pulse_width (_excitation (self w))) = Ok pw.
Proof.
  unfold stored_excitation, rbind. intros H.
  destruct (item (arrays w) (ex_fluence _)) as [fl' |]; [| discriminate H].
  destruct (item (arrays w) (ex_delay_pump _)) as [dp' |]; [| discriminate H].
  destruct (item (arrays w) (ex_pulse_width _)) as [pw' |]; [| discriminate H].
  injection H as -> -> ->. repeat split.
Qed.

(** What [check_excitation] returns when the stored sequences can be
    read: the merge of the stored pulses, with the widths it works
    with, then the quiet intervals. *)
Lemma check_excitation_result (arange_count : R -> R -> R -> nat)
    (delays : list R) (w : World) (fl dp pw : list R) :
  stored_excitation w = Ok (fl, dp, pw) ->
  exists lp,
    snd (check_excitation arange_count delays w)
    = (let* n_excitation :=
         traverse_excitation arange_count (length dp) dp
           (effective_widths (heat_diffusion (self w)) fl pw) fl 0 [] in
       let* res := interleave delays n_excitation in
       Ok (res, ex_fluence (_excitation (self w)),
           ex_delay_pump (_excitation (self w)), lp)).
Proof.
  intros Hs. apply stored_excitation_items in Hs. destruct Hs as (E1 & E2 & E3).
  unfold check_excitation, effective_widths, interleave.
  unfold bind, get_self, read_array, lift, ret, warn, new_array. cbn.
  destruct (_ && negb (heat_diffusion (self w))) at 1; cbn; rewrite E3.
  all: destruct (Rgtb (np_sum pw) 0 && negb (heat_diffusion (self w))); cbn.
  all: rewrite ?E1; cbn.
  all: rewrite ?(item_app_old _ [np_zeros (length fl)] _ _ E1),
         ?(item_app_old _ [np_zeros (length fl)] _ _ E2), ?item_app_new, ?E1, ?E2, ?E3.
  all: eexists; unfold rbind.
  all: destruct (traverse_excitation _ _ _ _ _ _ _) as [n_exc | e]; [| reflexivity].
  all: destruct (item n_exc 0) as [first | e]; [| reflexivity].
  all: destruct (np_min (sub_delays first)) as [t0 | e]; [| reflexivity].
  all: destruct (length (delays_before delays t0)); cbn.
  all: destruct (add_quiet_intervals _ _ _); reflexivity.
Qed.

(** X6. Before any pulse is stored (as in a new object), and whenever
    the stored delay sequence is empty, [check_excitation] raises
    [IndexError], whatever the delays asked for. *)
Theorem check_excitation_without_pulse (arange_count : R -> R -> R -> nat)
    (delays : list R) (w : World) (fl pw : list R) :
  stored_excitation w = Ok (fl, [], pw) ->
  snd (check_excitation arange_count delays w) = Raise IndexError.
Proof.
  intros Hs. destruct (check_excitation_result arange_count delays w fl [] pw Hs) as (lp & ->).
  reflexivity.
Qed.

Lemma firstn_add_split {A} (a b : nat) (l : list A) :
  firstn (a + b) l = firstn a l ++ firstn b (skipn a l).
Proof.
  revert l. induction a as [| a IH]; intros l; [reflexivity |].
  destruct l as [| x t]; cbn.
  - rewrite firstn_nil. reflexivity.
  - f_equal. apply IH.
Qed.

Lemma slice_app {A} (i j n : nat) (l : list A) :
  (i <= j <= n)%nat -> slice i j l ++ slice j n l = slice i n l.
Proof.
  intros H. unfold slice.
  replace (n - i)%nat with ((j - i) + (n - j))%nat by lia.
  rewrite firstn_add_split, skipn_skipn.
  replace (j - i + i)%nat with j by lia. reflexivity.
Qed.

Lemma slice_all {A} (l : list A) : slice 0 (length l) l = l.
Proof. unfold slice. rewrite Nat.sub_0_r. apply firstn_all. Qed.

(** The groups are cut out of the pump data one after the other: put
    end to end they give the pump data from event [i] on. *)
Lemma traverse_excitation_concat (arange_count : R -> R -> R -> nat)
    (dp pw fl : list R) (fuel i : nat)
    (acc out : list Interval) :
  traverse_excitation arange_count fuel dp pw fl i acc = Ok out ->
  (i <= length dp)%nat ->
  concat (map iv_delay_pump out)
  = concat (map iv_delay_pump acc) ++ slice i (length dp) dp
  /\ concat (map iv_pulse_width out)
     = concat (map iv_pulse_width acc) ++ slice i (length dp) pw
  /\ concat (map iv_fluence out)
     = concat (map iv_fluence acc) ++ slice i (length dp) fl.
Proof.
  revert i acc. induction fuel as [| fuel IH]; intros i acc; cbn [traverse_excitation].
  - destruct (i <? length dp)%nat eqn:Hi; [discriminate |].
    apply Nat.ltb_ge in Hi. intros H Hle. injection H as <-.
    assert (i = length dp) as -> by lia.
    rewrite !slice_empty, !app_nil_r. repeat split.
  - destruct (i <? length dp)%nat eqn:Hi.
    2:{ apply Nat.ltb_ge in Hi. intros H Hle. injection H as <-.
        assert (i = length dp) as -> by lia.
        rewrite !slice_empty, !app_nil_r. repeat split. }
    apply Nat.ltb_lt in Hi. unfold rbind.
    destruct (scan_overlap _ _ _ _ _ _) as [[k temp] |] eqn:Es; [| discriminate].
    apply scan_overlap_spec in Es; [| reflexivity | exact Hi].
    destruct Es as (Hk & Hw & Hf & H1 & H2 & H3). cbn [map app] in H1, H2, H3.
    destruct (group_intervall _ _ _ _ _) as [grid |]; [| discriminate].
    intros H _. apply IH in H; [| lia].
    destruct H as (C1 & C2 & C3).
    rewrite !map_app, !concat_app in C1, C2, C3.
    cbn [map concat iv_delay_pump iv_pulse_width iv_fluence] in C1, C2, C3.
    rewrite !app_nil_r in C1, C2, C3.
    rewrite H1 in C1. rewrite H2 in C2. rewrite H3 in C3.
    rewrite <- !app_assoc in C1, C2, C3.
    rewrite slice_app in C1, C2, C3 by lia.
    repeat split; assumption.
Qed.

Lemma add_quiet_intervals_concat {A} (f : Interval -> list A) (delays : list R)
    (rest res out : list Interval) :
  (forall ds, f (quiet ds) = []) ->
  add_quiet_intervals delays rest res = Ok out ->
  concat (map f out) = concat (map f res) ++ concat (map f rest).
Proof.
  intros Hq. revert res out. induction rest as [| e rest IH]; intros res out H.
  - cbn in H. injection H as <-. cbn. symmetry. apply app_nil_r.
  - cbn [add_quiet_intervals] in H. unfold rbind in H.
    assert (Step : forall res',
              concat (map f res') = concat (map f res) ++ f e ->
              add_quiet_intervals delays rest res' = Ok out ->
              concat (map f out) = concat (map f res) ++ concat (map f (e :: rest))).
    { intros res' Hres' H'. rewrite (IH _ _ H'), Hres'. cbn.
      symmetry. apply app_assoc. }
    assert (H1 : concat (map f (res ++ [e])) = concat (map f res) ++ f e).
    { rewrite map_app, concat_app. cbn. rewrite app_nil_r. reflexivity. }
    assert (H2 : forall ds, concat (map f ((res ++ [e]) ++ [quiet ds]))
                            = concat (map f res) ++ f e).
    { intros ds. rewrite map_app, concat_app, H1. cbn. rewrite Hq, !app_nil_r.
      reflexivity. }
    destruct rest as [| next rest'].
    + destruct (item_last (sub_delays e)); [| discriminate].
      destruct (0 <? _)%nat; (eapply Step; [| exact H]); eauto.
    + destruct (item_last (sub_delays e)); [| discriminate].
      destruct (item (sub_delays next) 0); [| discriminate].
      destruct (0 <? _)%nat; (eapply Step; [| exact H]); eauto.
Qed.

(** A call that returns has merged the arrays the result names and
    interleaved the quiet intervals. *)
Lemma check_excitation_inv (arange_count : R -> R -> R -> nat)
    (delays : list R) (w w' : World) res lf ld lp :
  check_excitation arange_count delays w = (w', Ok (res, lf, ld, lp)) ->
  exists dp pw fl n_excitation,
    item (arrays w') lf = Ok fl /\ item (arrays w') ld = Ok dp
    /\ item (arrays w') lp = Ok pw
    /\ traverse_excitation arange_count (length dp) dp pw fl 0 [] = Ok n_excitation
    /\ interleave delays n_excitation = Ok res.
Proof.
  unfold check_excitation, interleave. intros H.
  unfold bind, get_self, read_array, lift, ret, warn, new_array in H. cbn in H.
  repeat (match type of H with
          | context [match ?x with _ => _ end] => destruct x eqn:?
          end; cbn in H; try discriminate H).
  injection H as <- <- <- <- <-.
  match goal with
  | E : _ ?w1 = (?w2, Ok ?a8), E' : add_quiet_intervals _ _ ?a8 = _,
    T : traverse_excitation _ _ _ _ _ _ _ = Ok ?n, I : item ?n 0 = Ok ?first,
    N : np_min (sub_delays ?first) = Ok ?t0 |- _ =>
      assert (Hq : arrays w2 = arrays w1
                   /\ a8 = (if (0 <? length (delays_before delays t0))%nat
                            then [quiet (delays_before delays t0)] else []))
  end.
  { match goal with
    | E : (if ?b then _ else _) _ = (_, Ok ?a8), E' : add_quiet_intervals _ _ ?a8 = _ |- _ =>
        destruct b eqn:Eb; injection E as <- <-
    end.
    - split; [reflexivity |]. unfold Nat.ltb. cbn.
      destruct (length (delays_before delays _)); [discriminate Eb | reflexivity].
    - split; [reflexivity |]. unfold Nat.ltb. cbn.
      destruct (length (delays_before delays _)); [reflexivity | discriminate Eb]. }
  destruct Hq as [Ha Hq]. rewrite Ha. subst.
  do 4 eexists. repeat split; try eassumption.
  unfold rbind.
  repeat match goal with
         | E : ?x = Ok _ |- context [?x] => rewrite E
         end.
  first [assumption | reflexivity].
Qed.

Lemma interleave_concat {A} (f : Interval -> list A) (delays : list R)
    (n_excitation res : list Interval) :
  (forall ds, f (quiet ds) = []) ->
  interleave delays n_excitation = Ok res ->
  concat (map f res) = concat (map f n_excitation).
Proof.
  intros Hq. unfold interleave, rbind.
  destruct (item n_excitation 0); [| discriminate].
  destruct (np_min _); [| discriminate].
  intros H. rewrite (add_quiet_intervals_concat f _ _ _ _ Hq H).
  destruct (0 <? _)%nat; cbn; rewrite ?Hq; reflexivity.
Qed.

(** X7. No pump event is lost, doubled or reordered by the merge: the
    delays of the returned intervals, put end to end, are the stored
    delays, and likewise the fluences and the widths the call worked
    with, event by event (quiet intervals carry none). *)
Theorem check_excitation_keeps_events (arange_count : R -> R -> R -> nat)
    (delays : list R) (w w' : World) (res : list Interval) (lf ld lp : loc)
    (fl dp pw : list R) :
  check_excitation arange_count delays w = (w', Ok (res, lf, ld, lp)) ->
  item (arrays w') lf = Ok fl ->
  item (arrays w') ld = Ok dp ->
  item (arrays w') lp = Ok pw ->
  concat (map iv_delay_pump res) = dp
  /\ concat (map iv_pulse_width res) = firstn (length dp) pw
  /\ concat (map iv_fluence res) = firstn (length dp) fl.
Proof.
  intros H Hfl Hdp Hpw.
  apply check_excitation_inv in H.
  destruct H as (dp' & pw' & fl' & n_exc & Ef & Ed & Ep & Ht & Hi).
  assert (dp' = dp) as -> by congruence.
  assert (pw' = pw) as -> by congruence.
  assert (fl' = fl) as -> by congruence.
  apply traverse_excitation_concat in Ht; [| lia].
  destruct Ht as (C1 & C2 & C3). cbn [map concat app] in C1, C2, C3.
  rewrite (interleave_concat iv_delay_pump _ _ _ (fun _ => eq_refl) Hi).
  rewrite (interleave_concat iv_pulse_width _ _ _ (fun _ => eq_refl) Hi).
  rewrite (interleave_concat iv_fluence _ _ _ (fun _ => eq_refl) Hi).
  rewrite C1, C2, C3. unfold slice. rewrite Nat.sub_0_r. cbn [skipn].
  rewrite firstn_all. repeat split.
Qed.

Lemma item_last_nonempty {A} (l : list A) (x : A) : item_last l = Ok x -> l <> [].
Proof. intros H ->. discriminate H. Qed.

Lemma add_quiet_intervals_nonempty (delays : list R) (rest res out : list Interval) :
  add_quiet_intervals delays rest res = Ok out ->
  Forall (fun g => sub_delays g <> []) res ->
  Forall (fun g => sub_delays g <> []) out.
Proof.
  revert res out. induction rest as [| e rest IH]; intros res out H Hres.
  - cbn in H. injection H as <-. exact Hres.
  - cbn [add_quiet_intervals] in H. unfold rbind in H.
    assert (Q : forall ds, (0 <? length ds)%nat = true -> sub_delays (quiet ds) <> []).
    { intros ds Hd. cbn. intros ->. discriminate Hd. }
    destruct rest as [| next rest'].
    + destruct (item_last (sub_delays e)) eqn:El; [| discriminate].
      apply item_last_nonempty in El.
      destruct (0 <? _)%nat eqn:Hd; apply (IH _ _ H);
        repeat (apply Forall_app; split); auto.
    + destruct (item_last (sub_delays e)) eqn:El; [| discriminate].
      apply item_last_nonempty in El.
      destruct (item (sub_delays next) 0); [| discriminate].
      destruct (0 <? _)%nat eqn:Hd; apply (IH _ _ H);
        repeat (apply Forall_app; split); auto.
Qed.

Lemma add_quiet_intervals_length (delays : list R) (rest res out : list Interval) :
  add_quiet_intervals delays rest res = Ok out ->
  (length res + length rest <= length out)%nat.
Proof.
  revert res out. induction rest as [| e rest IH]; intros res out H.
  - cbn in H. injection H as <-. cbn. lia.
  - cbn [add_quiet_intervals] in H. unfold rbind in H.
    destruct rest as [| next rest'].
    + destruct (item_last (sub_delays e)); [| discriminate].
      destruct (0 <? _)%nat; apply IH in H;
        rewrite ?length_app in H; cbn [length] in *; lia.
    + destruct (item_last (sub_delays e)); [| discriminate].
      destruct (item (sub_delays next) 0); [| discriminate].
      destruct (0 <? _)%nat; apply IH in H;
        rewrite ?length_app in H; cbn [length] in *; lia.
Qed.

Lemma interleave_nonempty (delays : list R) (n_excitation res : list Interval) :
  interleave delays n_excitation = Ok res -> res <> [].
Proof.
  unfold interleave, rbind. intros Hi.
  destruct (item n_excitation 0) as [first |] eqn:E0; [| discriminate].
  destruct (np_min _); [| discriminate].
  intros ->. apply add_quiet_intervals_length in Hi.
  destruct n_excitation; [discriminate E0 | cbn in Hi; lia].
Qed.

(** X8. [check_excitation] never returns an empty list of intervals, and
    every interval it returns has at least one time in its grid: the
    quiet intervals are only added when some delay falls into them, and
    a pulse group whose grid is empty stops the call. *)
Theorem check_excitation_grids_nonempty (arange_count : R -> R -> R -> nat)
    (delays : list R) (w w' : World) (res : list Interval) (lf ld lp : loc) :
  check_excitation arange_count delays w = (w', Ok (res, lf, ld, lp)) ->
  res <> [] /\ Forall (fun g => sub_delays g <> []) res.
Proof.
  intros H. apply check_excitation_inv in H.
  destruct H as (dp & pw & fl & n_exc & _ & _ & _ & _ & Hi).
  split; [exact (interleave_nonempty _ _ _ Hi) |].
  unfold interleave, rbind in Hi.
  destruct (item n_exc 0) as [first |] eqn:E0; [| discriminate].
  destruct (np_min _); [| discriminate].
  apply (add_quiet_intervals_nonempty _ _ _ _ Hi).
  destruct (0 <? _)%nat eqn:Hd; constructor; [| constructor].
  cbn. intros Hn. rewrite Hn in Hd. discriminate Hd.
Qed.

Lemma In_slice {A} (i j : nat) (l : list A) (x : A) :
  In x (slice i j l) -> exists n, (i <= n < j)%nat /\ nth_error l n = Some x.
Proof.
  unfold slice. intros H. apply In_nth_error in H. destruct H as [n Hn].
  rewrite nth_error_firstn in Hn.
  destruct (n <? j - i)%nat eqn:Hj; [| discriminate].
  apply Nat.ltb_lt in Hj. rewrite nth_error_skipn in Hn.
  exists (i + n)%nat. split; [lia | exact Hn].
Qed.

(** A property of every group the merge loop builds holds of every
    group it returns. *)
Lemma traverse_excitation_Forall (arange_count : R -> R -> R -> nat)
    (P : Interval -> Prop) (dp pw fl : list R) :
  (forall i k temp grid,
      (i < length dp)%nat ->
      scan_overlap dp pw fl (length dp - i) i [] = Ok (k, temp) ->
      group_intervall arange_count dp pw i k = Ok grid ->
      P (mkInterval grid (map (fun t => fst (fst t)) temp)
           (map (fun t => snd (fst t)) temp) (map (fun t => snd t) temp))) ->
  forall fuel i acc out,
    traverse_excitation arange_count fuel dp pw fl i acc = Ok out ->
    Forall P acc -> Forall P out.
Proof.
  intros HP fuel. induction fuel as [| fuel IH]; intros i acc out;
    cbn [traverse_excitation].
  - destruct (i <? length dp)%nat; [discriminate |].
    intros H. injection H as <-. auto.
  - destruct (i <? length dp)%nat eqn:Hi.
    2:{ intros H. injection H as <-. auto. }
    apply Nat.ltb_lt in Hi. unfold rbind.
    destruct (scan_overlap _ _ _ _ _ _) as [[k temp] |] eqn:Es; [| discriminate].
    destruct (group_intervall _ _ _ _ _) as [grid |] eqn:Eg; [| discriminate].
    intros H Hacc. apply (IH _ _ _ H).
    apply Forall_app. split; [exact Hacc |].
    constructor; [| constructor]. apply (HP i k temp grid Hi Es Eg).
Qed.

Lemma add_quiet_intervals_Forall (P : Interval -> Prop) (delays : list R) :
  (forall ds, P (quiet ds)) ->
  forall rest res out,
    add_quiet_intervals delays rest res = Ok out ->
    Forall P rest -> Forall P res -> Forall P out.
Proof.
  intros HQ rest. induction rest as [| e rest IH]; intros res out H Hrest Hres.
  - cbn in H. injection H as <-. exact Hres.
  - cbn [add_quiet_intervals] in H. unfold rbind in H.
    inversion Hrest as [| ? ? He Hrest']; subst.
    destruct rest as [| next rest'].
    + destruct (item_last (sub_delays e)); [| discriminate].
      destruct (0 <? _)%nat; apply (IH _ _ H); auto;
        repeat (apply Forall_app; split); auto.
    + destruct (item_last (sub_delays e)); [| discriminate].
      destruct (item (sub_delays next) 0); [| discriminate].
      destruct (0 <? _)%nat; apply (IH _ _ H); auto;
        repeat (apply Forall_app; split); auto.
Qed.

Lemma interleave_Forall (P : Interval -> Prop) (delays : list R)
    (n_excitation res : list Interval) :
  (forall ds, P (quiet ds)) ->
  interleave delays n_excitation = Ok res ->
  Forall P n_excitation -> Forall P res.
Proof.
  intros HQ H Hn. unfold interleave, rbind in H.
  destruct (item n_excitation 0); [| discriminate].
  destruct (np_min _); [| discriminate].
  apply (add_quiet_intervals_Forall P delays HQ _ _ _ H Hn).
  destruct (0 <? _)%nat; auto.
Qed.

(** X9. In every interval [check_excitation] returns, each pulse after
    the first has a width other than zero: a pulse of zero width is
    never merged into the group of the pulse before it (the call
    raises instead when their windows overlap). *)
Theorem check_excitation_joined_widths (arange_count : R -> R -> R -> nat)
    (delays : list R) (w w' : World) (res : list Interval) (lf ld lp : loc) :
  check_excitation arange_count delays w = (w', Ok (res, lf, ld, lp)) ->
  Forall (fun g => Forall (fun x => x <> 0) (tl (iv_pulse_width g))) res.
Proof.
  intros H. apply check_excitation_inv in H.
  destruct H as (dp & pw & fl & n_exc & _ & _ & _ & Ht & Hi).
  apply (interleave_Forall _ delays n_exc res); [intros ds; cbn; constructor | exact Hi |].
  apply (traverse_excitation_Forall arange_count _ dp pw fl) with (fuel := length dp) (i := 0%nat)
                                                     (acc := []) (out := n_exc);
    [| exact Ht | constructor].
  intros i k temp grid Hlt Es _. cbn [iv_pulse_width].
  pose proof (scan_overlap_joined_widths _ _ _ _ _ _ _ _ Es) as Hj.
  apply scan_overlap_spec in Es; [| reflexivity | exact Hlt].
  destruct Es as (Hk & Hw & _ & _ & H2 & _). cbn [map app] in H2. rewrite H2.
  destruct (nth_error pw i) as [wi |] eqn:Ei.
  2:{ apply nth_error_None in Ei. lia. }
  rewrite (slice_cons pw i (k + 1) wi) by (try exact Ei; try apply item_Some; try lia; auto).
  cbn [tl]. apply Forall_forall. intros x Hx.
  apply In_slice in Hx. destruct Hx as (n & Hn & Hx).
  apply (Hj n x); [lia | exact Hx].
Qed.

Lemma np_sum_nonneg (l : list R) : Forall (fun x => 0 <= x) l -> 0 <= np_sum l.
Proof.
  induction 1 as [| x t Hx _ IH]; cbn; [lra |]. unfold np_sum in IH. lra.
Qed.

Lemma nonneg_sum_zero (l : list R) :
  Forall (fun x => 0 <= x) l -> ~ 0 < np_sum l -> l = np_zeros (length l).
Proof.
  induction 1 as [| x t Hx Ht IH]; intros Hs; [reflexivity |].
  pose proof (np_sum_nonneg t Ht) as Hn.
  change (np_sum (x :: t)) with (x + np_sum t) in Hs.
  cbn [length np_zeros repeat]. f_equal; [lra |].
  apply IH. lra.
Qed.

Lemma effective_widths_without_diffusion (fl pw : list R) :
  Forall (fun x => 0 <= x) pw -> length fl = length pw ->
  effective_widths false fl pw = np_zeros (length pw).
Proof.
  intros Hpw Hl. unfold effective_widths, Rgtb, Rltb.
  destruct (Rlt_dec 0 (np_sum pw)) as [Hs | Hs]; cbn [andb negb].
  - now rewrite Hl.
  - now apply nonneg_sum_zero.
Qed.

Lemma strict_adjacent (l : list R) (i : nat) (a b : R) :
  StronglySorted Rlt l ->
  nth_error l i = Some a -> nth_error l (i + 1) = Some b -> a < b.
Proof.
  intros Hs. revert i. induction Hs as [| x t Ht IH Hx]; intros i Ha Hb.
  - destruct i; discriminate.
  - destruct i as [| i]; cbn in Ha, Hb.
    + injection Ha as <-. destruct t as [| y t']; [discriminate |].
      injection Hb as <-. now inversion Hx.
    + now apply (IH i).
Qed.

Lemma item_np_zeros (n i : nat) : (i < n)%nat -> item (np_zeros n) i = Ok 0.
Proof.
  intros H. unfold item, np_zeros. now rewrite nth_error_repeat.
Qed.

(** With all widths zero and strictly increasing delays, the merge
    loop makes one group of one time per pulse. *)
Lemma traverse_excitation_zero_widths (arange_count : R -> R -> R -> nat) (dp fl : list R) :
  StronglySorted Rlt dp -> length fl = length dp ->
  forall fuel i acc,
    (length dp - i <= fuel)%nat ->
    traverse_excitation arange_count fuel dp (np_zeros (length dp)) fl i acc
    = Ok (acc ++ map (fun df => mkInterval [fst df] [fst df] [0] [snd df])
                     (skipn i (combine dp fl))).
Proof.
  intros Hs Hl fuel.
  assert (Hend : forall i acc, (i <? length dp)%nat = false ->
            Ok acc = Ok (acc ++ map (fun df => mkInterval [fst df] [fst df] [0] [snd df])
                                    (skipn i (combine dp fl)))).
  { intros i acc Hi. apply Nat.ltb_ge in Hi.
    rewrite skipn_all2 by (rewrite length_combine; lia).
    cbn. now rewrite app_nil_r. }
  induction fuel as [| fuel IH]; intros i acc Hf; cbn [traverse_excitation].
  - destruct (i <? length dp)%nat eqn:Hi; [apply Nat.ltb_lt in Hi; lia | now apply Hend].
  - destruct (i <? length dp)%nat eqn:Hi; [| now apply Hend].
    apply Nat.ltb_lt in Hi.
    destruct (nth_error dp i) as [di |] eqn:Ed; [| apply nth_error_None in Ed; lia].
    destruct (nth_error fl i) as [fi |] eqn:Ef; [| apply nth_error_None in Ef; lia].
    assert (Es : scan_overlap dp (np_zeros (length dp)) fl (length dp - i) i []
                 = Ok (i, [(di, 0, fi)])).
    { destruct (length dp - i)%nat as [| m] eqn:Em; [lia |].
      cbn [scan_overlap]. unfold rbind.
      rewrite (proj2 (item_Some dp i di) Ed), (item_np_zeros _ _ Hi),
        (proj2 (item_Some fl i fi) Ef). cbn [app].
      destruct (i + 1 <? length dp)%nat eqn:Hi1; [| reflexivity].
      apply Nat.ltb_lt in Hi1.
      destruct (nth_error dp (i + 1)) as [d1 |] eqn:Ed1;
        [| apply nth_error_None in Ed1; lia].
      rewrite (proj2 (item_Some dp (i + 1) d1) Ed1), (item_np_zeros _ _ Hi1).
      pose proof (strict_adjacent dp i di d1 Hs Ed Ed1) as Hlt.
      unfold Rgeb, window. rewrite Rleb_false by lra. reflexivity. }
    assert (Eg : group_intervall arange_count dp (np_zeros (length dp)) i i = Ok [di]).
    { unfold group_intervall, rbind.
      rewrite (slice_one (np_zeros (length dp)) i 0)
        by (unfold np_zeros; now rewrite nth_error_repeat).
      cbn [np_min fold_left]. unfold intp. rewrite Reqb_true by lra.
      now rewrite (proj2 (item_Some dp i di) Ed). }
    unfold rbind. rewrite Es, Eg. cbn [map fst snd].
    rewrite IH by lia.
    assert (Ec : nth_error (combine dp fl) i = Some (di, fi)).
    { clear - Ed Ef. revert fl i Ed Ef.
      induction dp as [| d dp IHd]; intros fl i Ed Ef; [destruct i; discriminate |].
      destruct fl as [| f fl]; [destruct i; discriminate |].
      destruct i as [| i]; cbn in *; [congruence | now apply IHd]. }
    rewrite (skipn_nth_cons (combine dp fl) i (di, fi) Ec).
    cbn [map fst snd]. rewrite <- app_assoc. cbn [app].
    now rewrite Nat.add_1_r.
Qed.

Lemma item_last_ok {A} (l : list A) : l <> [] -> exists x, item_last l = Ok x.
Proof.
  intros Hl. destruct l as [| a t]; [contradiction |].
  unfold item_last, item.
  destruct (nth_error (a :: t) (length (a :: t) - 1)) eqn:E; [eauto |].
  apply nth_error_None in E. cbn [length] in E. lia.
Qed.

Lemma pump_intervals_app (l1 l2 : list Interval) :
  pump_intervals (l1 ++ l2) = pump_intervals l1 ++ pump_intervals l2.
Proof. apply filter_app. Qed.

(** The second loop does not fail on groups with non-empty grids, and
    adds intervals without pump events only. *)
Lemma add_quiet_intervals_total (delays : list R) (rest res : list Interval) :
  Forall (fun g => sub_delays g <> []) rest ->
  exists out, add_quiet_intervals delays rest res = Ok out
              /\ pump_intervals out = pump_intervals res ++ pump_intervals rest.
Proof.
  intros Hrest. revert res. induction Hrest as [| e rest He Hrest IH]; intros res.
  - exists res. split; [reflexivity |]. cbn. now rewrite app_nil_r.
  - cbn [add_quiet_intervals]. unfold rbind.
    destruct (item_last_ok _ He) as [t_end ->].
    assert (Hq : forall ds out,
               pump_intervals out = pump_intervals ((res ++ [e]) ++ [quiet ds]) ++ pump_intervals rest ->
               pump_intervals out = pump_intervals res ++ pump_intervals (e :: rest)).
    { intros ds out ->. change (e :: rest) with ([e] ++ rest).
      rewrite !pump_intervals_app, <- !app_assoc. reflexivity. }
    assert (Hn : forall out,
               pump_intervals out = pump_intervals (res ++ [e]) ++ pump_intervals rest ->
               pump_intervals out = pump_intervals res ++ pump_intervals (e :: rest)).
    { intros out ->. change (e :: rest) with ([e] ++ rest).
      rewrite !pump_intervals_app, <- !app_assoc. reflexivity. }
    destruct rest as [| next rest'].
    + destruct (0 <? _)%nat.
      * destruct (IH ((res ++ [e]) ++ [quiet (delays_after delays t_end)])) as (out & -> & Ho).
        exists out. split; [reflexivity | now apply Hq in Ho].
      * destruct (IH (res ++ [e])) as (out & -> & Ho).
        exists out. split; [reflexivity | now apply Hn].
    + inversion Hrest as [| ? ? Hnext _]; subst.
      destruct (sub_delays next) as [| t_next ?] eqn:En; [contradiction |].
      cbn [item nth_error].
      destruct (0 <? _)%nat.
      * destruct (IH ((res ++ [e]) ++ [quiet (delays_between delays t_end t_next)]))
          as (out & -> & Ho).
        exists out. split; [reflexivity | now apply Hq in Ho].
      * destruct (IH (res ++ [e])) as (out & -> & Ho).
        exists out. split; [reflexivity | now apply Hn].
Qed.

(** X10. Without heat diffusion the pulses are never merged: when the
    stored delays are strictly increasing, none of the stored widths is
    negative and the three sequences have one length (at least one
    pulse), [check_excitation] returns, whatever the delays asked for,
    and the intervals with pump events in its result are one per
    stored pulse, in order, each with the pulse delay as its only
    time, width zero and the pulse fluence. *)
Theorem check_excitation_without_diffusion (arange_count : R -> R -> R -> nat)
    (delays : list R) (w : World) (fl dp pw : list R) :
  stored_excitation w = Ok (fl, dp, pw) ->
  heat_diffusion (self w) = false ->
  Forall (fun x => 0 <= x) pw ->
  StronglySorted Rlt dp -> dp <> [] ->
  length fl = length dp -> length dp = length pw ->
  exists res lp,
    snd (check_excitation arange_count delays w)
    = Ok (res, ex_fluence (_excitation (self w)),
          ex_delay_pump (_excitation (self w)), lp)
    /\ pump_intervals res
       = map (fun df => mkInterval [fst df] [fst df] [0] [snd df]) (combine dp fl).
Proof.
  intros Hst Hd Hpw Hs Hne Hfl Hlp.
  destruct (check_excitation_result arange_count delays w fl dp pw Hst) as (lp & ->).
  rewrite Hd, effective_widths_without_diffusion by (auto; lia).
  rewrite <- Hlp.
  rewrite (traverse_excitation_zero_widths arange_count dp fl Hs Hfl) by lia.
  cbn [rbind app skipn].
  set (single := fun df : R * R => mkInterval [fst df] [fst df] [0] [snd df]).
  destruct dp as [| d dp']; [contradiction |].
  destruct fl as [| f fl']; [discriminate |].
  unfold interleave. cbn [combine map item nth_error rbind].
  unfold single at 1. cbn [sub_delays np_min fold_left fst].
  unfold rbind at 2.
  match goal with
  | |- context [add_quiet_intervals delays ?rest ?res0] =>
      destruct (add_quiet_intervals_total delays rest res0) as (out & -> & Ho)
  end.
  - constructor; [cbn; discriminate |].
    apply Forall_map, Forall_forall. intros; cbn; discriminate.
  - exists out, lp. split; [reflexivity |]. rewrite Ho.
    assert (Hp : forall l, pump_intervals (map single l) = map single l).
    { induction l as [| a l IHl]; [reflexivity |].
      change (pump_intervals (map single (a :: l)))
        with (single a :: pump_intervals (map single l)).
      now rewrite IHl. }
    change (single (d, f) :: map single (combine dp' fl'))
      with (map single ((d, f) :: combine dp' fl')).
    rewrite Hp. cbn [rbind]. destruct (0 <? _)%nat; reflexivity.
Qed.

(** X11. The two nested [while] loops of [check_excitation] come to an
    end: each pass of the outer loop moves on by at least one pulse,
    so [len(delay_pump)] passes are enough, and when the call does not
    return it is an exception of the code that ends it. *)
Theorem check_excitation_terminates (arange_count : R -> R -> R -> nat)
    (delays : list R) (w : World) (e : exn) :
  snd (check_excitation arange_count delays w) = Raise e -> e <> FuelExhausted.
Proof.
  intros H ->. exact (check_excitation_not_fuel arange_count delays w H).
Qed.

(** ** More on the initial temperature and the solver *)

Lemma np_full_shape (N K : nat) (t : R) : has_shape N K (np_full N K t) = true.
Proof.
  unfold has_shape, np_full. rewrite repeat_length, Nat.eqb_refl. cbn [andb].
  apply forallb_forall. intros row Hrow. apply repeat_spec in Hrow. subst row.
  rewrite repeat_length. apply Nat.eqb_refl.
Qed.

(** X12. What [check_initial_temperature] returns is an array of shape
    (N, K), for a single temperature as for an array handed in; the
    call leaves the object, the one-dimensional arrays and every
    existing (N, K) array as they were. *)
Theorem check_initial_temperature_shape (init_temp : init_temp_arg)
    (w w' : World) (l : loc) :
  check_initial_temperature init_temp w = (w', Ok l) ->
  (exists T, item (fields w') l = Ok T
             /\ has_shape (number_of_layers (sample (self w)))
                          (num_sub_systems (sample (self w))) T = true)
  /\ self w' = self w /\ arrays w' = arrays w
  /\ forall l0 T0, item (fields w) l0 = Ok T0 -> item (fields w') l0 = Ok T0.
Proof.
  unfold check_initial_temperature, bind, get_self, new_field, read_field, raise, ret.
  destruct init_temp as [t | l0].
  - intros H. injection H as <- <-. cbn [fields self arrays]. split; [| repeat split].
    + eexists. split; [apply item_app_new | apply np_full_shape].
    + intros l0 T0 H0. now apply item_app_old.
  - destruct (item (fields w) l0) as [T |] eqn:E; [| discriminate].
    destruct (np_size T =? 1)%nat.
    + intros H. injection H as <- <-. cbn [fields self arrays]. split; [| repeat split].
      * eexists. split; [apply item_app_new | apply np_full_shape].
      * intros l1 T0 H0. now apply item_app_old.
    + destruct (has_shape _ _ T) eqn:Hs; cbn [negb]; [| discriminate].
      intros H. injection H as <- <-. split; [| repeat split; auto].
      exists T. split; assumption.
Qed.

Section SolverMore.

Variable finderb : R -> list R -> nat.
Variable brentq : (R -> R) -> R -> R -> result R.

(** X13. When the solver returns for an array (of more than one
    element) handed in as initial temperature, that array has the
    shape (N, K) and is itself the array returned as final
    temperature: the solver writes into the caller's array, no copy
    is made.  The rows of the layers whose absorption derivative is
    not positive are left as the caller had them. *)
Theorem solver_heats_in_place (fluence : list R) (l : loc) (T : Field)
    (w w' : World) (final_temp delta_T : loc) (dalpha_dz : list R) :
  item (fields w) l = Ok T -> np_size T <> 1%nat ->
  get_temperature_after_delta_excitation finderb brentq fluence (Temp_array l) w
  = (w', Ok (final_temp, delta_T)) ->
  get_absorption_profile finderb (sample (self w)) None = Ok dalpha_dz ->
  final_temp = l
  /\ has_shape (number_of_layers (sample (self w)))
               (num_sub_systems (sample (self w))) T = true
  /\ exists T2,
       item (fields w') l = Ok T2 /\ length T2 = length T
       /\ forall j, (forall a, nth_error dalpha_dz j = Some a -> ~ 0 < a) ->
                    nth_error T2 j = nth_error T j.
Proof.
  intros HT Hsize. unfold get_temperature_after_delta_excitation. intros H Hprofile.
  apply bind_ok in H. destruct H as (w1 & h & Hh & H).
  unfold get_self in Hh. injection Hh as <- <-.
  apply bind_ok in H. destruct H as (w2 & dalpha & Hd & H).
  apply lift_ok in Hd. destruct Hd as [-> Hd].
  assert (dalpha = dalpha_dz) as -> by congruence.
  apply bind_ok in H. destruct H as (w3 & E0 & HE & H).
  apply lift_ok in HE. destruct HE as [-> _].
  apply bind_ok in H. destruct H as (w4 & l' & Hc & H).
  unfold check_initial_temperature, bind, get_self, read_field, raise, ret in Hc.
  rewrite HT in Hc. apply Nat.eqb_neq in Hsize. rewrite Hsize in Hc.
  destruct (has_shape _ _ T); cbn [negb] in Hc; [| discriminate].
  injection Hc as <- <-.
  apply bind_ok in H. destruct H as (w5 & [] & Hloop & H).
  eapply heat_layers_keeps_unabsorbed in Hloop; [| exact HT].
  destruct Hloop as (T' & HT' & Hl' & Hrows).
  unfold bind, read_field, new_field, ret in H. rewrite HT' in H.
  injection H as <- <- <-. cbn [fields].
  split; [reflexivity |]. split; [reflexivity |].
  exists T'. split; [apply item_app_old; exact HT' |]. split; assumption.
Qed.

(** The loop over the layers, in full: the rows outside the layers it
    runs over are kept, and each absorbing layer it runs over gets the
    temperature [brentq] returned for it, started from the temperature
    the layer had before the loop. *)
Lemma heat_layers_rows (S : Sample) (dalpha_dz E0 : list R) (l : loc)
    (caps : list (list (R -> R))) (i : nat) (w w' : World) (T : Field) :
  heat_layers brentq S dalpha_dz E0 l l i caps w = (w', Ok tt) ->
  item (fields w) l = Ok T ->
  exists T',
    item (fields w') l = Ok T'
    /\ length T' = length T
    /\ (forall j, (j < i \/ i + length caps <= j)%nat -> nth_error T' j = nth_error T j)
    /\ (forall j a, (i <= j < i + length caps)%nat ->
          nth_error dalpha_dz j = Some a -> 0 < a ->
          exists t1 m cs c dE t2,
            nth_error T j = Some [t1]
            /\ nth_error (mass S) j = Some m
            /\ nth_error caps (j - i) = Some cs /\ nth_error cs 0 = Some c
            /\ absorbed_energy S dalpha_dz E0 j = Ok [dE]
            /\ brentq (fun T => m * (c T - c t1) - dE) t1 1e5 = Ok t2
            /\ nth_error T' j = Some [t2]).
Proof.
  revert i w T. induction caps as [| cs caps IH]; intros i w T; cbn [heat_layers].
  - intros H HT. injection H as <-. exists T. repeat split; try assumption.
    intros j a Hj. cbn [length] in Hj. lia.
  - intros H HT.
    apply bind_ok in H. destruct H as (w1 & a & Ha & H).
    apply lift_ok in Ha. destruct Ha as [-> Ha]. apply item_Some in Ha.
    apply bind_ok in H. destruct H as (w2 & [] & Hstep & H).
    assert (Hw2 : exists T2,
              item (fields w2) l = Ok T2 /\ length T2 = length T
              /\ (forall j, j <> i -> nth_error T2 j = nth_error T j)
              /\ (0 < a ->
                  exists t1 m c dE t2,
                    nth_error T i = Some [t1]
                    /\ nth_error (mass S) i = Some m
                    /\ nth_error cs 0 = Some c
                    /\ absorbed_energy S dalpha_dz E0 i = Ok [dE]
                    /\ brentq (fun T => m * (c T - c t1) - dE) t1 1e5 = Ok t2
                    /\ nth_error T2 i = Some [t2])).
    { unfold Rgtb, Rltb in Hstep. destruct (Rlt_dec 0 a) as [Hpos | Hneg].
      - apply bind_ok in Hstep. destruct Hstep as (? & del_E & Hx & Hstep).
        apply lift_ok in Hx. destruct Hx as [-> HdE].
        apply bind_ok in Hstep. destruct Hstep as (? & T1 & Hx & Hstep).
        unfold read_field in Hx. rewrite HT in Hx. injection Hx as <- <-.
        apply bind_ok in Hstep. destruct Hstep as (? & row & Hx & Hstep).
        apply lift_ok in Hx. destruct Hx as [-> Hrow]. apply item_Some in Hrow.
        apply bind_ok in Hstep. destruct Hstep as (? & t1 & Hx & Hstep).
        apply lift_ok in Hx. destruct Hx as [-> Ht1].
        destruct row as [| r [| ? ?]]; try discriminate Ht1. injection Ht1 as ->.
        apply bind_ok in Hstep. destruct Hstep as (? & m & Hx & Hstep).
        apply lift_ok in Hx. destruct Hx as [-> Hm]. apply item_Some in Hm.
        apply bind_ok in Hstep. destruct Hstep as (? & c & Hx & Hstep).
        apply lift_ok in Hx. destruct Hx as [-> Hc]. apply item_Some in Hc.
        apply bind_ok in Hstep. destruct Hstep as (? & dE & Hx & Hstep).
        apply lift_ok in Hx. destruct Hx as [-> Hs].
        destruct del_E as [| e [| ? ?]]; try discriminate Hs. injection Hs as ->.
        apply bind_ok in Hstep. destruct Hstep as (? & t2 & Hx & Hstep).
        apply lift_ok in Hx. destruct Hx as [-> Hroot].
        apply bind_ok in Hstep. destruct Hstep as (? & T2 & Hx & Hstep).
        unfold read_field in Hx. rewrite HT in Hx. injection Hx as <- <-.
        destruct (i <? length T)%nat eqn:Hi; [| discriminate Hstep].
        apply Nat.ltb_lt in Hi.
        unfold write_field in Hstep. injection Hstep as <-. cbn [fields].
        exists (set_row T i t2). split; [| split; [| split]].
        + apply item_Some. apply set_nth_same. eapply item_lt. exact HT.
        + apply set_row_length.
        + intros j Hj. apply set_row_other. congruence.
        + intros _. exists t1, m, c, dE, t2. repeat split; try assumption.
          unfold set_row. rewrite Hrow. cbn [map]. now apply set_nth_same.
      - injection Hstep as <-. exists T. repeat split; try assumption. contradiction. }
    destruct Hw2 as (T2 & HT2 & Hl2 & Hr2 & Hb2).
    destruct (IH _ _ _ H HT2) as (T' & HT' & Hl' & Hr' & Hb').
    exists T'. split; [exact HT' |]. split; [congruence |]. split.
    + intros j Hj. cbn [length] in Hj. rewrite Hr' by lia. apply Hr2. lia.
    + intros j a' Hj Hja Hpos. cbn [length] in Hj.
      destruct (Nat.eq_dec j i) as [-> | Hne].
      * assert (a' = a) as -> by congruence.
        destruct (Hb2 Hpos) as (t1 & m & c & dE & t2 & H1 & H2 & H3 & H4 & H5 & H6).
        exists t1, m, cs, c, dE, t2. rewrite Nat.sub_diag. cbn [nth_error].
        repeat split; try assumption.
        rewrite Hr' by lia. exact H6.
      * destruct (Hb' j a' ltac:(lia) Hja Hpos)
          as (t1 & m & cs' & c & dE & t2 & H1 & H2 & H3 & H4 & H5 & H6 & H7).
        exists t1, m, cs', c, dE, t2.
        replace (j - i)%nat with (Datatypes.S (j - (i + 1))) by lia. cbn [nth_error].
        rewrite <- (Hr2 j Hne). repeat split; assumption.
Qed.

(** X14. The energy balance of the solver.  Provided the root finder
    returns roots of the functions the solver hands to it, after a
    call with one fluence [F] and one initial temperature [t] every
    layer with a positive absorption derivative [a] ends at a single
    temperature [t2] with [m (C(t2) - C(t)) = a (F areas[1]) d], where
    [m], [C] and [d] are the mass, the integrated heat capacity and
    the thickness of the layer. *)
Theorem solver_energy_balance (F t : R) (w w' : World)
    (final_temp delta_T : loc) (dalpha_dz : list R) :
  (forall j m cs c t1 dE t2,
      nth_error (mass (sample (self w))) j = Some m ->
      nth_error (int_heat_capacity (sample (self w))) j = Some cs ->
      nth_error cs 0 = Some c ->
      brentq (fun T => m * (c T - c t1) - dE) t1 1e5 = Ok t2 ->
      m * (c t2 - c t1) - dE = 0) ->
  get_temperature_after_delta_excitation finderb brentq [F] (Temp_scalar t) w
  = (w', Ok (final_temp, delta_T)) ->
  get_absorption_profile finderb (sample (self w)) None = Ok dalpha_dz ->
  exists T2,
    item (fields w') final_temp = Ok T2
    /\ forall j a, (j < length (int_heat_capacity (sample (self w))))%nat ->
         nth_error dalpha_dz j = Some a -> 0 < a ->
         exists m cs c d a1 t2,
           nth_error (mass (sample (self w))) j = Some m
           /\ nth_error (int_heat_capacity (sample (self w))) j = Some cs
           /\ nth_error cs 0 = Some c
           /\ nth_error (thickness (sample (self w))) j = Some d
           /\ nth_error (area (sample (self w))) 1 = Some a1
           /\ nth_error T2 j = Some [t2]
           /\ m * (c t2 - c t) = a * (F * a1) * d.
Proof.
  intros Hroot. unfold get_temperature_after_delta_excitation. intros H Hprofile.
  apply bind_ok in H. destruct H as (w1 & h & Hh & H).
  unfold get_self in Hh. injection Hh as <- <-.
  apply bind_ok in H. destruct H as (w2 & dalpha' & Hd & H).
  apply lift_ok in Hd. destruct Hd as [-> Hd].
  assert (dalpha' = dalpha_dz) as -> by congruence.
  apply bind_ok in H. destruct H as (w3 & E0 & HE & H).
  apply lift_ok in HE. destruct HE as [-> HE].
  unfold deposited_energy, rbind in HE.
  destruct (item (area (sample (self w))) 1) as [a1 |] eqn:Ea; [| discriminate HE].
  injection HE as <-. apply item_Some in Ea.
  apply bind_ok in H. destruct H as (w4 & l & Hc & H).
  unfold check_initial_temperature, bind, get_self, new_field in Hc.
  injection Hc as <- <-.
  apply bind_ok in H. destruct H as (w5 & [] & Hloop & H).
  eapply heat_layers_rows in Hloop; [| cbn [fields]; apply item_app_new].
  destruct Hloop as (T' & HT' & _ & _ & Hrows).
  unfold bind, read_field, new_field, ret in H. rewrite HT' in H.
  injection H as <- <- <-. cbn [fields self].
  exists T'. split; [apply item_app_old; exact HT' |].
  intros j a Hj Hja Hpos.
  destruct (Hrows j a ltac:(lia) Hja Hpos)
    as (t1 & m & cs & c & dE & t2 & H1 & H2 & H3 & H4 & H5 & H6 & H7).
  rewrite Nat.sub_0_r in H3.
  unfold absorbed_energy, rbind in H5. cbn [map] in H5.
  apply item_Some in Hja. rewrite Hja in H5.
  destruct (item (thickness (sample (self w))) j) as [d |] eqn:Ed; [| discriminate H5].
  injection H5 as <-. apply item_Some in Ed.
  exists m, cs, c, d, a1, t2. repeat split; try assumption.
  assert (t1 = t) as ->.
  { unfold np_full in H1. apply nth_error_In, repeat_spec in H1.
    destruct (num_sub_systems (sample (self w))) as [| [| k]]; cbn in H1;
      try discriminate H1. now injection H1. }
  pose proof (Hroot j m cs c t _ t2 H2 H3 H4 H6). lra.
Qed.

End SolverMore.

(** ** More on the absorption profile *)

Lemma set_slice_length (a : list R) (k : nat) (v out : list R) :
  set_slice a k v = Ok out -> length out = length a.
Proof.
  unfold set_slice.
  destruct (_ =? length v)%nat eqn:E1.
  - apply Nat.eqb_eq in E1. intros H. injection H as <-.
    rewrite !length_app, length_firstn, length_skipn. lia.
  - destruct (length v =? 1)%nat; [| discriminate].
    intros H. injection H as <-.
    rewrite !length_app, length_firstn, length_skipn, repeat_length. lia.
Qed.

Lemma Forall_firstn_skipn {A} (P : A -> Prop) (n : nat) (l : list A) :
  Forall P l -> Forall P (firstn n l) /\ Forall P (skipn n l).
Proof.
  intros H. rewrite <- (firstn_skipn n l) in H. now apply Forall_app in H.
Qed.

Lemma set_slice_Forall (P : R -> Prop) (a : list R) (k : nat) (v out : list R) :
  set_slice a k v = Ok out -> Forall P a -> Forall P v -> Forall P out.
Proof.
  unfold set_slice. intros H Ha Hv.
  destruct (_ =? length v)%nat.
  - injection H as <-. repeat (apply Forall_app; split); auto.
    + now apply Forall_firstn_skipn.
    + now apply Forall_firstn_skipn.
  - destruct (length v =? 1)%nat eqn:E; [| discriminate].
    injection H as <-. repeat (apply Forall_app; split).
    + now apply Forall_firstn_skipn.
    + destruct v as [| x v']; [discriminate E |].
      inversion Hv; subst. cbn [hd]. apply Forall_forall.
      intros y Hy. apply repeat_spec in Hy. now subst.
    + now apply Forall_firstn_skipn.
Qed.

Section AbsorptionMore.

Variable finderb : R -> list R -> nat.
Variable stack : Sample.

Lemma absorption_layers_nonneg (mesh : list R) (layers : list nat)
    (dalpha_dz : list R) (I0 : R) (k : nat) (I0_is_int : bool) (out : list R) :
  (forall index zeta, opt_pen_depth stack index = Finite zeta -> 0 < zeta) ->
  absorption_layers finderb stack mesh layers dalpha_dz I0 k I0_is_int = Ok out ->
  0 < I0 -> Forall (fun x => 0 <= x) dalpha_dz ->
  length out = length dalpha_dz /\ Forall (fun x => 0 <= x) out.
Proof.
  intros Hdepth. revert dalpha_dz I0 k I0_is_int.
  induction layers as [| i layers IH]; intros dalpha_dz I0 k I0_is_int;
    cbn [absorption_layers].
  - intros H _ Hd. injection H as <-. split; [reflexivity | exact Hd].
  - unfold rbind.
    destruct (item (interfaces stack) i) as [x0 |]; [| discriminate].
    destruct (item (interfaces stack) (i + 1)) as [x1 |]; [| discriminate].
    destruct (opt_pen_depth stack _) as [zeta |] eqn:Ez.
    + apply Hdepth in Ez.
      destruct (Reqb zeta 0); [discriminate |].
      destruct (set_slice _ _ _) as [d' |] eqn:Es; [| discriminate].
      intros H HI Hd.
      destruct (IH _ _ _ _ H) as [Hl Hn].
      * apply Rmult_lt_0_compat; [exact HI | apply exp_pos].
      * apply (set_slice_Forall _ _ _ _ _ Es Hd).
        apply Forall_map, Forall_forall. intros z _.
        apply Rmult_le_pos; [| left; apply exp_pos].
        apply Rlt_le, Rdiv_lt_0_compat; assumption.
      * split; [| exact Hn]. rewrite Hl. apply (set_slice_length _ _ _ _ Es).
    + intros H HI Hd. apply (IH _ _ _ _ H HI Hd).
Qed.

(** X15. Whatever the mesh (sorted or not, inside the stack or not),
    when every finite penetration depth of the stack is positive a
    profile that [get_absorption_profile] returns has one value per
    mesh point and no negative value. *)
Theorem absorption_profile_nonnegative (distances : option (list R)) (profile : list R) :
  (forall index zeta, opt_pen_depth stack index = Finite zeta -> 0 < zeta) ->
  get_absorption_profile finderb stack distances = Ok profile ->
  length profile = length (mesh_of stack distances)
  /\ Forall (fun x => 0 <= x) profile.
Proof.
  intros Hdepth H. unfold get_absorption_profile in H.
  fold (mesh_of stack distances) in H.
  apply (absorption_layers_nonneg _ _ _ _ _ _ _ Hdepth) in H.
  - destruct H as [Hl Hn]. split; [| exact Hn].
    rewrite Hl. apply repeat_length.
  - lra.
  - apply Forall_forall. intros x Hx. apply repeat_spec in Hx. lra.
Qed.

Lemma absorption_layers_transparent (mesh : list R) (cnt i : nat)
    (dalpha_dz : list R) (I0 : R) (k : nat) (I0_is_int : bool) :
  (forall index, opt_pen_depth stack index = Infinite) ->
  (i + cnt < length (interfaces stack) \/ cnt = 0)%nat ->
  absorption_layers finderb stack mesh (seq i cnt) dalpha_dz I0 k I0_is_int
  = Ok dalpha_dz.
Proof.
  intros Hdepth. revert i k.
  induction cnt as [| cnt IH]; intros i k Hi; cbn [seq absorption_layers]; [reflexivity |].
  unfold rbind.
  destruct (nth_error (interfaces stack) i) as [x0 |] eqn:E0;
    [| apply nth_error_None in E0; lia].
  destruct (nth_error (interfaces stack) (i + 1)) as [x1 |] eqn:E1;
    [| apply nth_error_None in E1; lia].
  rewrite (proj2 (item_Some _ _ _) E0), (proj2 (item_Some _ _ _) E1), Hdepth.
  apply IH. lia.
Qed.

(** X16. A stack without an absorbing layer (every penetration depth
    infinite) has the all-zero profile, on any mesh: the call always
    returns, and returns zeros. *)
Theorem absorption_profile_transparent (distances : option (list R)) :
  (forall index, opt_pen_depth stack index = Infinite) ->
  get_absorption_profile finderb stack distances
  = Ok (np_zeros (length (mesh_of stack distances))).
Proof.
  intros Hdepth. unfold get_absorption_profile. fold (mesh_of stack distances).
  apply absorption_layers_transparent; [exact Hdepth | lia].
Qed.

End AbsorptionMore.

(** ** More on the temperature map *)

Lemma keeps_self_ret {A} (a : A) : keeps_self (ret a).
Proof. intros w. reflexivity. Qed.
Lemma keeps_self_raise {A} (e : exn) : keeps_self (@raise A e).
Proof. intros w. reflexivity. Qed.
Lemma keeps_self_lift {A} (r : result A) : keeps_self (lift r).
Proof. intros w. reflexivity. Qed.
Lemma keeps_self_get_self : keeps_self get_self.
Proof. intros w. reflexivity. Qed.
Lemma keeps_self_read_field l : keeps_self (read_field l).
Proof. intros w. reflexivity. Qed.
Lemma keeps_self_new_field T : keeps_self (new_field T).
Proof. intros w. reflexivity. Qed.
Lemma keeps_self_write_field l T : keeps_self (write_field l T).
Proof. intros w. reflexivity. Qed.

Lemma keeps_self_bind {A B} (m : M A) (k : A -> M B) :
  keeps_self m -> (forall a, keeps_self (k a)) -> keeps_self (bind m k).
Proof.
  intros Hm Hk w. unfold bind.
  specialize (Hm w). destruct (m w) as [w1 [a | e]]; cbn in *.
  - rewrite <- Hm. apply Hk.
  - exact Hm.
Qed.

Lemma keeps_self_if {A} (b : bool) (m1 m2 : M A) :
  keeps_self m1 -> keeps_self m2 -> keeps_self (if b then m1 else m2).
Proof. destruct b; auto. Qed.

Lemma keeps_self_frame {A} (m : M A) : frame m -> keeps_self m.
Proof. intros H w. apply H. Qed.

Create HintDb keeps.
#[local] Hint Resolve keeps_self_ret keeps_self_raise keeps_self_lift keeps_self_get_self
  keeps_self_read_field keeps_self_new_field keeps_self_write_field : keeps.

Ltac keeps_steps :=
  repeat first
    [ solve [auto with keeps]
    | apply keeps_self_bind; [| intros ?]
    | apply keeps_self_if ].

Lemma keeps_self_check_initial_temperature init_temp :
  keeps_self (check_initial_temperature init_temp).
Proof. unfold check_initial_temperature. destruct init_temp; keeps_steps. Qed.

#[local] Hint Resolve keeps_self_check_initial_temperature : keeps.

Section TempMapMore.

Variable finderb : R -> list R -> nat.
Variable brentq : (R -> R) -> R -> R -> result R.
Variable calc_heat_diffusion :
  Field -> list R -> list R -> list R -> list R -> result (list Field).

Lemma keeps_self_heat_layers S dalpha_dz E0 l l' caps i :
  keeps_self (heat_layers brentq S dalpha_dz E0 l l' i caps).
Proof.
  revert i. induction caps as [| c caps IH]; intros i; cbn [heat_layers].
  - auto with keeps.
  - keeps_steps.
Qed.

Lemma keeps_self_solver fluence init_temp :
  keeps_self (get_temperature_after_delta_excitation finderb brentq fluence init_temp).
Proof.
  unfold get_temperature_after_delta_excitation.
  pose proof keeps_self_heat_layers. keeps_steps.
Qed.

Lemma keeps_self_interval_temp checked_excitation temp_map i excitation init_temp :
  keeps_self (interval_temp finderb brentq calc_heat_diffusion checked_excitation
                temp_map i excitation init_temp).
Proof.
  unfold interval_temp. pose proof keeps_self_solver. keeps_steps.
Qed.

(** X17. [calc_temp_map] returns only for a sample of at least two
    layers (and at least one sub-system): the result of
    [check_excitation] has at least one interval, and the pass over
    the first interval prints [temp[:, 1, 0]], the entry of the second
    layer. *)
Theorem calc_temp_map_needs_second_layer (arange_count : R -> R -> R -> nat)
    (delays : list R) (excitation : excitation_arg) (init_temp : init_temp_arg)
    (w w' : World) (r : list Field * list Field * list Interval) :
  calc_temp_map arange_count finderb brentq calc_heat_diffusion delays excitation init_temp w
  = (w', Ok r) ->
  (2 <= number_of_layers (sample (self w)))%nat
  /\ (1 <= num_sub_systems (sample (self w)))%nat.
Proof.
  unfold calc_temp_map. intros H.
  apply bind_ok in H. destruct H as (w1 & h & Hh & H).
  unfold get_self in Hh. injection Hh as <- <-.
  apply bind_ok in H. destruct H as (w2 & l0 & Hn & H).
  assert (S2 : self w2 = self w) by (unfold new_field in Hn; now injection Hn as <- _).
  apply bind_ok in H. destruct H as (w3 & l & Hc & H).
  pose proof (keeps_self_check_initial_temperature init_temp w2) as S3.
  rewrite Hc in S3. cbn [fst] in S3.
  apply bind_ok in H. destruct H as (w4 & [[[res lf] ld] lp] & Hce & H).
  pose proof (frame_check_excitation arange_count delays w3) as S4.
  rewrite Hce in S4. destruct S4 as (S4 & _). cbn [fst] in S4.
  apply check_excitation_inv in Hce.
  destruct Hce as (dp & pw & fl & n_exc & _ & _ & _ & _ & Hi).
  apply interleave_nonempty in Hi.
  apply bind_ok in H. destruct H as (w5 & T & HT & H).
  unfold read_field in HT. injection HT as <- _.
  apply bind_ok in H. destruct H as (w6 & [] & Hw & H).
  assert (S6 : self w6 = self w4) by (unfold write_field in Hw; now injection Hw as <-).
  apply bind_ok in H. destruct H as (w7 & st & Hloop & _).
  cbn [fst] in Hloop. destruct res as [| e rest]; [contradiction |].
  cbn [traverse_intervals] in Hloop.
  apply bind_ok in Hloop. destruct Hloop as (w8 & r8 & Hstep & _).
  unfold interval_step in Hstep.
  apply bind_ok in Hstep. destruct Hstep as (w9 & r9 & Ht & Hstep).
  pose proof (keeps_self_interval_temp (e :: rest) [l0] 0%nat e (fst (l, 1%nat)) w6) as S9.
  rewrite Ht in S9. cbn [fst] in S9.
  apply bind_ok in Hstep. destruct Hstep as (w10 & h & Hh & Hstep).
  unfold get_self in Hh. injection Hh as <- <-.
  apply bind_ok in Hstep. destruct Hstep as (w11 & [] & Hp & _).
  apply lift_ok in Hp. destruct Hp as [_ Hp].
  unfold print_column in Hp.
  rewrite S9, S6, S4, S3, S2 in Hp.
  destruct (2 <=? _)%nat eqn:E1; [| discriminate Hp].
  destruct (1 <=? _)%nat eqn:E2; [| discriminate Hp].
  apply Nat.leb_le in E1, E2. split; assumption.
Qed.

End TempMapMore.

(** ** The boundary conditions *)

Section BoundaryFacts.

Import String.
Local Open Scope string_scope.

Lemma btype_of_name (boundary_type : string) (btype : nat) :
  btype_of boundary_type = Some btype <->
  boundary_type_name btype = Ok boundary_type.
Proof.
  unfold btype_of, boundary_type_name, item, boundary_types. split.
  - destruct (boundary_type =? "temperature") eqn:E1;
      [apply String.eqb_eq in E1; intros H; injection H as <-; now subst |].
    destruct (boundary_type =? "flux") eqn:E2;
      [apply String.eqb_eq in E2; intros H; injection H as <-; now subst |].
    destruct (boundary_type =? "isolator") eqn:E3;
      [apply String.eqb_eq in E3; intros H; injection H as <-; now subst |].
    discriminate.
  - destruct btype as [| [| [| n]]]; cbn; intros H; try discriminate H.
    + injection H as <-. reflexivity.
    + injection H as <-. reflexivity.
    + injection H as <-. reflexivity.
    + destruct n; discriminate H.
Qed.

(** X18. [set_boundary_condition] either raises and leaves the boundary
    conditions as they were, or stores the type and the value for the
    side asked for and leaves the other side as it was.  It raises
    exactly when the type is none of the three names, or the type is
    not the isolator and the value has not one entry per sub-system,
    or the side is neither left nor right. *)
Theorem set_boundary_condition_all_or_nothing (S : Sample)
    (boundary_side boundary_type : string) (value : boundary_value)
    (bc : BoundaryConditions) :
  let r := set_boundary_condition S boundary_side boundary_type value bc in
  (snd r = None <->
   In boundary_type boundary_types
   /\ (boundary_type = "isolator" \/ value_size value = num_sub_systems S)
   /\ (boundary_side = "left" \/ boundary_side = "right"))
  /\ (snd r <> None -> fst r = bc).
Proof.
  cbv zeta. unfold set_boundary_condition, btype_of, boundary_types.
  destruct (boundary_type =? "temperature") eqn:E1;
    [apply String.eqb_eq in E1 | apply String.eqb_neq in E1].
  2: destruct (boundary_type =? "flux") eqn:E2;
    [apply String.eqb_eq in E2 | apply String.eqb_neq in E2].
  3: destruct (boundary_type =? "isolator") eqn:E3;
    [apply String.eqb_eq in E3 | apply String.eqb_neq in E3].
  all: try subst boundary_type; cbn [Nat.ltb Nat.leb andb].
  4:{ split; [| reflexivity]. split; [discriminate |].
      intros ([H | [H | [H | []]]] & _); congruence. }
  all: destruct (value_size value =? num_sub_systems S)%nat eqn:Ek;
    [apply Nat.eqb_eq in Ek | apply Nat.eqb_neq in Ek]; cbn [negb andb].
  all: destruct (boundary_side =? "left") eqn:Es1;
    [apply String.eqb_eq in Es1 | apply String.eqb_neq in Es1].
  all: try (destruct (boundary_side =? "right") eqn:Es2;
    [apply String.eqb_eq in Es2 | apply String.eqb_neq in Es2]).
  all: cbn [fst snd]; split; [| try reflexivity; intros H; now contradiction H].
  all: split; [try discriminate; intros _; cbn; auto 6 |].
  all: try (intros (_ & [H | H] & _); [discriminate H | contradiction]).
  all: try (intros (_ & _ & [H | H]); contradiction).
  all: try discriminate; try reflexivity.
Qed.

(** X19. What a successful call stores can be read back: the type
    stored for the side names, in [boundary_types], the type that was
    asked for, and the value stored is the value handed in; the other
    side keeps its type and its value. *)
Theorem set_boundary_condition_read_back (S : Sample)
    (boundary_side boundary_type : string) (value : boundary_value)
    (bc bc' : BoundaryConditions) :
  set_boundary_condition S boundary_side boundary_type value bc = (bc', None) ->
  (boundary_side = "left"
   /\ boundary_type_name (left_type bc') = Ok boundary_type
   /\ left_value bc' = value
   /\ right_type bc' = right_type bc /\ right_value bc' = right_value bc)
  \/ (boundary_side = "right"
      /\ boundary_type_name (right_type bc') = Ok boundary_type
      /\ right_value bc' = value
      /\ left_type bc' = left_type bc /\ left_value bc' = left_value bc).
Proof.
  unfold set_boundary_condition.
  destruct (btype_of boundary_type) as [btype |] eqn:Eb; [| discriminate].
  apply btype_of_name in Eb.
  destruct (_ && _); [discriminate |].
  destruct (boundary_side =? "left") eqn:Es1.
  - apply String.eqb_eq in Es1. intros H. injection H as <-. left. cbn. auto.
  - destruct (boundary_side =? "right") eqn:Es2; [| discriminate].
    apply String.eqb_eq in Es2. intros H. injection H as <-. right. cbn. auto.
Qed.

Lemma set_boundary_condition_ok (S : Sample)
    (boundary_side boundary_type : string) (value : boundary_value)
    (bc : BoundaryConditions) :
  boundary_ok S bc ->
  boundary_ok S (fst (set_boundary_condition S boundary_side boundary_type value bc)).
Proof.
  intros (Hl & Hr & Hlv & Hrv). unfold set_boundary_condition.
  destruct (btype_of boundary_type) as [btype |] eqn:Eb; [| repeat split; assumption].
  apply btype_of_name in Eb.
  destruct (0 <? btype)%nat eqn:Epos; cbn [andb].
  - destruct (value_size value =? num_sub_systems S)%nat eqn:Ek; cbn [negb];
      [| repeat split; assumption].
    apply Nat.eqb_eq in Ek.
    destruct (boundary_side =? "left"); [repeat split; cbn; eauto |].
    destruct (boundary_side =? "right"); repeat split; cbn; eauto.
  - apply Nat.ltb_ge in Epos.
    destruct (boundary_side =? "left"); [repeat split; cbn; eauto; lia |].
    destruct (boundary_side =? "right"); repeat split; cbn; eauto; lia.
Qed.

(** X20. After any series of calls of [set_boundary_condition] on a new
    object, whichever of them raised, the boundary conditions are
    usable: each side has one of the three types (the look-up of its
    name in [__str__] does not fail), and a side that is not an
    isolator has a value with one entry per sub-system. *)
Theorem boundary_conditions_stay_ok (S : Sample)
    (calls : list (string * string * boundary_value)) :
  boundary_ok S (after_calls S calls new_boundary_conditions).
Proof.
  assert (H0 : boundary_ok S new_boundary_conditions).
  { repeat split; cbn; eauto; lia. }
  revert H0. generalize new_boundary_conditions.
  induction calls as [| [[side type] value] calls IH]; intros bc Hbc; [exact Hbc |].
  cbn [after_calls]. apply IH. now apply set_boundary_condition_ok.
Qed.

End BoundaryFacts.

(** ** The theorems at given inputs *)

Lemma set_excitation_unsorted :
  set_excitation (Dict (Some [10; 20]) (Some [2; 1]) (Some [3; 4])) (new_heat two_layers true)
  = (mkWorld (mkHeat two_layers true (mkExcitation 3%nat 6%nat 5%nat))
             [[]; []; []; [10; 20]; [2; 1]; [3; 4]; [1; 2]] [] [],
     Ok tt).
Proof.
  unfold set_excitation, new_heat. run.
  unfold np_unique, np_sort. run. reflexivity.
Qed.

(** The delays [2; 1] come with the fluences [10; 20] and the widths
    [3; 4]: afterwards the delay 1 sits next to the fluence 10 and the
    width 3 that were given for the delay 2. *)
Lemma set_excitation_dict_stored_witness :
  stored_excitation
    (mkWorld (mkHeat two_layers true (mkExcitation 3%nat 6%nat 5%nat))
             [[]; []; []; [10; 20]; [2; 1]; [3; 4]; [1; 2]] [] [])
  = Ok ([10; 20], np_sort [2; 1], [3; 4])
  /\ np_sort [2; 1] = [1; 2].
Proof.
  split.
  - exact (set_excitation_dict_stored [10; 20] [2; 1] [3; 4] _ _ set_excitation_unsorted).
  - unfold np_sort. run. reflexivity.
Defined.

Lemma check_excitation_finite_pulse_no_diffusion :
  check_excitation ceil_count [-1; 1] finite_pulse_no_diffusion
  = (mkWorld (self finite_pulse_no_diffusion) [[10]; [0]; [2]; [0]] []
       [Warn_pulse_duration_ignored],
     Ok ([quiet [-1]; mkInterval [0] [0] [0] [10]; quiet [1]], 0%nat, 1%nat, 3%nat)).
Proof.
  unfold check_excitation, finite_pulse_no_diffusion. run.
  unfold group_intervall. run.
  unfold delays_before, delays_after. run. reflexivity.
Qed.

(** Heat diffusion is disabled and the stored width is 2: the call
    works with a new array of zeros (location 3) and the stored
    sequences stay [10], [0] and [2]. *)
Lemma check_excitation_keeps_stored_excitation_witness :
  stored_excitation finite_pulse_no_diffusion = Ok ([10], [0], [2])
  /\ stored_excitation (fst (check_excitation ceil_count [-1; 1] finite_pulse_no_diffusion))
     = Ok ([10], [0], [2])
  /\ self (fst (check_excitation ceil_count [-1; 1] finite_pulse_no_diffusion))
     = self finite_pulse_no_diffusion.
Proof.
  split; [reflexivity |].
  apply (check_excitation_keeps_stored_excitation ceil_count [-1; 1] finite_pulse_no_diffusion).
  reflexivity.
Defined.

Lemma check_excitation_two_pulses :
  check_excitation ceil_count [-5; 5] two_pulses_diffusion
  = (two_pulses_diffusion,
     Ok ([quiet [-5];
          mkInterval (np_arange ceil_count (0 - 1.5 * 1) (1 + 1.5 * 1) (1 / 1000))
                     [0; 1] [1; 1] [10; 10];
          quiet [5]], 0%nat, 1%nat, 2%nat)).
Proof.
  unfold check_excitation, two_pulses_diffusion. run.
  unfold group_intervall. run.
  rewrite np_min_arange by lra. run.
  unfold delays_before. run.
  erewrite item_last_arange; [| lra | lra | apply Zceil_eq with (z := 4000%Z); lra ].
  run. unfold delays_after. run.
  reflexivity.
Qed.





Lemma heated_above_300 : 300 < heated.
Proof. unfold heated. pose proof (exp_pos (- (0.5 - 0) / 1)). lra. Qed.

(** The default mesh of [two_layers], the midpoints 0.5 and 1.5; the
    single layer of [one_layer], of depth 1, with its midpoint 0.5;
    and the single layer of [zero_depth], of depth 0. *)
Lemma absorption_profile_by_layer_witness :
  (exists profile,
     get_absorption_profile finderb_sorted two_layers None = Ok profile
     /\ length profile = 2%nat
     /\ profile_by_layer finderb_sorted two_layers [0.5; 1.5] profile)
  /\ get_absorption_profile finderb_sorted one_layer None
     = Ok (map (fun z => exp (- z / 1) / 1) [0.5])
  /\ get_absorption_profile finderb_sorted zero_depth None = Raise ZeroDivisionError.
Proof.
  split; [| split].
  - apply (proj1 (absorption_profile_by_layer finderb_sorted two_layers None)).
    + repeat constructor; lra.
    + intros index. destruct index; cbn; [| discriminate].
      intros H. injection H as H. lra.
    + repeat constructor; lra.
    + intros z [<- | [<- | []]].
      * exists 0%nat. unfold in_layer, interface. cbn. split; [lia |]. split; [lra |].
        left; lra.
      * exists 1%nat. unfold in_layer, interface. cbn. split; [lia |]. split; [lra |].
        left; lra.
  - apply (proj1 (proj2 (proj2 (absorption_profile_by_layer finderb_sorted one_layer None)))
             1 1).
    + reflexivity.
    + reflexivity.
    + lra.
    + intros z [<- | []]. lra.
  - apply (proj2 (proj2 (proj2 (absorption_profile_by_layer finderb_sorted zero_depth None)))
             0 1 []).
    + reflexivity.
    + reflexivity.
Defined.

(** Areas 1 and 2: a fluence of 10 deposits [10 * 2], not [10 * 1]. *)
Lemma deposited_energy_second_area_witness :
  deposited_energy two_layers [10] = Ok [10 * 2]
  /\ forall dalpha_dz i a d,
       nth_error dalpha_dz i = Some a -> nth_error (thickness two_layers) i = Some d ->
       absorbed_energy two_layers dalpha_dz [10 * 2] i = Ok [a * (10 * 2) * d].
Proof.
  apply (deposited_energy_second_area two_layers 10 1 2 []). reflexivity.
Defined.

Lemma solver_two_layers :
  get_temperature_after_delta_excitation finderb_sorted brentq_slope_one [10]
    (Temp_scalar 300) (new_heat two_layers false)
  = (mkWorld (self (new_heat two_layers false)) [[]; []; []]
       [[[heated]; [300]]; [[heated - heated]; [300 - 300]]] [],
     Ok (0%nat, 1%nat)).
Proof.
  pose proof (exp_pos (- (0.5 - 0) / 1)) as He.
  unfold get_temperature_after_delta_excitation, new_heat, check_initial_temperature,
    get_absorption_profile, finderb_sorted, brentq_slope_one.
  run. reflexivity.
Qed.

(** A scalar initial temperature of 300 K: the first layer ends above
    300 K and the change returned for it is 0. *)
Lemma delta_T_is_zero_witness :
  exists T2 D,
    item [[[heated]; [300]]; [[heated - heated]; [300 - 300]]] 0 = Ok T2
    /\ item [[[heated]; [300]]; [[heated - heated]; [300 - 300]]] 1 = Ok D
    /\ D = field_sub T2 T2
    /\ Forall (Forall (fun x => x = 0)) D.
Proof.
  exact (delta_T_is_zero finderb_sorted brentq_slope_one [10] (Temp_scalar 300)
           _ _ 0%nat 1%nat solver_two_layers).
Defined.

Lemma calc_temp_map_single_pulse :
  calc_temp_map ceil_count finderb_sorted brentq_slope_one diffusion_steady [-1; 1]
    (Quantity 10) (Temp_scalar 300) (single_pulse false)
  = (after_pulse false,
     Ok ([], [], [quiet [-1]; mkInterval [0] [0] [0] [10]; quiet [1]])).
Proof.
  pose proof (exp_pos (- (0.5 - 0) / 1)) as He.
  unfold calc_temp_map, single_pulse, check_initial_temperature, check_excitation.
  run. unfold group_intervall. run. unfold delays_before, delays_after. run.
  unfold interval_step, interval_temp, diffusive, delta, temp_gradient. run.
  unfold get_temperature_after_delta_excitation, check_initial_temperature,
    get_absorption_profile, finderb_sorted, brentq_slope_one.
  run. reflexivity.
Qed.

(** Two delays are requested, -1 and 1; the call succeeds and the
    returned maps are empty. *)
Lemma calc_temp_map_returns_no_frame_witness :
  length [-1; 1] = 2%nat
  /\ snd (calc_temp_map ceil_count finderb_sorted brentq_slope_one diffusion_steady [-1; 1]
            (Quantity 10) (Temp_scalar 300) (single_pulse false))
     = Ok ([], [], [quiet [-1]; mkInterval [0] [0] [0] [10]; quiet [1]])
  /\ @nil Field = [] /\ @nil Field = [].
Proof.
  split; [reflexivity |]. split.
  - rewrite calc_temp_map_single_pulse. reflexivity.
  - exact (calc_temp_map_returns_no_frame finderb_sorted brentq_slope_one diffusion_steady
           ceil_count
             _ _ _ _ _ _ _ _ calc_temp_map_single_pulse).
Defined.

Lemma interval_temp_delta :
  interval_temp finderb_sorted brentq_slope_one diffusion_steady
    [quiet [-1]; mkInterval [0] [0] [0] [10]; quiet [1]] [0%nat] 1
    (mkInterval [0] [0] [0] [10]) 0%nat (before_pulse false)
  = (after_pulse false,
     Ok ([[[0]; [0]]], None)).
Proof.
  pose proof (exp_pos (- (0.5 - 0) / 1)) as He.
  unfold interval_temp, before_pulse, diffusive, delta, temp_gradient. run.
  unfold get_temperature_after_delta_excitation, check_initial_temperature,
    get_absorption_profile, finderb_sorted, brentq_slope_one.
  run. reflexivity.
Qed.

(** The interval of the pulse, heat diffusion disabled: the solver
    heats the first layer above 300 K, the frame of the interval is
    zero. *)
Lemma delta_interval_is_zero_witness :
  exists final_temp delta_T T2,
    get_temperature_after_delta_excitation finderb_sorted brentq_slope_one [10]
      (Temp_array 0%nat) (before_pulse false)
    = (after_pulse false, Ok (final_temp, delta_T))
    /\ item (fields (after_pulse false)) final_temp = Ok T2
    /\ [[[0]; [0]]] = [zeros_like T2]
    /\ Forall (Forall (Forall (fun x => x = 0))) [[[0]; [0]]].
Proof.
  apply (delta_interval_is_zero finderb_sorted brentq_slope_one diffusion_steady
           [quiet [-1]; mkInterval [0] [0] [0] [10]; quiet [1]] [0%nat] 1
           (mkInterval [0] [0] [0] [10]) 0%nat 0%nat [[300]; [300]]
           (before_pulse false) (after_pulse false) [[[0]; [0]]] None).
  - reflexivity.
  - reflexivity.
  - unfold diffusive. reflexivity.
  - unfold delta. run. reflexivity.
  - exact interval_temp_delta.
Defined.

Lemma interval_temp_diffusive :
  interval_temp finderb_sorted brentq_slope_one diffusion_steady
    [quiet [-3; -2; -1]; mkInterval [0] [0] [0] [10]; quiet [1]] [0%nat] 0
    (quiet [-3; -2; -1]) 1%nat (before_pulse true)
  = (after_diffusion, Ok ([[[300]; [300]]; [[300]; [300]]], Some 2%nat)).
Proof.
  unfold interval_temp, before_pulse, diffusive, delta, temp_gradient. run.
  unfold extend_left, extend_right. run. reflexivity.
Qed.

(** The quiet interval with the delays -3, -2, -1 before the pulse,
    heat diffusion enabled: the integrator gets the four times
    -3, -2, -1, 0 (the time of the pulse is borrowed) and returns four
    frames, of which two are kept for the three delays. *)
Lemma diffusive_interval_frames_witness :
  (length [[[300]; [300]]; [[300]; [300]]] + 1)%nat = length [-3; -2; -1].
Proof.
  apply (diffusive_interval_frames finderb_sorted brentq_slope_one diffusion_steady
           [quiet [-3; -2; -1]; mkInterval [0] [0] [0] [10]; quiet [1]] [0%nat] 0
           (quiet [-3; -2; -1]) 1%nat 0%nat [[300]; [300]]
           (before_pulse true) after_diffusion [[[300]; [300]]; [[300]; [300]]]
           (Some 2%nat)).
  - intros T0 times dp pw fl frames H. unfold diffusion_steady in H.
    injection H as <-. apply length_map.
  - reflexivity.
  - reflexivity.
  - unfold diffusive, temp_gradient. run. reflexivity.
  - exact interval_temp_diffusive.
Defined.

(** ** More theorems at given inputs *)

(** The delays [2; 1]: the setter returns with the delays [1; 2]. *)
Lemma set_excitation_normalizes_witness :
  normalized
    (mkWorld (mkHeat two_layers true (mkExcitation 3%nat 6%nat 5%nat))
             [[]; []; []; [10; 20]; [2; 1]; [3; 4]; [1; 2]] [] []).
Proof.
  exact (set_excitation_normalizes _ _ _ set_excitation_unsorted).
Defined.

Lemma set_excitation_duplicate :
  set_excitation (Dict (Some [7; 8]) (Some [5; 5]) (Some [1; 2])) stored_two_pulses
  = (mkWorld (mkHeat two_layers true (mkExcitation 7%nat 8%nat 9%nat))
             [[]; []; []; [10; 20]; [2; 1]; [3; 4]; [1; 2]; [7; 8]; [5; 5]; [1; 2]] [] [],
     Raise ValueError_delays_not_unique).
Proof.
  unfold set_excitation, stored_two_pulses. run.
  unfold np_unique, np_sort. run. reflexivity.
Qed.

(** An object that holds the fluences [10; 20], the delays [1; 2] and
    the widths [3; 4] is handed the delay 5 twice: the call raises,
    and the object holds the three refused arrays. *)
Lemma set_excitation_refused_is_stored_witness :
  stored_excitation stored_two_pulses = Ok ([10; 20], [1; 2], [3; 4])
  /\ stored_excitation
       (mkWorld (mkHeat two_layers true (mkExcitation 7%nat 8%nat 9%nat))
                [[]; []; []; [10; 20]; [2; 1]; [3; 4]; [1; 2]; [7; 8]; [5; 5]; [1; 2]] [] [])
     = Ok ([7; 8], [5; 5], [1; 2])
  /\ ((ValueError_delays_not_unique = ValueError_excitation_length
       /\ ~ (length [7; 8] = length [5; 5] /\ length [5; 5] = length [1; 2]))
      \/ (ValueError_delays_not_unique = ValueError_delays_not_unique /\ ~ NoDup [5; 5])).
Proof.
  split; [reflexivity |].
  exact (set_excitation_refused_is_stored [7; 8] [5; 5] [1; 2] _ _ _
           set_excitation_duplicate).
Defined.

Lemma set_excitation_normalized_again_witness :
  exists w',
    set_excitation (Dict (Some [10; 20]) (Some [1; 2]) (Some [3; 4]))
      (new_heat two_layers true) = (w', Ok tt)
    /\ stored_excitation w' = Ok ([10; 20], [1; 2], [3; 4]).
Proof.
  apply (set_excitation_normalized_again [10; 20] [1; 2] [3; 4] (new_heat two_layers true)).
  - repeat constructor; lra.
  - reflexivity.
  - reflexivity.
Defined.

(** On an object that holds two pulses: a dictionary without
    ['fluence'], which changes nothing; one with a single fluence and
    without ['delay_pump'], which is refused with the one fluence
    stored next to the two old delays; and one with two fluences and
    the delays [9; 8] and without ['pulse_width'], which is accepted
    with the delays stored in increasing order. *)
Lemma set_excitation_missing_key_witness :
  stored_excitation stored_two_pulses = Ok ([10; 20], [1; 2], [3; 4])
  /\ validation_outcome [10; 20] [1; 2] [3; 4]
       (snd (set_excitation (Dict None (Some [5]) (Some [6])) stored_two_pulses))
       (stored_excitation
          (fst (set_excitation (Dict None (Some [5]) (Some [6])) stored_two_pulses)))
  /\ validation_outcome [7] [1; 2] [3; 4]
       (snd (set_excitation (Dict (Some [7]) None (Some [6])) stored_two_pulses))
       (stored_excitation
          (fst (set_excitation (Dict (Some [7]) None (Some [6])) stored_two_pulses)))
  /\ validation_outcome [30; 40] [9; 8] [3; 4]
       (snd (set_excitation (Dict (Some [30; 40]) (Some [9; 8]) None) stored_two_pulses))
       (stored_excitation
          (fst (set_excitation (Dict (Some [30; 40]) (Some [9; 8]) None)
                  stored_two_pulses))).
Proof.
  destruct (set_excitation_missing_key [10; 20] [1; 2] [3; 4] stored_two_pulses eq_refl)
    as (H1 & H2 & H3).
  split; [reflexivity |]. split; [apply H1 |]. split; [apply H2 | apply H3].
Defined.

Lemma check_excitation_without_pulse_witness :
  snd (check_excitation ceil_count [-1; 1] (new_heat two_layers false)) = Raise IndexError.
Proof.
  apply (check_excitation_without_pulse ceil_count [-1; 1] (new_heat two_layers false) [] []).
  reflexivity.
Defined.

(** The two overlapping pulses at the delays 0 and 1. *)
Lemma check_excitation_keeps_events_witness :
  concat (map iv_delay_pump
            [quiet [-5];
             mkInterval (np_arange ceil_count (0 - 1.5 * 1) (1 + 1.5 * 1) (1 / 1000))
                        [0; 1] [1; 1] [10; 10];
             quiet [5]]) = [0; 1]
  /\ concat (map iv_pulse_width
               [quiet [-5];
                mkInterval (np_arange ceil_count (0 - 1.5 * 1) (1 + 1.5 * 1) (1 / 1000))
                           [0; 1] [1; 1] [10; 10];
                quiet [5]]) = firstn (length [0; 1]) [1; 1]
  /\ concat (map iv_fluence
               [quiet [-5];
                mkInterval (np_arange ceil_count (0 - 1.5 * 1) (1 + 1.5 * 1) (1 / 1000))
                           [0; 1] [1; 1] [10; 10];
                quiet [5]]) = firstn (length [0; 1]) [10; 10].
Proof.
  apply (check_excitation_keeps_events ceil_count [-5; 5] two_pulses_diffusion
           two_pulses_diffusion _ 0%nat 1%nat 2%nat [10; 10] [0; 1] [1; 1] check_excitation_two_pulses).
  - reflexivity.
  - reflexivity.
  - reflexivity.
Defined.

Lemma check_excitation_grids_nonempty_witness :
  [quiet [-1]; mkInterval [0] [0] [0] [10]; quiet [1]] <> []
  /\ Forall (fun g => sub_delays g <> [])
            [quiet [-1]; mkInterval [0] [0] [0] [10]; quiet [1]].
Proof.
  exact (check_excitation_grids_nonempty ceil_count _ _ _ _ _ _ _
           check_excitation_finite_pulse_no_diffusion).
Defined.

(** The group of the two pulses: the second one, merged into it, has
    the width 1. *)
Lemma check_excitation_joined_widths_witness :
  Forall (fun g => Forall (fun x => x <> 0) (tl (iv_pulse_width g)))
         [quiet [-5];
          mkInterval (np_arange ceil_count (0 - 1.5 * 1) (1 + 1.5 * 1) (1 / 1000))
                     [0; 1] [1; 1] [10; 10];
          quiet [5]].
Proof.
  exact (check_excitation_joined_widths ceil_count _ _ _ _ _ _ _ check_excitation_two_pulses).
Defined.

(** Two pulses of the widths 2 and 3 stored while heat diffusion is
    disabled; with these widths and heat diffusion enabled the two
    would form one group. *)
Lemma check_excitation_without_diffusion_witness :
  exists res lp,
    snd (check_excitation ceil_count [-1; 3] two_pulses_no_diffusion)
    = Ok (res, 0%nat, 1%nat, lp)
    /\ pump_intervals res = [mkInterval [0] [0] [0] [10]; mkInterval [1] [1] [0] [20]].
Proof.
  apply (check_excitation_without_diffusion ceil_count [-1; 3] two_pulses_no_diffusion
           [10; 20] [0; 1] [2; 3]).
  - reflexivity.
  - reflexivity.
  - repeat constructor; lra.
  - repeat constructor; lra.
  - discriminate.
  - reflexivity.
  - reflexivity.
Defined.

Lemma check_excitation_zero_width_second :
  snd (check_excitation ceil_count [-5; 5] zero_width_second) = Raise ValueError_overlap.
Proof. unfold check_excitation, zero_width_second. run. reflexivity. Qed.

(** Two stored pulses: the outer loop starts its first pass and the
    inner loop goes on to the second pulse, whose window overlaps and
    whose width is 0, and the call ends with the [ValueError] for
    it. *)
Lemma check_excitation_terminates_witness : ValueError_overlap <> FuelExhausted.
Proof.
  exact (check_excitation_terminates ceil_count [-5; 5] zero_width_second
           ValueError_overlap check_excitation_zero_width_second).
Defined.

Lemma check_initial_temperature_shape_witness :
  (exists T,
      item (fields (fst (check_initial_temperature (Temp_scalar 300)
                           (new_heat two_layers false)))) 0 = Ok T
      /\ has_shape 2 1 T = true)
  /\ self (fst (check_initial_temperature (Temp_scalar 300) (new_heat two_layers false)))
     = self (new_heat two_layers false)
  /\ arrays (fst (check_initial_temperature (Temp_scalar 300) (new_heat two_layers false)))
     = arrays (new_heat two_layers false)
  /\ forall l0 T0,
       item (fields (new_heat two_layers false)) l0 = Ok T0 ->
       item (fields (fst (check_initial_temperature (Temp_scalar 300)
                            (new_heat two_layers false)))) l0 = Ok T0.
Proof.
  apply (check_initial_temperature_shape (Temp_scalar 300) (new_heat two_layers false)
           (fst (check_initial_temperature (Temp_scalar 300) (new_heat two_layers false)))
           0%nat).
  reflexivity.
Defined.

Lemma absorption_two_layers :
  get_absorption_profile finderb_sorted two_layers None
  = Ok [1 / 1 * exp (- (0.5 - 0) / 1); 0].
Proof.
  unfold get_absorption_profile, finderb_sorted. run. reflexivity.
Qed.

Lemma solver_before_pulse :
  get_temperature_after_delta_excitation finderb_sorted brentq_slope_one [10]
    (Temp_array 0%nat) (before_pulse false)
  = (after_pulse false, Ok (0%nat, 2%nat)).
Proof.
  pose proof (exp_pos (- (0.5 - 0) / 1)) as He.
  unfold get_temperature_after_delta_excitation, before_pulse, check_initial_temperature,
    get_absorption_profile, finderb_sorted, brentq_slope_one.
  run. reflexivity.
Qed.

(** The seed frame of [before_pulse], two layers at 300 K, handed in
    as initial temperature: it is the array returned, and its second
    row, of the transparent layer, is still [300]. *)
Lemma solver_heats_in_place_witness :
  0%nat = 0%nat
  /\ has_shape 2 1 [[300]; [300]] = true
  /\ exists T2,
       item (fields (after_pulse false)) 0 = Ok T2
       /\ length T2 = length [[300]; [300]]
       /\ forall j,
            (forall a, nth_error [1 / 1 * exp (- (0.5 - 0) / 1); 0] j = Some a -> ~ 0 < a) ->
            nth_error T2 j = nth_error [[300]; [300]] j.
Proof.
  apply (solver_heats_in_place finderb_sorted brentq_slope_one [10] 0%nat [[300]; [300]]
           (before_pulse false) (after_pulse false) 0%nat 2%nat
           [1 / 1 * exp (- (0.5 - 0) / 1); 0]).
  - reflexivity.
  - cbn. lia.
  - exact solver_before_pulse.
  - exact absorption_two_layers.
Defined.

(** [brentq_slope_one] finds the roots for [two_layers] (masses 1,
    [C(T) = T]); a fluence of 10 on the sample at 300 K. *)
Lemma solver_energy_balance_witness :
  exists T2,
    item [[[heated]; [300]]; [[heated - heated]; [300 - 300]]] 0 = Ok T2
    /\ forall j a, (j < length (int_heat_capacity two_layers))%nat ->
         nth_error [1 / 1 * exp (- (0.5 - 0) / 1); 0] j = Some a -> 0 < a ->
         exists m cs c d a1 t2,
           nth_error (mass two_layers) j = Some m
           /\ nth_error (int_heat_capacity two_layers) j = Some cs
           /\ nth_error cs 0 = Some c
           /\ nth_error (thickness two_layers) j = Some d
           /\ nth_error (area two_layers) 1 = Some a1
           /\ nth_error T2 j = Some [t2]
           /\ m * (c t2 - c 300) = a * (10 * a1) * d.
Proof.
  refine (solver_energy_balance finderb_sorted brentq_slope_one 10 300
            (new_heat two_layers false)
            (mkWorld (self (new_heat two_layers false)) [[]; []; []]
               [[[heated]; [300]]; [[heated - heated]; [300 - 300]]] [])
            0%nat 1%nat [1 / 1 * exp (- (0.5 - 0) / 1); 0]
            _ solver_two_layers absorption_two_layers).
  intros j m cs c t1 dE t2 Hm Hcs Hc Hb.
  unfold brentq_slope_one in Hb. injection Hb as <-.
  destruct j as [| [| j]]; cbn in Hm, Hcs.
  - injection Hm as <-. injection Hcs as <-. cbn in Hc. injection Hc as <-. lra.
  - injection Hm as <-. injection Hcs as <-. cbn in Hc. injection Hc as <-. lra.
  - destruct j; discriminate Hm.
Defined.

Lemma absorption_profile_nonnegative_witness :
  length [1 / 1 * exp (- (0.5 - 0) / 1); 0] = length (mesh_of two_layers None)
  /\ Forall (fun x => 0 <= x) [1 / 1 * exp (- (0.5 - 0) / 1); 0].
Proof.
  apply (absorption_profile_nonnegative finderb_sorted two_layers None).
  - intros index zeta H. destruct index; cbn in H; [| discriminate H].
    injection H as <-. lra.
  - exact absorption_two_layers.
Defined.

Lemma absorption_profile_transparent_witness :
  get_absorption_profile finderb_sorted transparent (Some [0.5; 0.2; 7])
  = Ok (np_zeros (length (mesh_of transparent (Some [0.5; 0.2; 7])))).
Proof.
  apply (absorption_profile_transparent finderb_sorted transparent (Some [0.5; 0.2; 7])).
  intros index. reflexivity.
Defined.

(** The call that returns for [two_layers]. *)
Lemma calc_temp_map_needs_second_layer_witness :
  (2 <= number_of_layers (sample (self (single_pulse false))))%nat
  /\ (1 <= num_sub_systems (sample (self (single_pulse false))))%nat.
Proof.
  exact (calc_temp_map_needs_second_layer finderb_sorted brentq_slope_one diffusion_steady
           ceil_count
           _ _ _ _ _ _ calc_temp_map_single_pulse).
Defined.

Section BoundaryWitnesses.

Import String.
Local Open Scope string_scope.

(** A temperature of 300 K at the left side of [two_layers], which
    has one sub-system. *)
Lemma set_boundary_condition_read_back_witness :
  ("left" = "left"
   /\ boundary_type_name
        (left_type (fst (set_boundary_condition two_layers "left" "temperature"
                           (Scalar 300) new_boundary_conditions)))
      = Ok "temperature"
   /\ left_value (fst (set_boundary_condition two_layers "left" "temperature"
                         (Scalar 300) new_boundary_conditions))
      = Scalar 300
   /\ right_type (fst (set_boundary_condition two_layers "left" "temperature"
                         (Scalar 300) new_boundary_conditions))
      = right_type new_boundary_conditions
   /\ right_value (fst (set_boundary_condition two_layers "left" "temperature"
                          (Scalar 300) new_boundary_conditions))
      = right_value new_boundary_conditions)
  \/ ("left" = "right"
      /\ boundary_type_name
           (right_type (fst (set_boundary_condition two_layers "left" "temperature"
                               (Scalar 300) new_boundary_conditions)))
         = Ok "temperature"
      /\ right_value (fst (set_boundary_condition two_layers "left" "temperature"
                             (Scalar 300) new_boundary_conditions))
         = Scalar 300
      /\ left_type (fst (set_boundary_condition two_layers "left" "temperature"
                           (Scalar 300) new_boundary_conditions))
         = left_type new_boundary_conditions
      /\ left_value (fst (set_boundary_condition two_layers "left" "temperature"
                            (Scalar 300) new_boundary_conditions))
         = left_value new_boundary_conditions).
Proof.
  apply (set_boundary_condition_read_back two_layers "left" "temperature" (Scalar 300)
           new_boundary_conditions).
  reflexivity.
Defined.

End BoundaryWitnesses.
